(** * TitSolver: particle mesh, graph coarsening and parallel primitives

    A shallow embedding of the parts of the solver that build the particle
    adjacency ([tit/sph/particle_mesh.hpp]), coarsen and partition graphs
    ([tit/graph/coarsen.hpp], [tit/graph/partition/multilevel.hpp]) and run
    loops in parallel ([tit/core/par/algorithms.hpp],
    [tit/core/par/range.hpp]), of the integer helpers
    ([tit/core/uint_utils.hpp]), the type-level sets ([tit/core/meta.hpp]),
    [unindent] of the Python interpreter ([tit/python/interpreter.cpp]) and
    the tree view of the front end
    ([titfront/src/components/common/TreeView.tsx]), followed by the
    properties established about them.

    Conventions.  A [std::vector] is a [list]; reading index [i] is stdpp's
    lookup [l !! i] and writing it is [<[i:=x]> l].  [size_t] values that count
    elements of a range that is held in memory are [nat]; where the source
    multiplies such counts (the stop rule of the multilevel partitioner) the
    64-bit wrap-around is written out.  A [double] is the rational number it
    stands for; where the source computes with [double]s, the result of an
    operation is the exact result rounded by a function [fl], which the
    properties hold for whatever it is.  A parallel loop is modelled by the
    tasks it forks, not by an interleaving. *)

From Stdlib Require Import QArith Qabs Qround Lia Ascii.
From stdpp Require Import base list sorting.

Open Scope nat_scope.

(* ===================================================================== *)
(** * Part I: the embedding                                               *)
(* ===================================================================== *)

(** ** [tit/core/uint_utils.hpp] *)

(** [divide_up(n, divisor)]: divide two positive integers, rounding up. *)
Definition divide_up (n divisor : nat) : nat := (n + divisor - 1) / divisor.

(** [align_up(n, alignment)]. *)
Definition align_up (n alignment : nat) : nat := divide_up n alignment * alignment.

(** ** [tit/core/par/algorithms.hpp] *)

(** What a parallel algorithm does is recorded as the calls it makes to the
    user function, grouped by the task that makes them: a [Task] is the
    sequence of calls one task makes, one after another; a [ParRegion] is the
    set of tasks of one [tbb::parallel_for], which may run at the same time and
    are all joined before the region ends; a [Schedule] is a sequence of
    regions executed one after another by the calling thread. *)
Abbreviation Task A := (list A) (only parsing).
Abbreviation ParRegion A := (list (list A)) (only parsing).
Abbreviation Schedule A := (list (list (list A))) (only parsing).

(** [std::ranges::subrange{iter + first, iter + last}]. *)
Definition subrange {A} (range : list A) (first last : nat) : list A :=
  take (last - first) (drop first range).

(** [std::ranges::for_each(range, func)]: the calls, in order, by the caller. *)
Definition ranges_for_each {A B} (range : list A) (func : A -> B) : Task B :=
  func <$> range.

(** [par::for_each(range, func)]: [tbb::parallel_for] over the blockified
    range; every element may be given to a task of its own. *)
Definition for_each {A B} (range : list A) (func : A -> Task B) : ParRegion B :=
  func <$> range.

(** [DeterministicForEachRange::operator()]: [count] tasks, task
    [thread_index] receives the subrange [[first, last)] and its own index. *)
Definition deterministic_for_each_range {A}
    (num_threads : nat) (range : list A) : list (list A * nat) :=
  let count := num_threads in
  let quotient := length range / count in
  let remainder := length range mod count in
  (fun thread_index =>
     let first := thread_index * quotient + min thread_index remainder in
     let last := (thread_index + 1) * quotient
                 + min (thread_index + 1) remainder in
     (subrange range first last, thread_index))
  <$> seq 0 count.

(** [DeterministicForEach::operator()]: each task walks its subrange in order
    and calls [func(x, thread_index)]; a call is recorded as the pair of its
    arguments. *)
Definition deterministic_for_each {A}
    (num_threads : nat) (range : list A) : ParRegion (A * nat) :=
  (fun '(sub, thread_index) =>
     ranges_for_each sub (fun x => (x, thread_index)))
  <$> deterministic_for_each_range num_threads range.

(** The first index of the chunk of task [t], as the loop body computes it,
    for a range of [N] elements on [T] threads. *)
Definition chunk_first (N T t : nat) : nat := t * (N / T) + min t (N mod T).

(** The thread that handles the element at position [j] of a range of [N]
    elements on [T] threads: the number of chunks that end at or before [j]. *)
Definition thread_index_of (N T j : nat) : nat :=
  length (filter (fun t => chunk_first N T (t + 1) <= j) (seq 0 T)).

(** [std::views::chunk(range, n)]: consecutive pieces of [n] elements, the last
    one possibly shorter. *)
Definition chunk {A} (n : nat) (range : list A) : list (list A) :=
  (fun i => take n (drop (i * n) range))
  <$> seq 0 (divide_up (length range) n).

(** [BlockForEach::operator()]: the outer range is cut into chunks of
    [num_threads()] outer elements; the chunks are visited one after another
    ([std::ranges::for_each]); the outer elements of a chunk are handed to
    [par::for_each]; each of them is walked by [std::ranges::for_each]. *)
Definition block_for_each {A} (num_threads : nat) (range : list (list A))
    : Schedule A :=
  ranges_for_each (chunk num_threads range)
    (fun c => for_each c (fun inner => ranges_for_each inner (fun x => x))).

(** The schedule the description of [block_for_each] asks for: one region per
    outer element, one task per inner element. *)
Definition block_for_each_spec {A} (range : list (list A)) : Schedule A :=
  (fun outer : list A => (fun x => [x]) <$> outer) <$> range.

(** An event of a schedule is addressed by region, task and position. *)
Record Event : Type := mkEvent { ev_region : nat; ev_task : nat; ev_pos : nat }.

Definition event_at {A} (s : Schedule A) (e : Event) : option A :=
  s !! ev_region e ≫= fun r => r !! ev_task e ≫= fun t => t !! ev_pos e.

(** Two events may run at the same time when they belong to different tasks of
    one region. *)
Definition concurrent (e1 e2 : Event) : bool :=
  (ev_region e1 =? ev_region e2) && negb (ev_task e1 =? ev_task e2).

(** Where [block_for_each] runs element [j] of outer element [i]. *)
Definition block_event (num_threads i j : nat) : Event :=
  mkEvent (i / num_threads) (i mod num_threads) j.

(** ** [tit/graph/graph.hpp] *)

Abbreviation node_t := nat (only parsing).
Abbreviation weight_t := nat (only parsing).
Abbreviation part_t := nat (only parsing).

(** Modelled from the spec: the weighted graph, a compressed-row structure
    that stores for every node its weight and its (neighbour, edge weight)
    entries in insertion order.  The header that declares it is not part of
    the sources at hand; its interface is the one the coarsening code uses. *)
Abbreviation WeightedGraph := (list (weight_t * list (node_t * weight_t))).

Definition num_nodes (g : WeightedGraph) : nat := length g.

(** Modelled from the spec: [graph.nodes()], the indices [0 .. n-1]. *)
Definition nodes (g : WeightedGraph) : list node_t := seq 0 (num_nodes g).

(** Modelled from the spec: [graph.weight(node)], the node weight. *)
Definition weight (g : WeightedGraph) (node : node_t) : weight_t :=
  default 0 (fst <$> g !! node).

(** Modelled from the spec: [graph.wedges(node)], the (neighbour, edge
    weight) entries of a node, in insertion order. *)
Definition wedges_of (g : WeightedGraph) (node : node_t)
    : list (node_t * weight_t) :=
  default [] (snd <$> g !! node).

(** Modelled from the spec: [graph.wedges()] yields the unique unordered
    edges as [(a, b, w)] with [a < b]. *)
Definition wedges (g : WeightedGraph) : list (node_t * node_t * weight_t) :=
  concat ((fun a =>
             (fun '(b, w) => (a, b, w))
             <$> filter (fun bw => a < bw.1) (wedges_of g a))
          <$> nodes g).

(** Modelled from the spec: [graph.append_node(weight, neighbours)] pushes
    one node with its (neighbour, edge weight) entries. *)
Definition append_node (g : WeightedGraph) (w : weight_t)
    (neighbors : list (node_t * weight_t)) : WeightedGraph :=
  g ++ [(w, neighbors)].

(** Modelled from the spec: [SmallFlatMap], a small flat map kept in key
    order; [flat_map_add k w m] is [m[k] += w]. *)
Fixpoint flat_map_add (k : node_t) (w : weight_t)
    (m : list (node_t * weight_t)) : list (node_t * weight_t) :=
  match m with
  | [] => [(k, w)]
  | (k', w') :: m' =>
      if k <? k' then (k, w) :: m
      else if k =? k' then (k', w' + w) :: m'
      else (k', w') :: flat_map_add k w m'
  end.

(** ** [tit/core/utils.hpp] *)

(** Modelled from the spec: [equality_ranges(range, func, pred, proj)] walks
    the range once and calls [func] on every maximal run of consecutive
    elements with equal projections.  The state of the walk is the list of
    the runs already closed and the run that is still open. *)
Definition equality_ranges_step {A K} `{EqDecision K} (proj : A -> K)
    (acc : list (list A) * list A) (x : A) : list (list A) * list A :=
  let '(closed, open) := acc in
  match open with
  | [] => (closed, [x])
  | y :: _ =>
      if decide (proj y = proj x) then (closed, open ++ [x])
      else (closed ++ [open], [x])
  end.

Definition equality_ranges_close {A}
    (acc : list (list A) * list A) : list (list A) :=
  match acc.2 with [] => acc.1 | _ :: _ => acc.1 ++ [acc.2] end.

Definition equality_ranges {A K} `{EqDecision K} (proj : A -> K)
    (range : list A) : list (list A) :=
  equality_ranges_close (fold_left (equality_ranges_step proj) range ([], [])).

(** Modelled from the spec: [greater_or(a, b, c)] is [a > b], or [c] when
    they are equal; [less_or] likewise. *)
Definition greater_or (a b : nat) (c : bool) : bool :=
  (b <? a) || ((a =? b) && c).
Definition less_or (a b : nat) (c : bool) : bool :=
  (a <? b) || ((a =? b) && c).

(** [std::less] and [std::greater] on the tuples the sorts project to. *)
Definition tuple2_less (x y : nat * nat) : bool :=
  (x.1 <? y.1) || ((x.1 =? y.1) && (x.2 <? y.2)).
Definition tuple3_less (x y : nat * nat * nat) : bool :=
  (x.1.1 <? y.1.1)
  || ((x.1.1 =? y.1.1)
      && ((x.1.2 <? y.1.2) || ((x.1.2 =? y.1.2) && (x.2 <? y.2)))).
Definition tuple3_greater (x y : nat * nat * nat) : bool := tuple3_less y x.

(** [par::sort(range, compare, proj)]: a comparison sort; [a] may stand before
    [b] unless [compare(proj(b), proj(a))]. *)
Definition may_precede {A K} (compare : K -> K -> bool) (proj : A -> K)
    (a b : A) : Prop :=
  compare (proj b) (proj a) = false.

#[global] Instance may_precede_dec {A K} (compare : K -> K -> bool)
    (proj : A -> K) (a b : A) : Decision (may_precede compare proj a b).
Proof. unfold may_precede. apply _. Defined.

Definition par_sort {A K} (compare : K -> K -> bool) (proj : A -> K)
    (range : list A) : list A :=
  merge_sort (may_precede compare proj) range.

(** ** [tit/graph/coarsen.hpp] *)

(** The two mappings and the running coarse node of the matching loops.
    [fine_to_coarse] is filled with [npos], the largest [size_t], which no node
    index reaches; that marker is [None] here. *)
Record CoarsenState : Type := mkCoarsenState {
  fine_to_coarse : list (option node_t);
  coarse_to_fine : list node_t;
  coarse_node : node_t;
}.

(** [fine_to_coarse.assign(n, npos)], [coarse_to_fine.clear()],
    [coarse_node = 0]. *)
Definition coarsen_init (n : nat) : CoarsenState :=
  mkCoarsenState (replicate n None) [] 0.

(** [fine_to_coarse[node] != npos].  An index outside the vector, which a
    graph never holds, is treated as mapped. *)
Definition is_mapped (f2c : list (option node_t)) (node : node_t) : bool :=
  negb (bool_decide (f2c !! node = Some None)).

(** [fine_to_coarse[node] = coarse_node; coarse_to_fine.push_back(node)]. *)
Definition map_to_coarse (st : CoarsenState) (node : node_t) : CoarsenState :=
  mkCoarsenState (<[node := Some (coarse_node st)]> (fine_to_coarse st))
                 (coarse_to_fine st ++ [node])
                 (coarse_node st).

(** [coarse_node += 1]. *)
Definition next_coarse_node (st : CoarsenState) : CoarsenState :=
  mkCoarsenState (fine_to_coarse st) (coarse_to_fine st) (S (coarse_node st)).

(** [impl::build_coarse_graph]: one coarse node per run of [coarse_to_fine]
    with equal [fine_to_coarse] values; its weight is the sum of the fine
    weights and its neighbours are the coarse images of the fine neighbours,
    with the edge weights added up. *)
Definition build_coarse_graph (fine_graph : WeightedGraph)
    (coarse_to_fine : list node_t) (fine_to_coarse : list (option node_t))
    : WeightedGraph :=
  fold_left
    (fun coarse_graph fine_nodes =>
       let '(coarse_weight, coarse_neighbors) :=
         fold_left
           (fun '(cw, cn) fine_node =>
              (cw + weight fine_graph fine_node,
               fold_left
                 (fun cn '(fine_neighbor, fine_edge_weight) =>
                    match fine_to_coarse !! fine_neighbor with
                    | Some (Some coarse_neighbor) =>
                        flat_map_add coarse_neighbor fine_edge_weight cn
                    | _ => cn
                    end)
                 (wedges_of fine_graph fine_node) cn))
           fine_nodes (0, [])
       in append_node coarse_graph coarse_weight coarse_neighbors)
    (equality_ranges (fun fn => fine_to_coarse !! fn) coarse_to_fine)
    [].

Section Coarsen.

(** [randomized_hash(args...)] of [tit/core/rand_utils.hpp], which is not
    among the sources: any function of its arguments. *)
Variable randomized_hash : list nat -> nat.

(** The bit the generator [SplitMix64 rng{seed}] yields at its [k]-th use as
    the tie-breaker of [less_or]: any sequence of bits. *)
Variable rng : nat -> nat -> bool.

(** What [fine_graph.weight(best_neighbor)] reads while [best_neighbor] is
    still [npos]: an index outside the graph, so any value. *)
Variable weight_npos : weight_t.

(** The body of the inner loop of HEM over [fine_graph.wedges(fine_node)];
    the state is [best_neighbor], [best_edge_weight] and the number of bits
    drawn so far. *)
Definition hem_best_step (fine_graph : WeightedGraph)
    (f2c : list (option node_t))
    (acc : option node_t * weight_t * nat) (nw : node_t * weight_t)
    : option node_t * weight_t * nat :=
  let '(best_neighbor, best_edge_weight, draws) := acc in
  let '(fine_neighbor, edge_weight) := nw in
  if is_mapped f2c fine_neighbor then acc
  else if greater_or edge_weight best_edge_weight
            (less_or (weight fine_graph fine_neighbor)
                     (from_option (weight fine_graph) weight_npos best_neighbor)
                     (rng (num_nodes fine_graph) draws))
  then (Some fine_neighbor, edge_weight, S draws)
  else (best_neighbor, best_edge_weight, S draws).

(** The body of the outer loop of HEM. *)
Definition hem_step (fine_graph : WeightedGraph)
    (acc : CoarsenState * nat) (fine_node : node_t) : CoarsenState * nat :=
  let '(st, draws) := acc in
  if is_mapped (fine_to_coarse st) fine_node then acc
  else
    (* Map the fine node to a new coarse node. *)
    let st := next_coarse_node (map_to_coarse st fine_node) in
    (* Try to find a neighbor to merge the node with. *)
    let '(best_neighbor, _, draws) :=
      fold_left (hem_best_step fine_graph (fine_to_coarse st))
                (wedges_of fine_graph fine_node) (None, 0, draws) in
    (* [coarse_node] has been incremented by now, as in the source. *)
    match best_neighbor with
    | Some b => (map_to_coarse st b, draws)
    | None => (st, draws)
    end.

(** The order in which HEM visits the fine nodes. *)
Definition hem_order (fine_graph : WeightedGraph) : list node_t :=
  par_sort tuple2_less
           (fun fine_node =>
              (weight fine_graph fine_node, randomized_hash [fine_node]))
           (nodes fine_graph).

(** The matching loop of [CoarsenHEM::operator()]. *)
Definition hem_matching (fine_graph : WeightedGraph) : CoarsenState :=
  (fold_left (hem_step fine_graph) (hem_order fine_graph)
             (coarsen_init (num_nodes fine_graph), 0)).1.

(** [CoarsenHEM::operator()]: the coarse graph, [coarse_to_fine] and
    [fine_to_coarse]. *)
Definition CoarsenHEM (fine_graph : WeightedGraph)
    : WeightedGraph * list node_t * list (option node_t) :=
  let st := hem_matching fine_graph in
  (build_coarse_graph fine_graph (coarse_to_fine st) (fine_to_coarse st),
   coarse_to_fine st, fine_to_coarse st).

(** The key GEM sorts the fine edges by, in descending order. *)
Definition gem_key (fine_graph : WeightedGraph)
    (we : node_t * node_t * weight_t) : nat * nat * nat :=
  let '(fine_node, fine_neighbor, edge_weight) := we in
  (edge_weight,
   min (weight fine_graph fine_neighbor) (weight fine_graph fine_node),
   randomized_hash [fine_neighbor; fine_node]).

(** The order in which GEM visits the fine edges. *)
Definition gem_order (fine_graph : WeightedGraph)
    : list (node_t * node_t * weight_t) :=
  par_sort tuple3_greater (gem_key fine_graph) (wedges fine_graph).

(** The body of the loop of GEM over the sorted edges. *)
Definition gem_edge_step (st : CoarsenState)
    (we : node_t * node_t * weight_t) : CoarsenState :=
  let '(fine_node, fine_neighbor, _) := we in
  if is_mapped (fine_to_coarse st) fine_node then st
  else if is_mapped (fine_to_coarse st) fine_neighbor then st
  else next_coarse_node
         (mkCoarsenState
            (<[fine_neighbor := Some (coarse_node st)]>
               (<[fine_node := Some (coarse_node st)]> (fine_to_coarse st)))
            (coarse_to_fine st ++ [fine_node] ++ [fine_neighbor])
            (coarse_node st)).

(** The body of the loop of GEM over the nodes that stayed unmerged. *)
Definition gem_node_step (st : CoarsenState) (fine_node : node_t)
    : CoarsenState :=
  if is_mapped (fine_to_coarse st) fine_node then st
  else next_coarse_node (map_to_coarse st fine_node).

(** The two loops of GEM over a given sequence of edges. *)
Definition gem_matching_of (fine_graph : WeightedGraph)
    (fine_edges : list (node_t * node_t * weight_t)) : CoarsenState :=
  fold_left gem_node_step (nodes fine_graph)
    (fold_left gem_edge_step fine_edges
               (coarsen_init (num_nodes fine_graph))).

Definition gem_matching (fine_graph : WeightedGraph) : CoarsenState :=
  gem_matching_of fine_graph (gem_order fine_graph).

(** [CoarsenGEM::operator()]. *)
Definition CoarsenGEM (fine_graph : WeightedGraph)
    : WeightedGraph * list node_t * list (option node_t) :=
  let st := gem_matching fine_graph in
  (build_coarse_graph fine_graph (coarse_to_fine st) (fine_to_coarse st),
   coarse_to_fine st, fine_to_coarse st).

(** The order the description of GEM asks for: edge weight descending, then
    the smaller end point weight ascending, then the hash.  [x] stands before
    [y] in it when [tuple3_greater_spec x y]. *)
Definition tuple3_greater_spec (x y : nat * nat * nat) : bool :=
  (y.1.1 <? x.1.1)
  || ((x.1.1 =? y.1.1)
      && ((x.1.2 <? y.1.2) || ((x.1.2 =? y.1.2) && (y.2 <? x.2)))).

Definition gem_order_spec (fine_graph : WeightedGraph)
    : list (node_t * node_t * weight_t) :=
  par_sort tuple3_greater_spec (gem_key fine_graph) (wedges fine_graph).

End Coarsen.

(** ** The vocabulary of the properties of a coarsening *)

(** The largest coarse index in [fine_to_coarse]. *)
Definition max_coarse (f2c : list (option node_t)) : nat :=
  max_list (omap id f2c).

(** The coarse index of a mapped fine node. *)
Definition coarse_of (f2c : list (option node_t)) (a : node_t) : nat :=
  default 0 (from_option id None (f2c !! a)).

(** [stairs idf l m]: read along [l], the indices [idf x] start at 0, never
    decrease, grow by at most one from an element to the next, and use exactly
    the values below [m]. *)
Inductive stairs {A} (idf : A -> nat) : list A -> nat -> Prop :=
  | stairs_nil : stairs idf [] 0
  | stairs_same l x m :
      stairs idf l (S m) -> idf x = m -> stairs idf (l ++ [x]) (S m)
  | stairs_up l x m :
      stairs idf l m -> idf x = m -> stairs idf (l ++ [x]) (S m).

(** The invariant of the matching loops on a graph of [n] nodes, with [m] the
    number of coarse nodes opened so far. *)
Record coarsen_inv (n : nat) (st : CoarsenState) (m : nat) : Prop := {
  inv_length : length (fine_to_coarse st) = n;
  inv_NoDup : NoDup (coarse_to_fine st);
  inv_mapped : forall a,
    a ∈ coarse_to_fine st <-> exists c, fine_to_coarse st !! a = Some (Some c);
  inv_stairs :
    stairs (coarse_of (fine_to_coarse st)) (coarse_to_fine st) m;
}.

(** What the two mappings of a coarsening of [fine_graph] have to satisfy:
    every fine node has a coarse index; the largest coarse index plus one is
    the number of nodes of the coarse graph (when there is a fine node at
    all); and fine node [i] is in the run of [coarse_to_fine] that became
    coarse node [fine_to_coarse[i]]. *)
Definition coarsening_consistent (fine_graph : WeightedGraph)
    (res : WeightedGraph * list node_t * list (option node_t)) : Prop :=
  let '(coarse_graph, c2f, f2c) := res in
  length f2c = num_nodes fine_graph
  /\ (forall i, i < num_nodes fine_graph -> exists c, f2c !! i = Some (Some c))
  /\ (0 < num_nodes fine_graph -> max_coarse f2c + 1 = num_nodes coarse_graph)
  /\ (forall i c,
        f2c !! i = Some (Some c) ->
        exists fine_nodes,
          equality_ranges (fun fn => f2c !! fn) c2f !! c = Some fine_nodes
          /\ i ∈ fine_nodes).

(** ** [tit/graph/partition/simple.hpp] *)

(** [UniformPartition::operator()]: contiguous ranges of node indices, the
    first [remainder] parts one node longer. *)
Definition UniformPartition (graph : WeightedGraph) (parts : list part_t)
    (num_parts : nat) : list part_t :=
  let num_nodes := num_nodes graph in
  let part_size := num_nodes / num_parts in
  let remainder := num_nodes mod num_parts in
  fold_left
    (fun parts part =>
       let first := part * part_size + min part remainder in
       let last := (part + 1) * part_size + min (part + 1) remainder in
       fold_left (fun parts i => <[i := part]> parts)
                 (seq first (last - first)) parts)
    (seq 0 num_parts) parts.

(** ** [tit/core/checks.hpp], exceptions *)

(** How a call ends: it returns [s], its value or the state it leaves; or an
    exception leaves it and reaches the caller, the objects being in state
    [s]; or a check ([TIT_ASSERT], [TIT_ENSURE]) fails: the call does not
    return, and nothing is said about the state.  [TIT_ASSERT] is the check
    of a build with assertions, which is the build modelled here. *)
Inductive Result (S : Type) : Type :=
  | Ok (s : S)
  | Throw (s : S)
  | Abort.
Arguments Ok {S} s.
Arguments Throw {S} s.
Arguments Abort {S}.

(** How a task of a parallel loop ends: it returns a value, an exception
    leaves it, or a check fails. *)
Inductive TaskResult (A : Type) : Type :=
  | Returns (a : A)
  | Raises
  | Fails.
Arguments Returns {A} a.
Arguments Raises {A}.
Arguments Fails {A}.

(** [par::for_each(range, func)] over tasks that write one result each.  The
    loop returns when every task has returned.  An exception of a task leaves
    the loop after the tasks that run have ended, before the statement that
    follows the loop; a failed check ends the call where it is.  When one
    task raises and the check of another fails, which of the two is met
    depends on the schedule: here the task that comes first in the range
    decides, as when one thread runs the loop. *)
Fixpoint par_for_each_results {A B} (func : A -> TaskResult B)
    (range : list A) : TaskResult (list B) :=
  match range with
  | [] => Returns []
  | a :: range =>
      match func a with
      | Returns b =>
          match par_for_each_results func range with
          | Returns bs => Returns (b :: bs)
          | Raises => Raises
          | Fails => Fails
          end
      | Raises => Raises
      | Fails => Fails
      end
  end.

(** ** [tit/graph/partition/multilevel.hpp] *)

(** Arithmetic on [size_t]: results are reduced modulo [2^64]. *)
Definition size_t_wrap (z : Z) : Z := (z mod 2 ^ 64)%Z.

(** [stop_coarsening], from the numbers of nodes of the coarse and of the
    fine graph and the number of parts. *)
Definition stop_coarsening (coarse_num_nodes fine_num_nodes num_parts : nat)
    : bool :=
  (Z.of_nat coarse_num_nodes <=? size_t_wrap (15 * Z.of_nat num_parts))%Z
  || (size_t_wrap (Z.of_nat fine_num_nodes * 8)
      <=? size_t_wrap (Z.of_nat coarse_num_nodes * 10))%Z.

(** Modelled from the spec: [permuted_view(coarse_parts, fine_to_coarse)],
    the projection through the map; element [i] is
    [coarse_parts[fine_to_coarse[i]]].  After coarsening no entry of
    [fine_to_coarse] is [npos]; a read outside [coarse_parts] yields part 0
    here. *)
Definition permuted_view (coarse_parts : list part_t)
    (fine_to_coarse : list (option node_t)) : list part_t :=
  (fun c => from_option (fun c => default 0 (coarse_parts !! c)) 0 c)
  <$> fine_to_coarse.

(** [std::ranges::copy(src, std::begin(dst))] into a range of fixed size. *)
Definition ranges_copy {A} (src dst : list A) : list A :=
  take (length dst) (src ++ drop (length src) dst).

Section MultilevelPartition.

(** The graph type and the three strategies are template parameters of
    [MultilevelPartition]. *)
Context {Graph : Type}.
Variable graph_num_nodes : Graph -> nat.
Variable partition_coarsest : Graph -> list part_t -> nat -> list part_t.
Variable coarsen : Graph -> Graph * list node_t * list (option node_t).
Variable refine : Graph -> list part_t -> nat -> list part_t.

(** The recursive lambda of [MultilevelPartition::operator()].  [fuel] bounds
    the depth of the recursion; [None] means that it ran out. *)
Fixpoint multilevel_rec (num_parts : nat) (fuel : nat) (fine_graph : Graph)
    (fine_parts : list part_t) : option (Result (list part_t)) :=
  match fuel with
  | 0 => None
  | S fuel =>
      (* TIT_ASSERT(fine_graph.num_nodes() == std::size(fine_parts), ...) *)
      if negb (graph_num_nodes fine_graph =? length fine_parts)
      then Some Abort
      else
        (* Coarsen the graph. *)
        let '(coarse_graph, coarse_to_fine, fine_to_coarse) :=
          coarsen fine_graph in
        (* Should we stop coarsening? *)
        let stop := stop_coarsening (graph_num_nodes coarse_graph)
                                    (graph_num_nodes fine_graph) num_parts in
        (* Partition the coarse graph. *)
        let coarse_parts := replicate (graph_num_nodes coarse_graph) 0 in
        match
          (if stop
           then
             Some (Ok (partition_coarsest coarse_graph coarse_parts
                                          num_parts))
           else multilevel_rec num_parts fuel coarse_graph coarse_parts)
        with
        | Some (Ok coarse_parts) =>
            (* Project the partitioning back to the fine graph and refine
               it. *)
            Some (Ok (refine fine_graph
                        (ranges_copy
                           (permuted_view coarse_parts fine_to_coarse)
                           fine_parts)
                        num_parts))
        | failed => failed
        end
  end.

(** [MultilevelPartition::operator()].  A level that does not stop has fewer
    nodes than the one before, so one more level than there are nodes is
    enough. *)
Definition MultilevelPartition (graph : Graph) (parts : list part_t)
    (num_parts : nat) : option (Result (list part_t)) :=
  (* Validate the arguments. *)
  if negb (0 <? num_parts) then Some Abort
  else if negb (num_parts <=? graph_num_nodes graph) then Some Abort
  else if negb (length parts =? graph_num_nodes graph) then Some Abort
  else multilevel_rec num_parts (S (graph_num_nodes graph)) graph parts.

End MultilevelPartition.

(** ** [tit/sph/particle_array.hpp] and [tit/geom] *)

(** [Vec<double, Dim>], with exact coordinates. *)
Abbreviation Vec := (list Q) (only parsing).

Inductive ParticleType : Type := fluid | fixed.

#[global] Instance ParticleType_eq_dec : EqDecision ParticleType.
Proof. solve_decision. Defined.

(** [PartVec]: one part index per partitioning level. *)
Abbreviation PartVec := (list nat) (only parsing).

(** What the mesh reads and writes of a particle: the position [r], the type
    and the multilevel part index [parinfo]. *)
Record Particle : Type := mkParticle {
  r : Vec;
  particle_type : ParticleType;
  parinfo : PartVec;
}.

(** Modelled from the spec: [particles.all()], the particle views, each an
    index into the array together with the fields found there. *)
Definition all (particles : list Particle) : list (nat * Particle) :=
  zip (seq 0 (length particles)) particles.

(** Modelled from the spec: [particles.has_type(b, type)]. *)
Definition has_type (particles : list Particle) (b : nat)
    (t : ParticleType) : bool :=
  bool_decide (particle_type <$> particles !! b = Some t).

(** Modelled from the spec: [particles.fixed()] is the iterator of the fixed
    particles, in the order of their indices. *)
Definition fixed_particles (particles : list Particle)
    : list (nat * Particle) :=
  filter (fun a => particle_type a.2 = fixed) (all particles).

(** Modelled from the spec: [PartVec::common(p, q)] is the length of the
    common prefix of the two part vectors. *)
Fixpoint PartVec_common (p q : PartVec) : nat :=
  match p, q with
  | x :: p', y :: q' => if x =? y then S (PartVec_common p' q') else 0
  | _, _ => 0
  end.

(** Arithmetic on points. *)
Definition vec_sub (a b : Vec) : Vec := zip_with Qminus a b.
Definition norm2 (a : Vec) : Q := foldr Qplus 0%Q ((fun x => x * x)%Q <$> a).

(** Modelled from the spec: a point [q] is found around [p] within [radius]
    when [||q - p|| <= radius]; with exact numbers that is
    [0 <= radius] and [||q - p||^2 <= radius^2]. *)
Definition within_radius (p q : Vec) (radius : Q) : bool :=
  Qle_bool 0 radius && Qle_bool (norm2 (vec_sub q p)) (radius * radius).

(** [geom::BBox]: an axis-aligned box, given by two corners. *)
Record BBox : Type := mkBBox { low : Vec; high : Vec }.

(** Modelled from the spec: [BBox::clamp] moves a point into the box,
    component by component. *)
Definition clamp1 (lo hi x : Q) : Q :=
  if Qle_bool x lo then lo else if Qle_bool hi x then hi else x.

Definition clamp (box : BBox) (p : Vec) : Vec :=
  zip_with (fun '(lo, hi) x => clamp1 lo hi x) (zip (low box) (high box)) p.

(** ** [tit/graph/graph.hpp], [tit/core/multivector.hpp] *)

(** Modelled from the spec: the unique edges of a compressed adjacency are
    the pairs [(a, b)] with [b] in the row of [a] and [a < b]. *)
Definition edges (adjacency : list (list nat)) : list (nat * nat) :=
  concat (imap (fun a row => (fun b => (a, b)) <$> filter (fun b => a < b) row)
               adjacency).

(** Modelled from the spec: [transform_edges(f)], the view of [f] applied to
    every edge. *)
Definition transform_edges {K} (adjacency : list (list nat))
    (f : nat * nat -> K * (nat * nat)) : list (K * (nat * nat)) :=
  f <$> edges adjacency.

(** Modelled from the spec: [assign_pairs_par_wide(count, pairs)] builds
    [count] buckets and appends the value of every pair to the bucket of its
    key.  A key that is not below [count] has no bucket. *)
Definition assign_pairs_par_wide {V} (count : nat) (pairs : list (nat * V))
    : list (list V) :=
  (fun k => snd <$> filter (fun kv => kv.1 = k) pairs) <$> seq 0 count.

(** ** [tit/sph/particle_mesh.hpp] *)

(** The members of [ParticleMesh] that [update] produces. *)
Record ParticleMesh : Type := mkParticleMesh {
  adjacency_ : list (list nat);
  interp_adjacency_ : list (list nat);
  block_edges_ : list (list (nat * nat));
}.

(** [std::ranges::sort(search_results)]. *)
Definition ranges_sort (l : list nat) : list nat := merge_sort le l.

Section ParticleMesh.

(** The search index factory [search_func_]: [search_func positions] is the
    index built over the positions, and [search_func positions point radius]
    the indices its [search(point, radius, out)] appends to [out]; [None]
    stands for an exception thrown by the search. *)
Variable search_func : list Vec -> Vec -> Q -> option (list nat).

(** The geometric partitioning functions [partition_func_] and
    [secondary_partition_func_]: from the points, the number of parts and the
    first part index, the part index of every point. *)
Variable partition_func : list Vec -> nat -> list nat.
Variable secondary_partition_func : list Vec -> nat -> nat -> list nat.

(** [Domain], selected by the preprocessor in the source. *)
Variable Domain : BBox.

(** The rounding of [double]: [fl x] is the [double] that an operation whose
    exact result is [x] yields. *)
Variable fl : Q -> Q.

(** [par::num_threads()], [PartVec::MaxNumLevels] and
    [std::numeric_limits<PartIndex>::max()]. *)
Variable num_threads : nat.
Variable MaxNumLevels : nat.
Variable PartIndex_max : nat.

(** [mesh[a]]: the adjacent particles. *)
Definition neighbors (mesh : ParticleMesh) (a : nat) : list nat :=
  default [] (adjacency_ mesh !! a).

(** [mesh.fixed_interp(a)]: the row at [a - *particles.fixed().begin()],
    after [TIT_ASSERT(a.has_type(ParticleType::fixed))]. *)
Definition fixed_interp (mesh : ParticleMesh) (particles : list Particle)
    (a : nat) : Result (list nat) :=
  if negb (has_type particles a fixed) then Abort
  else
    let i := a - default 0 (fst <$> head (fixed_particles particles)) in
    Ok (default [] (interp_adjacency_ mesh !! i)).

(** The body of the first parallel loop of [search_].  [radius_func a] is
    [None] when [radius_func] throws for particle [a]. *)
Definition search_neighbors (positions : list Vec)
    (radius_func : nat -> option Q) (a : nat * Particle)
    : TaskResult (list nat) :=
  let search_point := r a.2 in
  match radius_func a.1 with
  | None => Raises
  | Some search_radius =>
      (* TIT_ASSERT(search_radius > 0.0, ...) *)
      if Qle_bool search_radius 0 then Fails
      else
        (* Search for the neighbors and store the sorted results. *)
        match search_func positions search_point search_radius with
        | None => Raises
        | Some search_results => Returns (ranges_sort search_results)
        end
  end.

(** The point searched around for a fixed particle,
    [2 * point_on_boundary - search_point] on [double]s. *)
Definition interp_point (search_point : Vec) : Vec :=
  let point_on_boundary := clamp Domain search_point in
  zip_with (fun c x => fl (fl (2 * c) - x))%Q point_on_boundary search_point.

(** The body of the second parallel loop of [search_]. *)
Definition search_interp (particles : list Particle) (positions : list Vec)
    (radius_func : nat -> option Q) (a : nat * Particle)
    : TaskResult (list nat) :=
  let search_point := r a.2 in
  match radius_func a.1 with
  | None => Raises
  | Some radius =>
      let search_radius := fl (3 * radius)%Q in
      match search_func positions (interp_point search_point)
                        search_radius with
      | None => Raises
      | Some search_results =>
          (* std::erase_if(search_results, has_type(b, fixed)) *)
          let search_results :=
            filter (fun b => has_type particles b fixed = false)
                   search_results in
          Returns (ranges_sort search_results)
      end
  end.

(** [ParticleMesh::search_].  Each loop is a [par::for_each] that fills the
    rows of a scratch vector; the rows are moved into the mesh after the
    loop. *)
Definition search_ (particles : list Particle)
    (radius_func : nat -> option Q) (mesh : ParticleMesh)
    : Result ParticleMesh :=
  let positions := r <$> particles in
  match par_for_each_results (search_neighbors positions radius_func)
                             (all particles) with
  | Raises => Throw mesh
  | Fails => Abort
  | Returns adjacency =>
      (* Compress the adjacency graph. *)
      let mesh := mkParticleMesh adjacency (interp_adjacency_ mesh)
                                 (block_edges_ mesh) in
      match par_for_each_results
              (search_interp particles positions radius_func)
              (fixed_particles particles) with
      | Raises => Throw mesh
      | Fails => Abort
      | Returns interp_adjacency =>
          (* Compress the interpolation graph. *)
          Ok (mkParticleMesh (adjacency_ mesh) interp_adjacency
                             (block_edges_ mesh))
      end
  end.

(** [level_parts[a]], the part of particle [a] at a level. *)
Definition level_part (parts : list PartVec) (level a : nat) : option nat :=
  parts !! a ≫= fun part => part !! level.

(** Writing the result of a partitioning function through
    [permuted_view(level_parts, perm)]: point [k] is particle [perm[k]]. *)
Definition write_level_parts (level : nat) (perm labels : list nat)
    (parts : list PartVec) : list PartVec :=
  fold_left (fun parts '(a, label) => alter (<[level := label]>) a parts)
            (zip perm labels) parts.

(** [is_interface]: some neighbour lies in another part of the level. *)
Definition is_interface (adjacency : list (list nat)) (parts : list PartVec)
    (level a : nat) : bool :=
  existsb (fun b => negb (bool_decide (level_part parts level a
                                       = level_part parts level b)))
          (default [] (adjacency !! a)).

(** One round of the loop over the levels; the state is the part vectors and
    the interface particles. *)
Definition partition_level (adjacency : list (list nat))
    (positions : list Vec) (num_levels : nat)
    (st : list PartVec * list nat) (level : nat) : list PartVec * list nat :=
  let '(parts, interface) := st in
  let is_first_level := level =? 0 in
  let is_last_level := level =? num_levels - 1 in
  (* Partition the particles. *)
  let parts :=
    if is_first_level
    then write_level_parts level (seq 0 (length positions))
           (partition_func positions num_threads) parts
    else write_level_parts level interface
           (secondary_partition_func
              ((fun a => default [] (positions !! a)) <$> interface)
              num_threads (level * num_threads))
           parts in
  (* Update the interface particles. *)
  if is_last_level then (parts, interface)
  else if is_first_level
  then (parts, filter (fun a => is_interface adjacency parts level a = true)
                      (seq 0 (length positions)))
  else (parts, filter (fun a => is_interface adjacency parts level a = true)
                      interface).

(** The key of an edge in the block adjacency. *)
Definition block_key (parts : list PartVec) (ab : nat * nat)
    : nat * (nat * nat) :=
  let '(a, b) := ab in
  let part_ab := PartVec_common (default [] (parts !! a))
                                (default [] (parts !! b)) in
  (part_ab, ab).

(** [ParticleMesh::partition_]. *)
Definition partition_ (particles : list Particle) (num_levels : nat)
    (mesh : ParticleMesh) : Result (list Particle * ParticleMesh) :=
  (* TIT_ASSERT(num_levels < PartVec::MaxNumLevels, ...) *)
  if negb (num_levels <? MaxNumLevels) then Abort
  else
  (* Initialize the partitioning. *)
  let num_parts := num_levels * num_threads + 1 in
  (* TIT_ENSURE(num_parts <= std::numeric_limits<PartIndex>::max(), ...) *)
  if negb (num_parts <=? PartIndex_max) then Abort
  else
    let parts := replicate (length particles)
                           (replicate MaxNumLevels (num_parts - 1)) in
    (* Build the multi-level partitioning. *)
    let positions := r <$> particles in
    let '(parts, _) :=
      fold_left (partition_level (adjacency_ mesh) positions num_levels)
                (seq 0 num_levels) (parts, []) in
    (* Assemble the block adjacency graph. *)
    let block_edges :=
      assign_pairs_par_wide (num_parts + 1)
        (transform_edges (adjacency_ mesh) (block_key parts)) in
    Ok (zip_with (fun p part => mkParticle (r p) (particle_type p) part)
                 particles parts,
        mkParticleMesh (adjacency_ mesh) (interp_adjacency_ mesh) block_edges).

(** [ParticleMesh::update]. *)
Definition update (particles : list Particle)
    (radius_func : nat -> option Q) (mesh : ParticleMesh)
    : Result (list Particle * ParticleMesh) :=
  (* Update the adjacency graphs. *)
  match search_ particles radius_func mesh with
  | Ok mesh =>
      (* Partition the adjacency graph by the block. *)
      partition_ particles 2 mesh
  | Throw mesh => Throw (particles, mesh)
  | Abort => Abort
  end.

End ParticleMesh.

(** A mesh on which [update] has not run yet. *)
Definition empty_mesh : ParticleMesh := mkParticleMesh [] [] [].

(** Modelled from the spec: a search index that reports every point within
    the radius exactly once; this one reports them from the last to the
    first, and never throws. *)
Definition reverse_search (positions : list Vec) (point : Vec) (radius : Q)
    : option (list nat) :=
  Some (reverse (filter (fun j => within_radius point
                                    (default [] (positions !! j)) radius
                                  = true)
                        (seq 0 (length positions)))).

(** A search index that throws when a coordinate of the query point is
    outside the box, and is [reverse_search] inside. *)
Definition boxed_search (box : BBox) (positions : list Vec) (point : Vec)
    (radius : Q) : option (list nat) :=
  if forallb (fun '(lo, hi, x) => Qle_bool lo x && Qle_bool x hi)
             (zip (zip (low box) (high box)) point)
  then reverse_search positions point radius
  else None.

(** Modelled from the spec: what a search index owes its callers; when a
    search returns, every point within the radius of the query point has
    been reported exactly once, and nothing else has. *)
Definition search_index_spec
    (search_func : list Vec -> Vec -> Q -> option (list nat)) : Prop :=
  forall positions point radius search_results,
    search_func positions point radius = Some search_results ->
    NoDup search_results
    /\ forall j,
         j ∈ search_results
         <-> exists q, positions !! j = Some q
                       /\ within_radius point q radius = true.

(** ** Scenarios *)

(** A path 0 - 1 - 2 with unit edge weights and node weights 1, 5 and 9. *)
Definition gem_tie_graph : WeightedGraph :=
  [(1, [(1, 1)]); (5, [(0, 1); (2, 1)]); (9, [(1, 1)])].

(** A path of four nodes with unit weights. *)
Definition path4 : WeightedGraph :=
  [(1, [(1, 1)]); (1, [(0, 1); (2, 1)]); (1, [(1, 1); (3, 1)]); (1, [(2, 1)])].

(** Stand-ins for strategies whose sources are not at hand: a hash that is
    constant, a hash that tells the nodes and the edges of a graph of fewer
    than 1000 nodes apart, so that no two keys of a sort are equal, and a
    refinement that changes nothing. *)
Definition constant_hash (args : list nat) : nat := 0.
Definition index_hash (args : list nat) : nat :=
  fold_left (fun h x => 1000 * h + x) args 0.
Definition refine_nothing (graph : WeightedGraph) (parts : list part_t)
    (num_parts : nat) : list part_t := parts.

(** A partitioning into one part, for one thread. *)
Definition one_part (positions : list Vec) (num_parts : nat) : list nat :=
  replicate (length positions) 0.
Definition one_part_from (positions : list Vec) (num_parts init_part : nat)
    : list nat :=
  replicate (length positions) init_part.

(** The unit box. *)
Definition unit_box : BBox := mkBBox [0%Q] [1%Q].

(** Arithmetic without rounding, for the scenarios in which the operations
    of the source round nothing or are not reached, and for comparison. *)
Definition exact (x : Q) : Q := x.

(** Modelled from IEEE 754: the [binary64] number nearest to [x], ties going
    to the even significand, for [x] in the range of the normal numbers. *)
Definition binary64 (x : Q) : Q :=
  if Qeq_bool x 0 then 0%Q
  else
    let a := Qabs x in
    let e := (Z.log2 (Qnum a) - Z.log2 (Zpos (Qden a)))%Z in
    (* [2 ^ e <= a < 2 ^ (e + 1)] *)
    let e := if Qle_bool (2 ^ e) a then e else (e - 1)%Z in
    (* the significand, in [[2 ^ 52, 2 ^ 53]] *)
    let scaled := (a * 2 ^ (52 - e))%Q in
    let below := Qfloor scaled in
    let rest := (scaled - inject_Z below)%Q in
    let significand :=
      if Qle_bool rest (1 # 2)
      then if Qeq_bool rest (1 # 2)
           then (if Z.even below then below else below + 1)%Z
           else below
      else (below + 1)%Z in
    ((if Qle_bool 0 x then 1 else -1) * inject_Z significand * 2 ^ (e - 52))%Q.

(** Three fluid particles on a line, at 0, 1 and 2. *)
Definition line3 : list Particle :=
  [mkParticle [0%Q] fluid []; mkParticle [1%Q] fluid [];
   mkParticle [2%Q] fluid []].

(** Search radii: the same for every particle, and one that fails for
    particle 1. *)
Definition radius_const (h : Q) (a : nat) : option Q := Some h.

(** The particle array and the mesh after [update] on [line3] with one thread,
    three levels of part indices and the radius 3/2. *)
Definition line3_updated : list Particle :=
  [mkParticle [0%Q] fluid [0; 2; 2]; mkParticle [1%Q] fluid [0; 2; 2];
   mkParticle [2%Q] fluid [0; 2; 2]].
Definition line3_mesh : ParticleMesh :=
  mkParticleMesh [[0; 1]; [0; 1; 2]; [1; 2]] []
                 [[]; []; []; [(0, 1); (1, 2)]].

(** The same for [line3] and the radius 5/2, within which every particle
    finds every other. *)
Definition line3_wide_mesh : ParticleMesh :=
  mkParticleMesh [[0; 1; 2]; [0; 1; 2]; [0; 1; 2]] []
                 [[]; []; []; [(0, 1); (0, 2); (1, 2)]].




(** The [double] nearest to 1/10, and three times it, rounded. *)
Definition tenth : Q := 3602879701896397 # 36028797018963968.
Definition three_tenths : Q := 1351079888211149 # 4503599627370496.

(** A fixed particle at -1/4, whose mirror point in the unit box is 1/4, and
    three fluid particles: at the mirror point, at the distance
    [three_tenths] from it, and at 1.  With them, what [update] makes of
    them with the radius [tenth]. *)
Definition wall4 : list Particle :=
  [mkParticle [(-1 # 4)%Q] fixed []; mkParticle [(1 # 4)%Q] fluid [];
   mkParticle [(2476979795053773 # 4503599627370496)%Q] fluid [];
   mkParticle [1%Q] fluid []].
Definition wall4_updated : list Particle :=
  [mkParticle [(-1 # 4)%Q] fixed [0; 2; 2];
   mkParticle [(1 # 4)%Q] fluid [0; 2; 2];
   mkParticle [(2476979795053773 # 4503599627370496)%Q] fluid [0; 2; 2];
   mkParticle [1%Q] fluid [0; 2; 2]].
Definition wall4_mesh : ParticleMesh :=
  mkParticleMesh [[0]; [1]; [2]; [3]] [[1; 2]] [[]; []; []; []].

(** A fixed particle at 2, whose mirror point in the unit box is 0, and a
    fluid particle at 1/2; what [update] makes of them with the radius 2;
    and an index that serves the queries between 1/4 and 3 only. *)
Definition far2 : list Particle :=
  [mkParticle [2%Q] fixed []; mkParticle [(1 # 2)%Q] fluid []].
Definition far2_updated : list Particle :=
  [mkParticle [2%Q] fixed [0; 2; 2]; mkParticle [(1 # 2)%Q] fluid [0; 2; 2]].
Definition far2_mesh : ParticleMesh :=
  mkParticleMesh [[0; 1]; [0; 1]] [[1]] [[]; []; []; [(0, 1)]].
Definition far2_box : BBox := mkBBox [(1 # 4)%Q] [3%Q].

(** The part vector of particle [a]. *)
Definition part_of (particles : list Particle) (a : nat) : PartVec :=
  default [] (parinfo <$> particles !! a).

(** The shape of the part vectors: one per particle, [MaxNumLevels] long. *)
Definition parts_shape (MaxNumLevels n : nat) (parts : list PartVec) : Prop :=
  length parts = n /\ Forall (fun part => length part = MaxNumLevels) parts.

(** A path of [n] nodes with unit weights. *)
Definition path_graph (n : nat) : WeightedGraph :=
  (fun i => (1, (if i =? 0 then [] else [(i - 1, 1)])
                ++ (if S i <? n then [(S i, 1)] else [])))
  <$> seq 0 n.

(** ** [tit/core/uint_utils.hpp], on machine integers *)

(** [divide_up] and [align_up] are templates over the integral types; they
    are written out here for an unsigned type of [bits] bits, the values
    being those of [Z].  On a type that is not narrower than [int], such as
    [size_t], every operation is reduced modulo [2 ^ bits].  The operands of
    a narrower type are promoted to [int], in which the sum, the difference
    and the quotient of such operands are exact, and the result is reduced
    when it is converted back. *)
Module UInt.

Definition wrap (bits : Z) (z : Z) : Z := (z mod 2 ^ bits)%Z.

(** The width of [int]. *)
Definition int_bits : Z := 32.

(** [(n + divisor - Int{1}) / divisor]. *)
Definition divide_up (bits : Z) (n divisor : Z) : Z :=
  if (bits <? int_bits)%Z
  then wrap bits ((n + divisor - 1) / divisor)
  else (wrap bits (wrap bits (n + divisor) - 1) / divisor)%Z.

(** [divide_up(n, alignment) * alignment]. *)
Definition align_up (bits : Z) (n alignment : Z) : Z :=
  wrap bits (divide_up bits n alignment * alignment).

End UInt.

(** The nodes [UniformPartition] gives to a part: how many times the part
    occurs among the parts of the nodes. *)
Definition part_size_of (parts : list part_t) (part : part_t) : nat :=
  length (filter (fun p => p = part) parts).

(** ** Measures of a graph and of a coarsening *)

(** The sum of the node weights of a graph. *)
Definition total_weight (g : WeightedGraph) : nat := sum_list (fst <$> g).

(** The sum of the weights of the (neighbour, edge weight) entries of a
    graph; an edge between two different nodes has an entry at either end. *)
Definition total_edge_weight (g : WeightedGraph) : nat :=
  sum_list ((fun nd => sum_list (snd <$> nd.2)) <$> g).

(** The fine nodes mapped to a coarse node, in increasing order. *)
Definition group_of (f2c : list (option node_t)) (c : node_t) : list node_t :=
  filter (fun a => f2c !! a = Some (Some c)) (seq 0 (length f2c)).

(** What a coarsening keeps of the node weights: the weight of the whole
    graph, and for every coarse node the weight of the fine nodes mapped to
    it. *)
Definition weights_conserved (fine_graph : WeightedGraph)
    (res : WeightedGraph * list node_t * list (option node_t)) : Prop :=
  let '(coarse_graph, c2f, f2c) := res in
  total_weight coarse_graph = total_weight fine_graph
  /\ forall c, c < num_nodes coarse_graph ->
       weight coarse_graph c
       = sum_list (weight fine_graph <$> group_of f2c c).

(** A coarsening merges fine nodes at most two by two: no coarse node has
    more than two fine nodes, so the coarse graph has at most as many nodes
    as the fine one and at least half as many. *)
Definition groups_at_most_two (fine_graph : WeightedGraph)
    (res : WeightedGraph * list node_t * list (option node_t)) : Prop :=
  let '(coarse_graph, c2f, f2c) := res in
  (forall c, length (group_of f2c c) <= 2)
  /\ num_nodes coarse_graph <= num_nodes fine_graph
  /\ num_nodes fine_graph <= 2 * num_nodes coarse_graph.

(** A maximal matching along [edges] of a graph of [n] nodes, as a
    fine-to-coarse map: two different fine nodes with the same coarse node are
    the end points of one of the edges, and every edge has an end point whose
    coarse node has two fine nodes. *)
Definition maximal_matching (edges : list (node_t * node_t * weight_t))
    (n : nat) (f2c : list (option node_t)) : Prop :=
  (forall a b c,
     a <> b -> f2c !! a = Some (Some c) -> f2c !! b = Some (Some c) ->
     exists w, (a, b, w) ∈ edges \/ (b, a, w) ∈ edges)
  /\ (forall a b w,
        (a, b, w) ∈ edges -> a < n -> b < n ->
        (exists c, f2c !! a = Some (Some c) /\ length (group_of f2c c) = 2)
        \/ (exists c, f2c !! b = Some (Some c)
                      /\ length (group_of f2c c) = 2)).

(** The invariant of the loop of GEM over the edges, [visited] being the
    edges visited so far: the mapped nodes are matched two by two along
    visited edges, and every visited edge has a mapped end point. *)
Definition gem_edges_inv (n : nat) (st : CoarsenState)
    (visited : list (node_t * node_t * weight_t)) : Prop :=
  (forall a c, fine_to_coarse st !! a = Some (Some c) ->
               length (group_of (fine_to_coarse st) c) = 2)
  /\ (forall a b c,
        a <> b -> fine_to_coarse st !! a = Some (Some c) ->
        fine_to_coarse st !! b = Some (Some c) ->
        exists w, (a, b, w) ∈ visited \/ (b, a, w) ∈ visited)
  /\ (forall a b w,
        (a, b, w) ∈ visited -> a < n -> b < n ->
        is_mapped (fine_to_coarse st) a = true
        \/ is_mapped (fine_to_coarse st) b = true).

(** The invariant of the loop of HEM with the sizes of the groups: either no
    fine node is mapped to [coarse_node] yet, or one is, the neighbour picked
    in the round before. *)
Definition hem_sizes_inv (n : nat) (st : CoarsenState) : Prop :=
  (forall c, length (group_of (fine_to_coarse st) c) <= 2)
  /\ (coarsen_inv n st (coarse_node st)
      \/ (coarsen_inv n st (S (coarse_node st))
          /\ length (group_of (fine_to_coarse st) (coarse_node st)) <= 1)).

(** Every neighbour entry of the graph names a node of the graph. *)
Definition graph_wf (g : WeightedGraph) : Prop :=
  Forall (fun nd => Forall (fun bw => bw.1 < num_nodes g) nd.2) g.

(** The loops of [build_coarse_graph] inside a run of fine nodes, by name:
    the loop over the neighbours of one fine node, the loop over the fine
    nodes, and the coarse node they make of the run. *)
Definition coarse_neighbors_step (f2c : list (option node_t))
    (cn : list (node_t * weight_t)) (e : node_t * weight_t)
    : list (node_t * weight_t) :=
  let '(fine_neighbor, fine_edge_weight) := e in
  match f2c !! fine_neighbor with
  | Some (Some coarse_neighbor) =>
      flat_map_add coarse_neighbor fine_edge_weight cn
  | _ => cn
  end.

Definition coarse_node_step (g : WeightedGraph) (f2c : list (option node_t))
    : weight_t * list (node_t * weight_t) -> node_t
      -> weight_t * list (node_t * weight_t) :=
  fun '(cw, cn) fine_node =>
    (cw + weight g fine_node,
     fold_left (coarse_neighbors_step f2c) (wedges_of g fine_node) cn).

Definition coarse_node_of (g : WeightedGraph) (f2c : list (option node_t))
    (fine_nodes : list node_t) : weight_t * list (node_t * weight_t) :=
  fold_left (coarse_node_step g f2c) fine_nodes (0, []).

(** ** Valid partitions *)

(** A partition of [n] nodes into [num_parts] parts: one part index per node,
    each below [num_parts]. *)
Definition valid_parts (n num_parts : nat) (parts : list part_t) : Prop :=
  length parts = n /\ Forall (fun p => p < num_parts) parts.

(** What the multilevel partitioner needs of a coarsener: [fine_to_coarse]
    has an entry for every fine node and every entry is a node of the coarse
    graph. *)
Definition coarsen_total {Graph : Type} (graph_num_nodes : Graph -> nat)
    (coarsen : Graph -> Graph * list node_t * list (option node_t)) : Prop :=
  forall g,
    let '(coarse_graph, _, f2c) := coarsen g in
    length f2c = graph_num_nodes g
    /\ Forall (fun o => exists c, o = Some c
                                  /\ c < graph_num_nodes coarse_graph) f2c.

(** ** [tit/core/par/range.hpp]: views over blockable ranges *)

(** A parallelizable range: a sized random-access range, or a
    [std::views::filter], [transform], [join] or [elements] of a
    parallelizable range.  [View B A] is such a range with elements of type
    [A] over a base range with elements of type [B]; the getter of
    [view_elements] stands for [std::get<N>]. *)
Inductive View : Type -> Type -> Type :=
  | view_all {B} (range : list B) : View B B
  | view_filter {B A} (base : View B A) (pred : A -> bool) : View B A
  | view_transform {B A C} (base : View B A) (proj : A -> C) : View B C
  | view_join {B A} (base : View B (list A)) : View B A
  | view_elements {B T A} (base : View B T) (get : T -> A) : View B A.

(** The sized random-access range at the bottom of a view. *)
Fixpoint view_base {B A} (v : View B A) : list B :=
  match v with
  | view_all range => range
  | view_filter base _ => view_base base
  | view_transform base _ => view_base base
  | view_join base => view_base base
  | view_elements base _ => view_base base
  end.

(** The adaptors of a view, applied to a subrange of its base. *)
Fixpoint view_over {B A} (v : View B A) : list B -> list A :=
  match v with
  | view_all _ => fun sub => sub
  | view_filter base pred =>
      fun sub => filter (fun x => pred x = true) (view_over base sub)
  | view_transform base proj => fun sub => proj <$> view_over base sub
  | view_join base => fun sub => concat (view_over base sub)
  | view_elements base get => fun sub => get <$> view_over base sub
  end.

(** The elements a view yields when it is iterated. *)
Definition view_elems {B A} (v : View B A) : list A :=
  view_over v (view_base v).

(** [impl::Unview::operator()]: the base range, and the function that
    applies the adaptors to the subrange it is given and then calls [func]
    with the adapted subrange and the other arguments of the loop body. *)
Fixpoint unview {B A Args R} (v : View B A)
    : (list A -> Args -> R) -> list B * (list B -> Args -> R) :=
  match v with
  | view_all range => fun func => (range, func)
  | view_filter base pred =>
      fun func =>
        unview base
          (fun subrange body_args =>
             func (filter (fun x => pred x = true) subrange) body_args)
  | view_transform base proj =>
      fun func =>
        unview base
          (fun subrange body_args => func (proj <$> subrange) body_args)
  | view_join base =>
      fun func =>
        unview base
          (fun subrange body_args => func (concat subrange) body_args)
  | view_elements base get =>
      fun func =>
        unview base
          (fun subrange body_args => func (get <$> subrange) body_args)
  end.

(** ** [tit/core/par/algorithms.hpp]: folds and copies *)

(** [tbb::parallel_reduce(range, identity, func, reduction)].  A body starts
    from a copy of [identity]; it is run on consecutive subranges, each time
    from the value it has reached ([func(subrange, value)]); a body that was
    split off to the right is joined into the body to its left with
    [reduction(left, right)].  How the range is cut and which bodies are
    split off is up to the scheduler: [parallel_reduce range result] says
    that [result] is the value of a body that started from [identity] and
    covers [range]. *)
Inductive parallel_reduce {B R} (identity : R) (func : list B -> R -> R)
    (reduction : R -> R -> R) : list B -> R -> Prop :=
  | reduce_start : parallel_reduce identity func reduction [] identity
  | reduce_run range subrange value :
      parallel_reduce identity func reduction range value ->
      parallel_reduce identity func reduction (range ++ subrange)
                      (func subrange value)
  | reduce_join left right x y :
      parallel_reduce identity func reduction left x ->
      parallel_reduce identity func reduction right y ->
      parallel_reduce identity func reduction (left ++ right) (reduction x y).

(** [FoldRange::operator()], with the range unviewed when it is not
    blockable. *)
Definition fold_range {B A R} (range : View B A) (init : R)
    (func : list A -> R -> R) (result_func : R -> R -> R) (result : R)
    : Prop :=
  let '(base, func) := unview range func in
  parallel_reduce init func result_func base result.

(** [Fold::operator()]: the function folds a subrange from the left,
    [std::bind_back(std::ranges::fold_left, func)]. *)
Definition fold {B A R} (range : View B A) (init : R) (func : R -> A -> R)
    (result_func : R -> R -> R) (result : R) : Prop :=
  fold_range range init (fun subrange init => fold_left func subrange init)
             result_func result.

(** [UnstableCopyIf::operator()].  The loop body is run on the blocks the
    scheduler cuts the range into.  It walks its block in chunks of
    [BufferCap] elements, filters each chunk into the buffer (the elements
    whose projection satisfies the predicate), claims room in
    the output with [fetch_and_add(index, buffer.size())] and moves the
    buffer there.  [buffers] is what one run of the body flushes, in
    order. *)
Definition BufferCap : nat := 64.

Definition buffers {A P} (pred : P -> bool) (proj : A -> P)
    (subrange : list A) : list (list A) :=
  (fun c => filter (fun x => pred (proj x) = true) c)
    <$> chunk BufferCap subrange.

(** The flushes of all runs of the body in the order in which they claim
    room: [order] names, flush after flush, the run that claims next; a run
    that has flushed everything claims nothing.  The state is the output
    written so far, which ends at [index], and what each run still has to
    flush. *)
Fixpoint flushes {A} (order : list nat) (pending : list (list (list A)))
    (out : list A) : list A * list (list (list A)) :=
  match order with
  | [] => (out, pending)
  | t :: order =>
      match pending !! t with
      | Some (buffer :: rest) =>
          flushes order (<[t := rest]> pending) (out ++ buffer)
      | _ => flushes order pending out
      end
  end.

(** The output range up to the iterator that is returned, and its offset
    from [out], for the blocks [blocks] and the order [order] of the
    flushes. *)
Definition unstable_copy_if {A P} (blocks : list (list A))
    (order : list nat) (pred : P -> bool) (proj : A -> P) : list A * nat :=
  let '(out, _) := flushes order (buffers pred proj <$> blocks) [] in
  (out, length out).

(** Every run of the body has flushed all its buffers. *)
Definition all_flushed {A P} (blocks : list (list A)) (order : list nat)
    (pred : P -> bool) (proj : A -> P) : Prop :=
  Forall (fun q => q = [])
         (flushes order (buffers pred proj <$> blocks) []).2.

(** ** [tit/core/meta.hpp]: sets of types *)

(** [meta::Set<Ts...>] is a list of types without repetitions, compared with
    [std::same_as].  The types are the elements of a type [T] with decidable
    equality here, a pack [Ts...] is a [list T], and what the compiler
    computes from the packs is computed by the functions below. *)
Module meta.
Section Set_.
Context {T : Type} `{EqDecision T}.

(** [contains_v<T, Us...>], the fold [(... || std::same_as<T, Us>)]. *)
Definition contains_v (t : T) (us : list T) : bool :=
  fold_left (fun acc u => acc || bool_decide (t = u)) us false.

(** [index_of_v<T, U, Us...>]; [None] where the constraint
    [contains_v<T, U, Us...>] rejects the instantiation. *)
Fixpoint index_of_v (t : T) (us : list T) : option nat :=
  match us with
  | [] => None
  | u :: us' =>
      if negb (contains_v t us) then None
      else if bool_decide (t = u) then Some 0
      else S <$> index_of_v t us'
  end.

(** [all_unique_v<Ts...>]. *)
Fixpoint all_unique_v (ts : list T) : bool :=
  match ts with
  | [] => true
  | t :: ts' => negb (contains_v t ts') && all_unique_v ts'
  end.

(** [Set<Ts...>::size()]. *)
Definition size (ts : list T) : nat := length ts.

(** [Set<Ts...>::operator|(Set<Us...>)], set union. *)
Fixpoint union (ts us : list T) : list T :=
  match us with
  | [] => ts
  | u :: us' =>
      if contains_v u ts then union ts us' else union (ts ++ [u]) us'
  end.

(** [Set<Ts...>::operator-(Set<Us...>)], set minus.  When [U] is among
    [Ts...] it is moved to the front by [Set<U>{} | Set<Ts...>{}] and
    dropped there. *)
Fixpoint minus (ts us : list T) : list T :=
  match us with
  | [] => ts
  | u :: us' =>
      if contains_v u ts
      then match union [u] ts with
           | _ :: xs => minus xs us'
           | [] => []
           end
      else minus ts us'
  end.

(** [Set<Ts...>::contains(U)]. *)
Definition contains (ts : list T) (u : T) : bool := contains_v u ts.

(** [Set<Ts...>::includes(Set<Us...>)]: the union with [Us...] is the very
    type [Set<Ts...>]. *)
Definition includes (ts us : list T) : bool :=
  bool_decide (ts = union ts us).

End Set_.
End meta.

(** ** [tit/python/interpreter.cpp]: [unindent] *)

(** A [std::string_view] is a list of characters; [npos] is [None]. *)
Abbreviation string_view := (list ascii) (only parsing).

Definition newline : ascii := "010"%char.
Definition space : ascii := " "%char.
Definition tab : ascii := "009"%char.

(** The position of the first character of [l] that satisfies [P]. *)
Fixpoint index_where (P : ascii -> bool) (l : string_view) : option nat :=
  match l with
  | [] => None
  | x :: l' => if P x then Some 0 else S <$> index_where P l'
  end.

(** [text.find(c, pos)]. *)
Definition string_find (text : string_view) (c : ascii) (pos : nat)
    : option nat :=
  (fun i => pos + i) <$> index_where (Ascii.eqb c) (drop pos text).

(** [text.substr(pos, count)] and [text.substr(pos)], for [pos] within the
    text. *)
Definition substr (text : string_view) (pos count : nat) : string_view :=
  take count (drop pos text).
Definition substr_from (text : string_view) (pos : nat) : string_view :=
  drop pos text.

(** [line.find_first_not_of(" \t")]. *)
Definition find_first_not_of_blank (line : string_view) : option nat :=
  index_where (fun x => negb (Ascii.eqb x space || Ascii.eqb x tab)) line.

(** [std::min(indent, line_indent)], [indent] possibly being [npos], the
    largest value. *)
Definition npos_min (indent : option nat) (line_indent : nat) : nat :=
  match indent with
  | Some indent => min indent line_indent
  | None => line_indent
  end.

(** The loop of [unindent].  [fuel] bounds the number of rounds; [None]
    means that it was used up. *)
Fixpoint unindent_loop (fuel : nat) (text : string_view)
    (result : string_view) (indent : option nat) (start : nat)
    : option string_view :=
  match fuel with
  | 0 => None
  | S fuel =>
      if start <? length text then
        let end_ := default (length text) (string_find text newline start) in
        let line := substr text start (end_ - start) in
        let line_indent := find_first_not_of_blank line in
        let indent :=
          match indent with None => line_indent | Some _ => indent end in
        let result :=
          match line_indent with
          | Some line_indent =>
              result ++ substr_from line (npos_min indent line_indent)
          | None => result
          end in
        let result := result ++ [newline] in
        unindent_loop fuel text result indent (end_ + 1)
      else Some result
  end.

(** [unindent(text)].  Every round moves [start] forward, so one round more
    than the text has characters is enough. *)
Definition unindent (text : string_view) : option string_view :=
  unindent_loop (S (length text)) text [] None 0.

(** *** The lines of a text *)

(** The lines of a text as the loop of [unindent] meets them: a line ends at
    a newline or at the end of the text, and nothing follows the last
    newline.  [cur] is the beginning of the line that is being read. *)
Fixpoint lines_from (cur : string_view) (text : string_view)
    : list string_view :=
  match text with
  | [] => match cur with [] => [] | _ => [cur] end
  | c :: text' =>
      if Ascii.eqb c newline then cur :: lines_from [] text'
      else lines_from (cur ++ [c]) text'
  end.

Definition lines (text : string_view) : list string_view :=
  lines_from [] text.

(** What [unindent] makes of one line, [indent] being the indentation found
    on the lines before it. *)
Definition unindent_line (indent : option nat) (line : string_view)
    : string_view :=
  match find_first_not_of_blank line with
  | Some line_indent => drop (npos_min indent line_indent) line
  | None => []
  end.

(** The indentation after a line has been read. *)
Definition next_indent (indent : option nat) (line : string_view)
    : option nat :=
  match indent with
  | None => find_first_not_of_blank line
  | Some _ => indent
  end.

(** The lines of the result, from the lines of the text. *)
Fixpoint unindent_lines (indent : option nat) (ls : list string_view)
    : list string_view :=
  match ls with
  | [] => []
  | line :: ls' =>
      let indent := next_indent indent line in
      unindent_line indent line :: unindent_lines indent ls'
  end.

(** The text made of lines, each ended by a newline. *)
Definition unlines (ls : list string_view) : string_view :=
  concat ((fun line => line ++ [newline]) <$> ls).

(** A line of blanks and tabs only. *)
Definition blank (line : string_view) : Prop :=
  find_first_not_of_blank line = None.

(** The line at the front of a text and what follows its newline. *)
Fixpoint break_line (text : string_view) : string_view * string_view :=
  match text with
  | [] => ([], [])
  | c :: text' =>
      if Ascii.eqb c newline then ([], text')
      else let '(line, rest) := break_line text' in (c :: line, rest)
  end.

(** A blank or a tab. *)
Definition is_blank (x : ascii) : bool := Ascii.eqb x space || Ascii.eqb x tab.

(** What [unindent] may do to a line: a line of blanks and tabs becomes
    empty, any other line loses blanks and tabs at its front and nothing
    else. *)
Definition unindented (line line' : string_view) : Prop :=
  (blank line /\ line' = [])
  \/ (~ blank line
      /\ exists removed,
           line = removed ++ line'
           /\ Forall (fun x => is_blank x = true) removed).

(** ** [titfront/src/components/common/TreeView.tsx] *)

Module TreeView.

(** A [TreeNode].  The nodes are JavaScript objects: [Set.has], [===] and
    [findIndex] tell them apart by identity, which is the field [ref] here.
    The component reads [children] and, to render a row, [name]; [descr],
    [value] and [parent] are not read. *)
#[warnings="-register-all"]
Inductive TreeNode : Type :=
  mkTreeNode (ref : nat) (name : list ascii)
             (children : option (list TreeNode)).

Definition ref (node : TreeNode) : nat :=
  let 'mkTreeNode ref _ _ := node in ref.
Definition name (node : TreeNode) : list ascii :=
  let 'mkTreeNode _ name _ := node in name.
Definition children (node : TreeNode) : option (list TreeNode) :=
  let 'mkTreeNode _ _ children := node in children.

(** A [Set<TreeNode>]: the identities of its elements, in the order in which
    they were added. *)
Definition set_has (s : list nat) (node : TreeNode) : bool :=
  bool_decide (ref node ∈ s).
Definition set_add (s : list nat) (node : TreeNode) : list nat :=
  if set_has s node then s else s ++ [ref node].
Definition set_delete (s : list nat) (node : TreeNode) : list nat :=
  filter (fun r => r <> ref node) s.

(** The updates of [expandedNodes], as functions of the set before. *)
Definition showNode (node : TreeNode) (prevExpandedNodes : list nat)
    : list nat :=
  set_add prevExpandedNodes node.

Definition hideNode (node : TreeNode) (prevExpandedNodes : list nat)
    : list nat :=
  set_delete prevExpandedNodes node.

Definition toggleNode (node : TreeNode) (prevExpandedNodes : list nat)
    : list nat :=
  if set_has prevExpandedNodes node
  then set_delete prevExpandedNodes node
  else set_add prevExpandedNodes node.

(** [flattenVisibleTree(depth, nodes)]: every node is followed by the
    flattened children when it is expanded and has a [children] array.  The
    function of one node is what is mapped over [nodes] by [flatMap]. *)
Fixpoint flattenVisibleNode (expandedNodes : list nat) (depth : nat)
    (node : TreeNode) : list (nat * TreeNode) :=
  (depth, node)
  :: match node with
     | mkTreeNode ref _ (Some children) =>
         if bool_decide (ref ∈ expandedNodes)
         then flat_map (flattenVisibleNode expandedNodes (S depth)) children
         else []
     | mkTreeNode _ _ None => []
     end.

Definition flattenVisibleTree (expandedNodes : list nat) (depth : nat)
    (nodes : list TreeNode) : list (nat * TreeNode) :=
  flat_map (flattenVisibleNode expandedNodes depth) nodes.

(** The state of the component. *)
Record State : Type := mkState {
  expandedNodes : list nat;
  selectedNode : option TreeNode;
}.

Definition initialState : State := mkState [] None.

Definition visibleNodes (nodes : list TreeNode) (st : State)
    : list (nat * TreeNode) :=
  flattenVisibleTree (expandedNodes st) 0 nodes.

(** [visibleNodes.findIndex(([, n]) => n === node)]; [node] is [undefined]
    ([None]) when nothing is selected and there is no first node. *)
Fixpoint findIndex (visible : list (nat * TreeNode)) (node : option TreeNode)
    : Z :=
  match visible with
  | [] => -1
  | (_, n) :: rest =>
      if bool_decide (Some (ref n) = ref <$> node) then 0%Z
      else let index := findIndex rest node in
           if (index <? 0)%Z then (-1)%Z else (index + 1)%Z
  end.

(** [a % b] on integers: the remainder has the sign of [a]; [NaN] ([None])
    when [b] is zero. *)
Definition js_rem (a b : Z) : option Z :=
  if (b =? 0)%Z then None else Some (Z.rem a b).

(** [array[index]]: [undefined] ([None]) for [NaN] and outside the array. *)
Definition at_index {A} (array : list A) (index : option Z) : option A :=
  match index with
  | Some index => if (0 <=? index)%Z then array !! Z.to_nat index else None
  | None => None
  end.

Inductive Key : Type :=
  | ArrowDown | ArrowUp | ArrowRight | ArrowLeft | Enter | OtherKey.

(** [handleKeyDown(event)] in the state [st] that was rendered.  Reading a
    property of [undefined] throws a [TypeError], which leaves the state as
    it is. *)
Definition handleKeyDown (nodes : list TreeNode) (st : State) (key : Key)
    : Result State :=
  let visibleNodes := visibleNodes nodes st in
  let node :=
    match selectedNode st with Some n => Some n | None => nodes !! 0 end in
  match key with
  | ArrowDown =>
      let index := findIndex visibleNodes node in
      let nextIndex :=
        js_rem (index + 1) (Z.of_nat (length visibleNodes)) in
      match at_index visibleNodes nextIndex with
      | Some (_, nextNode) => Ok (mkState (expandedNodes st) (Some nextNode))
      | None => Throw st
      end
  | ArrowUp =>
      let index := findIndex visibleNodes node in
      let prevIndex :=
        js_rem (index - 1 + Z.of_nat (length visibleNodes))
               (Z.of_nat (length visibleNodes)) in
      match at_index visibleNodes prevIndex with
      | Some (_, prevNode) => Ok (mkState (expandedNodes st) (Some prevNode))
      | None => Throw st
      end
  | ArrowRight =>
      match node with
      | None => Throw st
      | Some node =>
          match children node with
          | Some _ =>
              Ok (mkState (showNode node (expandedNodes st))
                          (selectedNode st))
          | None => Ok st
          end
      end
  | ArrowLeft =>
      match node with
      | None => Throw st
      | Some node =>
          match children node with
          | Some _ =>
              Ok (mkState (hideNode node (expandedNodes st))
                          (selectedNode st))
          | None => Ok st
          end
      end
  | Enter =>
      match node with
      | None => Throw st
      | Some node =>
          match children node with
          | Some _ =>
              if set_has (expandedNodes st) node
              then Ok (mkState (hideNode node (expandedNodes st))
                               (selectedNode st))
              else Ok (mkState (showNode node (expandedNodes st))
                               (selectedNode st))
          | None => Ok st
          end
      end
  | OtherKey => Ok st
  end.

(** The [onClick] of the row of [node]:
    [(toggleNode(node), setSelectedNode(node))]. *)
Definition handleClick (st : State) (node : TreeNode) : State :=
  mkState (toggleNode node (expandedNodes st)) (Some node).

(** *** What is shown *)

(** The rows of the tree: a root at depth 0, and the children of a row whose
    node is expanded, one level deeper. *)
Inductive shown (expandedNodes : list nat) (nodes : list TreeNode)
    : nat -> TreeNode -> Prop :=
  | shown_root node : node ∈ nodes -> shown expandedNodes nodes 0 node
  | shown_child depth parent children node :
      shown expandedNodes nodes depth parent ->
      TreeView.children parent = Some children ->
      ref parent ∈ expandedNodes ->
      node ∈ children ->
      shown expandedNodes nodes (S depth) node.

(** All nodes of a tree, every node before its children. *)
Fixpoint all_nodes_of (node : TreeNode) : list TreeNode :=
  node
  :: match node with
     | mkTreeNode _ _ (Some children) => flat_map all_nodes_of children
     | mkTreeNode _ _ None => []
     end.

Definition all_nodes (nodes : list TreeNode) : list TreeNode :=
  flat_map all_nodes_of nodes.

(** The nodes of a tree are different objects. *)
Definition distinct_nodes (nodes : list TreeNode) : Prop :=
  NoDup (ref <$> all_nodes nodes).

(** The selected node, if there is one, has a row. *)
Definition selection_visible (nodes : list TreeNode) (st : State) : Prop :=
  match selectedNode st with
  | Some node => node ∈ (snd <$> visibleNodes nodes st)
  | None => True
  end.

End TreeView.

(** A tree of five nodes: a leaf, and a node with two children, the second
    of which has a child. *)
Definition tree_child_1_1 : TreeView.TreeNode :=
  TreeView.mkTreeNode 2 ["c"]%char None.
Definition tree_child_1_2 : TreeView.TreeNode :=
  TreeView.mkTreeNode 3 ["d"]%char
    (Some [TreeView.mkTreeNode 4 ["e"]%char None]).
Definition tree_example : list TreeView.TreeNode :=
  [TreeView.mkTreeNode 14 ["k"]%char None;
   TreeView.mkTreeNode 1 ["p"]%char (Some [tree_child_1_1; tree_child_1_2])].

(* ===================================================================== *)
(** * Part II: properties                                                 *)
(* ===================================================================== *)

(** ** Deterministic chunked loops *)

Section DeterministicForEach.
Context {A : Type}.
Implicit Types (range : list A) (N T t j : nat).

Lemma chunk_first_0 N T : chunk_first N T 0 = 0.
Proof. unfold chunk_first. simpl. lia. Qed.

Lemma chunk_first_last N T : 0 < T -> chunk_first N T T = N.
Proof.
  intros HT. unfold chunk_first.
  pose proof (Nat.div_mod_eq N T) as Hdm.
  pose proof (Nat.mod_upper_bound N T ltac:(lia)) as Hlt.
  rewrite Nat.min_r by lia. lia.
Qed.

Lemma chunk_first_step N T t :
  chunk_first N T (t + 1) = chunk_first N T t + N / T
  \/ chunk_first N T (t + 1) = chunk_first N T t + N / T + 1.
Proof. unfold chunk_first. lia. Qed.

Lemma chunk_first_mono N T t t' :
  t <= t' -> chunk_first N T t <= chunk_first N T t'.
Proof.
  intros Hle. unfold chunk_first.
  pose proof (Nat.mul_le_mono_r t t' (N / T) Hle). lia.
Qed.

Lemma chunk_first_le N T t : 0 < T -> t <= T -> chunk_first N T t <= N.
Proof.
  intros HT Hle. rewrite <- (chunk_first_last N T HT) at 2.
  by apply chunk_first_mono.
Qed.

(** The size of a chunk is the rounded-down or the rounded-up quotient. *)
Lemma chunk_size_floor_or_ceil N T t :
  0 < T -> t < T ->
  chunk_first N T (t + 1) - chunk_first N T t = N / T
  \/ chunk_first N T (t + 1) - chunk_first N T t = divide_up N T.
Proof.
  intros HT Hlt. unfold chunk_first, divide_up.
  pose proof (Nat.div_mod_eq N T) as Hdm.
  pose proof (Nat.mod_upper_bound N T ltac:(lia)) as Hr.
  destruct (decide (N mod T = 0)) as [H0|H0].
  - left. lia.
  - destruct (decide (t < N mod T)) as [Hs|Hs]; [right | left; lia].
    assert ((N + T - 1) / T = N / T + 1) as ->; [|lia].
    symmetry. apply Nat.div_unique with (r := N mod T - 1); lia.
Qed.

Lemma deterministic_for_each_range_unfold T range :
  deterministic_for_each_range T range
  = (fun t => (subrange range (chunk_first (length range) T t)
                              (chunk_first (length range) T (t + 1)), t))
    <$> seq 0 T.
Proof. reflexivity. Qed.

Lemma subrange_chunks_concat range T k :
  concat ((fun t => subrange range (chunk_first (length range) T t)
                                   (chunk_first (length range) T (t + 1)))
          <$> seq 0 k)
  = take (chunk_first (length range) T k) range.
Proof.
  induction k as [|k IH].
  - by rewrite chunk_first_0, take_0.
  - rewrite seq_S, fmap_app, concat_app, IH. simpl.
    rewrite app_nil_r. unfold subrange. rewrite take_take_drop.
    f_equal. replace (S k) with (k + 1) by lia.
    pose proof (chunk_first_mono (length range) T k (k + 1)). lia.
Qed.

Lemma filter_seq_all (P : nat -> Prop) `{!forall x, Decision (P x)} s n :
  (forall t, s <= t < s + n -> P t) -> filter P (seq s n) = seq s n.
Proof.
  revert s. induction n as [|n IH]; intros s HP; [done|].
  simpl. rewrite filter_cons_True by (apply HP; lia).
  f_equal. apply IH. intros t Ht. apply HP. lia.
Qed.

Lemma filter_seq_none (P : nat -> Prop) `{!forall x, Decision (P x)} s n :
  (forall t, s <= t < s + n -> ~ P t) -> filter P (seq s n) = [].
Proof.
  revert s. induction n as [|n IH]; intros s HP; [done|].
  simpl. rewrite filter_cons_False by (apply HP; lia).
  apply IH. intros t Ht. apply HP. lia.
Qed.

(** Every position of chunk [k] is handled by thread [k]. *)
Lemma thread_index_of_chunk N T k j :
  k < T -> chunk_first N T k <= j < chunk_first N T (k + 1) ->
  thread_index_of N T j = k.
Proof.
  intros Hk [Hlo Hhi]. unfold thread_index_of.
  replace T with (k + (T - k)) at 1 by lia.
  rewrite seq_app, filter_app, filter_seq_all, filter_seq_none.
  - rewrite app_nil_r, length_seq. done.
  - intros t Ht. pose proof (chunk_first_mono N T (k + 1) (t + 1)). lia.
  - intros t Ht. pose proof (chunk_first_mono N T (t + 1) k). lia.
Qed.

Lemma deterministic_calls_prefix range T k :
  0 < T -> k <= T ->
  concat ((fun t => (fun x => (x, t))
                    <$> subrange range (chunk_first (length range) T t)
                                       (chunk_first (length range) T (t + 1)))
          <$> seq 0 k)
  = zip (take (chunk_first (length range) T k) range)
        (thread_index_of (length range) T
         <$> seq 0 (chunk_first (length range) T k)).
Proof.
  intros HT. set (N := length range).
  induction k as [|k IH]; intros Hk.
  - by rewrite chunk_first_0, take_0.
  - rewrite seq_S, fmap_app, concat_app, IH by lia. simpl.
    rewrite app_nil_r. replace (S k) with (k + 1) by lia.
    pose proof (chunk_first_mono N T k (k + 1) ltac:(lia)) as Hmono.
    pose proof (chunk_first_le N T (k + 1) HT ltac:(lia)) as Hle.
    set (b := chunk_first N T k) in *.
    set (b' := chunk_first N T (k + 1)) in *.
    replace b' with (b + (b' - b)) at 2 3 by lia.
    rewrite <- take_take_drop, seq_app, fmap_app.
    rewrite zip_with_app
      by (rewrite length_take, length_fmap, length_seq; fold N; lia).
    f_equal. unfold subrange. simpl.
    assert (thread_index_of N T <$> seq b (b' - b) = replicate (b' - b) k)
      as ->.
    { symmetry. apply replicate_as_elem_of. split.
      - by rewrite length_fmap, length_seq.
      - intros y (j & -> & Hj%elem_of_seq)%list_elem_of_fmap.
        apply thread_index_of_chunk; [lia|]. fold b b'. lia. }
    rewrite zip_with_replicate_r; [done|].
    rewrite length_take. lia.
Qed.

End DeterministicForEach.

(** C8.  With [T > 0] threads, [deterministic_for_each] forks exactly [T]
    tasks; task [t] is given the number [t] and a contiguous piece of the
    range, the pieces follow each other and together are the whole range, each
    has [N / T] rounded down or rounded up elements, the task calls the
    function on every element of its piece with its own number, and the thread
    number given to the element at position [j] is [thread_index_of N T j],
    which depends on the length of the range and the number of threads
    only. *)
Theorem deterministic_for_each_chunks :
  forall (A : Type) (range : list A) (T : nat),
    0 < T ->
    let N := length range in
    let tasks := deterministic_for_each_range T range in
    length tasks = T
    /\ concat (fst <$> tasks) = range
    /\ (forall t sub t',
          tasks !! t = Some (sub, t') ->
          t' = t
          /\ sub = subrange range (chunk_first N T t) (chunk_first N T (t + 1))
          /\ (length sub = N / T \/ length sub = divide_up N T)
          /\ deterministic_for_each T range !! t
             = Some ((fun x => (x, t)) <$> sub))
    /\ concat (deterministic_for_each T range)
       = zip range (thread_index_of N T <$> seq 0 N).
Proof.
  intros A range T HT N tasks. subst tasks.
  rewrite deterministic_for_each_range_unfold. fold N.
  split; [by rewrite length_fmap, length_seq|].
  split.
  { rewrite <- list_fmap_compose.
    change (fst ∘ _) with
      (fun t => subrange range (chunk_first N T t) (chunk_first N T (t + 1))).
    subst N. rewrite subrange_chunks_concat, chunk_first_last by done.
    by rewrite firstn_all. }
  split.
  { intros t sub t' Hl.
    apply list_lookup_fmap_Some in Hl as (t0 & Heq & Hl).
    apply lookup_seq in Hl as [-> Hlt]. simpl in Heq.
    injection Heq as -> ->.
    split; [done|]. split; [done|]. split.
    - unfold subrange. rewrite length_take, length_drop. fold N.
      pose proof (chunk_size_floor_or_ceil N T t HT Hlt).
      pose proof (chunk_first_le N T (t + 1) HT ltac:(lia)). lia.
    - unfold deterministic_for_each.
      rewrite deterministic_for_each_range_unfold, list_lookup_fmap.
      rewrite list_lookup_fmap, lookup_seq_lt by done. done. }
  unfold deterministic_for_each.
  rewrite deterministic_for_each_range_unfold, <- list_fmap_compose.
  pose proof (deterministic_calls_prefix range T T HT ltac:(lia)) as Hp.
  fold N in Hp. rewrite chunk_first_last in Hp by done.
  subst N. rewrite firstn_all in Hp. exact Hp.
Qed.

Lemma deterministic_for_each_chunks_witness :
  0 < 4
  /\ concat (deterministic_for_each 4 [0;1;2;3;4;5;6;7;8;9])
     = zip [0;1;2;3;4;5;6;7;8;9]
           (thread_index_of 10 4 <$> seq 0 10).
Proof.
  split; [lia|].
  apply (deterministic_for_each_chunks nat [0;1;2;3;4;5;6;7;8;9] 4).
  lia.
Defined.

(** The unit test of [par::deterministic_for_each]: ten elements on four
    threads are distributed as 0,0,0,1,1,1,2,2,3,3. *)
Example deterministic_for_each_test :
  snd <$> concat (deterministic_for_each 4 [0;1;2;3;4;5;6;7;8;9])
  = [0;0;0;1;1;1;2;2;3;3].
Proof. reflexivity. Qed.

Example thread_index_of_test :
  thread_index_of 10 4 <$> seq 0 10 = [0;0;0;1;1;1;2;2;3;3].
Proof. vm_compute. reflexivity. Qed.

Example block_for_each_test :
  block_for_each 4 [[0;1];[2;3];[4;5];[6;7];[8;9]]
  = [[[0;1];[2;3];[4;5];[6;7]]; [[8;9]]].
Proof. reflexivity. Qed.

(** ** Block-wise loops *)

Section BlockForEach.
Context {A : Type}.
Implicit Types (range : list (list A)) (inner : list A).

Lemma block_for_each_chunks T range : block_for_each T range = chunk T range.
Proof.
  unfold block_for_each, ranges_for_each, for_each.
  rewrite <- (list_fmap_id (chunk T range)) at 2.
  apply list_fmap_ext. intros _ c _.
  rewrite <- (list_fmap_id c) at 2.
  apply list_fmap_ext. intros _ inner _. apply list_fmap_id.
Qed.

Lemma divide_up_spec n d k : 0 < d -> k < divide_up n d <-> k * d < n.
Proof.
  intros Hd. unfold divide_up.
  destruct n as [|n].
  - replace (0 + d - 1) with (d - 1) by lia.
    rewrite Nat.div_small by lia. lia.
  - replace (S n + d - 1) with (n + 1 * d) by lia.
    rewrite Nat.div_add by lia.
    pose proof (Nat.div_mod_eq n d) as Hdm.
    pose proof (Nat.mod_upper_bound n d ltac:(lia)) as Hr.
    split; intros Hk.
    + assert (k <= n / d) as Hle by lia.
      pose proof (Nat.mul_le_mono_r _ _ d Hle). lia.
    + destruct (decide (k <= n / d)) as [|Hgt]; [lia|].
      assert (n / d + 1 <= k) as Hle by lia.
      pose proof (Nat.mul_le_mono_r _ _ d Hle). lia.
Qed.

Lemma chunk_lookup {B} (l : list B) n k c :
  0 < n ->
  chunk n l !! k = Some c <-> c = take n (drop (k * n) l) /\ k * n < length l.
Proof.
  intros Hn. unfold chunk. rewrite list_lookup_fmap_Some. split.
  - intros (k' & -> & [-> Hlt]%lookup_seq). simpl in *.
    split; [done|]. by apply divide_up_spec in Hlt.
  - intros [-> Hlt]. exists k. split; [done|].
    apply lookup_seq. split; [done|]. by apply divide_up_spec.
Qed.

(** Element [j] of outer element [i] is the call at [block_event T i j]. *)
Lemma block_event_lookup T range i inner j x :
  0 < T -> range !! i = Some inner -> inner !! j = Some x ->
  event_at (block_for_each T range) (block_event T i j) = Some x.
Proof.
  intros HT Hi Hj. rewrite block_for_each_chunks.
  unfold event_at, block_event. simpl.
  pose proof (Nat.div_mod_eq i T) as Hdm.
  pose proof (Nat.mod_upper_bound i T ltac:(lia)) as Hr.
  pose proof (lookup_lt_Some _ _ _ Hi) as Hlen.
  assert (chunk T range !! (i / T)
          = Some (take T (drop (i / T * T) range))) as ->.
  { apply chunk_lookup; [done|]. split; [done|]. lia. }
  simpl. rewrite lookup_take_lt, lookup_drop by done.
  replace (i / T * T + i mod T) with i by lia.
  rewrite Hi. simpl. done.
Qed.

(** Every call of the schedule is such an element: nothing is visited twice
    and nothing else is visited. *)
Lemma block_event_complete T range e x :
  0 < T -> event_at (block_for_each T range) e = Some x ->
  exists i inner,
    e = block_event T i (ev_pos e)
    /\ range !! i = Some inner /\ inner !! ev_pos e = Some x.
Proof.
  intros HT. rewrite block_for_each_chunks.
  destruct e as [r t p]. unfold event_at, block_event. simpl. intros He.
  destruct (chunk T range !! r) as [c|] eqn:Hc; [|done].
  apply chunk_lookup in Hc as [-> Hlt]; [|done]. simpl in He.
  destruct (take T (drop (r * T) range) !! t) as [inner|] eqn:Ht; [|done].
  apply lookup_take_Some in Ht as [Ht HtT]. rewrite lookup_drop in Ht.
  simpl in He. exists (r * T + t), inner. split; [|done].
  f_equal.
  - rewrite Nat.div_add_l, Nat.div_small by lia. lia.
  - rewrite Nat.add_comm, Nat.Div0.mod_add. by rewrite Nat.mod_small.
Qed.

Lemma block_event_concurrent T i1 j1 i2 j2 :
  0 < T ->
  concurrent (block_event T i1 j1) (block_event T i2 j2) = true
  <-> i1 <> i2 /\ i1 / T = i2 / T.
Proof.
  intros HT. unfold concurrent, block_event. simpl.
  rewrite andb_true_iff, negb_true_iff, Nat.eqb_eq, Nat.eqb_neq.
  pose proof (Nat.div_mod_eq i1 T). pose proof (Nat.div_mod_eq i2 T).
  split; intros [H1 H2].
  - split; [|done]. intros ->. done.
  - split; [done|]. intros Hm. apply H1. rewrite H2, Hm in *. lia.
Qed.

End BlockForEach.

(** C5 (as amended).  With [T > 0] threads, [block_for_each] cuts the outer
    range into consecutive chunks of [T] outer elements and visits the chunks
    one after another; inside a chunk every outer element is a task of one
    parallel loop, and a task walks the inner elements of its outer element in
    order.  Hence element [j] of outer element [i] is call [j] of task [i mod T]
    of region [i / T], every call is such an element, and two calls may run at
    the same time exactly when they belong to different outer elements of the
    same chunk. *)
Theorem block_for_each_schedule :
  forall (A : Type) (T : nat) (range : list (list A)),
    0 < T ->
    block_for_each T range = chunk T range
    /\ (forall i inner j x,
          range !! i = Some inner -> inner !! j = Some x ->
          event_at (block_for_each T range) (block_event T i j) = Some x)
    /\ (forall e x,
          event_at (block_for_each T range) e = Some x ->
          exists i inner,
            e = block_event T i (ev_pos e)
            /\ range !! i = Some inner /\ inner !! ev_pos e = Some x)
    /\ (forall i1 j1 i2 j2,
          concurrent (block_event T i1 j1) (block_event T i2 j2) = true
          <-> i1 <> i2 /\ i1 / T = i2 / T).
Proof.
  intros A T range HT. split; [apply block_for_each_chunks|].
  split; [intros; by eapply block_event_lookup|].
  split; [intros; by eapply block_event_complete|].
  intros. by apply block_event_concurrent.
Qed.

Lemma block_for_each_schedule_witness :
  0 < 4
  /\ block_for_each 4 [[0;1];[2;3];[4;5];[6;7];[8;9]]
     = chunk 4 [[0;1];[2;3];[4;5];[6;7];[8;9]].
Proof.
  split; [lia|].
  apply (block_for_each_schedule nat 4 [[0;1];[2;3];[4;5];[6;7];[8;9]]).
  lia.
Defined.

(** C5 (as stated) fails.  On the data of the unit test with four threads,
    the first elements of the outer elements 0 and 1 are calls of two tasks of
    the same parallel region, so outer elements are not visited one at a time;
    and the two inner elements of outer element 0 are calls of one task, so
    they are not visited in parallel.  The schedule is not the described
    one. *)
Lemma block_for_each_outer_parallel_inner_sequential :
  let data := [[0;1];[2;3];[4;5];[6;7];[8;9]] in
  event_at (block_for_each 4 data) (block_event 4 0 0) = Some 0
  /\ event_at (block_for_each 4 data) (block_event 4 0 1) = Some 1
  /\ event_at (block_for_each 4 data) (block_event 4 1 0) = Some 2
  /\ concurrent (block_event 4 0 0) (block_event 4 1 0) = true
  /\ concurrent (block_event 4 0 0) (block_event 4 0 1) = false
  /\ block_for_each 4 data <> block_for_each_spec data.
Proof. repeat split; try reflexivity. discriminate. Qed.

(** ** Coarsening: the shape of the two mappings *)

Lemma filter_none {A} (P : A -> Prop) `{!forall x, Decision (P x)} (l : list A) :
  (forall x, x ∈ l -> ~ P x) -> filter P l = [].
Proof.
  induction l as [|y l IH]; intros HP; [done|].
  rewrite filter_cons_False by (apply HP; by left).
  apply IH. intros x Hx. apply HP. by right.
Qed.

Section Stairs.
Context {A : Type} (idf : A -> nat).
Implicit Types (l : list A) (m : nat).

Lemma stairs_bound l m x : stairs idf l m -> x ∈ l -> idf x < m.
Proof.
  induction 1 as [|l y m Hs IH Hy|l y m Hs IH Hy]; intros Hx.
  - by apply elem_of_nil in Hx.
  - apply elem_of_app in Hx as [Hx|Hx%list_elem_of_singleton];
      [by apply IH | subst; lia].
  - apply elem_of_app in Hx as [Hx|Hx%list_elem_of_singleton];
      [specialize (IH Hx); lia | subst; lia].
Qed.

Lemma stairs_top l k : stairs idf l (S k) -> exists x, x ∈ l /\ idf x = k.
Proof.
  inversion 1 as [|l0 y m Hs Hy|l0 y m Hs Hy]; subst;
    exists y; (split; [apply elem_of_app; right; by left | done]).
Qed.

Lemma stairs_0 l : stairs idf l 0 -> l = [].
Proof. by inversion 1. Qed.

Lemma stairs_length l m : stairs idf l m -> m <= length l.
Proof. induction 1; rewrite ?length_app; simpl in *; lia. Qed.

Lemma stairs_ext (idf' : A -> nat) l m :
  stairs idf l m -> (forall x, x ∈ l -> idf x = idf' x) -> stairs idf' l m.
Proof.
  induction 1 as [|l y m Hs IH Hy|l y m Hs IH Hy]; intros Hext.
  - constructor.
  - apply stairs_same.
    + apply IH. intros x Hx. apply Hext, elem_of_app. by left.
    + rewrite <- Hext; [done|]. apply elem_of_app. right. by left.
  - apply stairs_up.
    + apply IH. intros x Hx. apply Hext, elem_of_app. by left.
    + rewrite <- Hext; [done|]. apply elem_of_app. right. by left.
Qed.

Lemma filter_idf_snoc_ne l x c :
  idf x <> c ->
  filter (fun y => idf y = c) (l ++ [x]) = filter (fun y => idf y = c) l.
Proof.
  intros Hne. rewrite filter_app, filter_cons_False by done.
  by rewrite filter_nil, app_nil_r.
Qed.

Lemma filter_idf_snoc_eq l x c :
  idf x = c ->
  filter (fun y => idf y = c) (l ++ [x])
  = filter (fun y => idf y = c) l ++ [x].
Proof.
  intros Heq. rewrite filter_app, filter_cons_True by done.
  by rewrite filter_nil.
Qed.

Lemma stairs_top_filter l k :
  stairs idf l (S k) ->
  exists y r, filter (fun x => idf x = k) l = y :: r /\ y ∈ l /\ idf y = k.
Proof.
  intros (x & Hx & Hk)%stairs_top.
  destruct (filter (fun x => idf x = k) l) as [|y r] eqn:Hf.
  - exfalso. eapply (filter_nil_not_elem_of _ _ x); eauto.
  - exists y, r. split; [done|].
    assert (y ∈ filter (fun x => idf x = k) l) as Hy by (rewrite Hf; by left).
    by apply list_elem_of_filter in Hy as [? ?].
Qed.

(** The runs of a staircase are its level sets, in increasing order. *)
Lemma equality_ranges_fold_stairs {K} `{EqDecision K} (proj : A -> K) l m :
  stairs idf l m ->
  (forall x y, x ∈ l -> y ∈ l -> proj x = proj y <-> idf x = idf y) ->
  fold_left (equality_ranges_step proj) l ([], [])
  = match m with
    | 0 => ([], [])
    | S k => ((fun c => filter (fun x => idf x = c) l) <$> seq 0 k,
              filter (fun x => idf x = k) l)
    end.
Proof.
  induction 1 as [|l x m Hs IH Hx|l x m Hs IH Hx]; intros Hproj.
  - done.
  - rewrite fold_left_app, IH; clear IH.
    2:{ intros y z Hy Hz. apply Hproj; apply elem_of_app; by left. }
    destruct (stairs_top_filter l m Hs) as (y & r & Hf & Hy & Hym).
    cbn [fold_left]. unfold equality_ranges_step. rewrite Hf, decide_True.
    2:{ apply Hproj; [apply elem_of_app; by left | |congruence].
        apply elem_of_app. right. by left. }
    f_equal.
    + apply list_fmap_ext. intros i c [-> Hc]%lookup_seq.
      rewrite filter_idf_snoc_ne; [done|lia].
    + by rewrite filter_idf_snoc_eq, Hf.
  - rewrite fold_left_app, IH; clear IH.
    2:{ intros y z Hy Hz. apply Hproj; apply elem_of_app; by left. }
    destruct m as [|k].
    + apply stairs_0 in Hs as ->. simpl.
      by rewrite filter_cons_True, filter_nil.
    + destruct (stairs_top_filter l k Hs) as (y & r & Hf & Hy & Hyk).
      cbn [fold_left]. unfold equality_ranges_step. rewrite Hf, decide_False.
      2:{ intros Heq. apply Hproj in Heq; [lia| |].
          - apply elem_of_app. by left.
          - apply elem_of_app. right. by left. }
      f_equal.
      * rewrite seq_S, fmap_app. simpl. f_equal.
        -- apply list_fmap_ext. intros i c [-> Hc]%lookup_seq.
           rewrite filter_idf_snoc_ne; [done|lia].
        -- rewrite filter_idf_snoc_ne, Hf; [done|lia].
      * rewrite filter_idf_snoc_eq by done.
        replace (filter (fun y0 => idf y0 = S k) l) with (@nil A); [done|].
        symmetry. apply filter_none.
        intros z Hz%(stairs_bound _ _ _ Hs). lia.
Qed.

Lemma equality_ranges_stairs {K} `{EqDecision K} (proj : A -> K) l m :
  stairs idf l m ->
  (forall x y, x ∈ l -> y ∈ l -> proj x = proj y <-> idf x = idf y) ->
  equality_ranges proj l = (fun c => filter (fun x => idf x = c) l) <$> seq 0 m.
Proof.
  intros Hs Hproj. unfold equality_ranges.
  rewrite (equality_ranges_fold_stairs proj l m Hs Hproj).
  destruct m as [|k]; [done|].
  destruct (stairs_top_filter l k Hs) as (y & r & Hf & _).
  unfold equality_ranges_close. cbn [fst snd]. rewrite Hf, seq_S, fmap_app.
  simpl. by rewrite Hf.
Qed.

End Stairs.

Section CoarsenInvariant.
Implicit Types (st : CoarsenState) (f2c : list (option nat)) (n m a : nat).

Lemma is_mapped_false f2c a :
  is_mapped f2c a = false <-> f2c !! a = Some None.
Proof.
  unfold is_mapped. rewrite negb_false_iff. apply bool_decide_eq_true.
Qed.

Lemma is_mapped_true_lt f2c a :
  is_mapped f2c a = true -> a < length f2c -> exists c, f2c !! a = Some (Some c).
Proof.
  intros Hm Hlt. apply lookup_lt_is_Some_2 in Hlt as [[c|] Hc]; [by exists c|].
  apply is_mapped_false in Hc. congruence.
Qed.

Lemma coarse_of_mapped f2c a c : f2c !! a = Some (Some c) -> coarse_of f2c a = c.
Proof. unfold coarse_of. by intros ->. Qed.

Lemma coarsen_inv_init n : coarsen_inv n (coarsen_init n) 0.
Proof.
  split; simpl.
  - apply length_replicate.
  - constructor.
  - intros a. split; [by intros ?%elem_of_nil|].
    intros [c [Hc _]%lookup_replicate]. done.
  - constructor.
Qed.

Lemma coarsen_inv_unmapped n st m a :
  coarsen_inv n st m -> is_mapped (fine_to_coarse st) a = false ->
  a < n /\ a ∉ coarse_to_fine st.
Proof.
  intros [Hlen _ Hmap _] Hun%is_mapped_false. split.
  - rewrite <- Hlen. by eapply lookup_lt_Some.
  - intros [c Hc]%Hmap. congruence.
Qed.

(** Mapping an unmapped node keeps the invariant; the node opens a new coarse
    node when [coarse_node] is fresh, and joins the last one otherwise. *)
Lemma coarsen_inv_map n st m a :
  coarsen_inv n st m -> is_mapped (fine_to_coarse st) a = false ->
  coarsen_inv n (map_to_coarse st a)
              (if decide (coarse_node st = m) then S m else m)
  \/ (coarse_node st <> m /\ S (coarse_node st) <> m).
Proof.
  intros Hinv Hun.
  destruct (coarsen_inv_unmapped _ _ _ _ Hinv Hun) as [Hlt Hnin].
  destruct Hinv as [Hlen Hnd Hmap Hst].
  destruct (decide (coarse_node st = m)) as [Hcn|Hcn];
    [left|destruct (decide (S (coarse_node st) = m)) as [Hcn'|Hcn'];
          [left|by right]].
  all: split; simpl.
  all: try (by rewrite length_insert).
  all: try (apply NoDup_app; split; [done|]; split;
            [by intros x Hx ->%list_elem_of_singleton | apply NoDup_singleton]).
  all: try (intros x; rewrite elem_of_app, list_elem_of_singleton;
            destruct (decide (a = x)) as [->|Hne];
            [rewrite list_lookup_insert_eq by lia; split; eauto
            |rewrite list_lookup_insert_ne by done; rewrite Hmap;
             split; [intros [?|?]; [done|congruence] | by left]]).
  - apply stairs_up.
    + eapply stairs_ext; [done|]. intros x Hx. unfold coarse_of.
      rewrite list_lookup_insert_ne; [done|]. by intros ->.
    + apply coarse_of_mapped. rewrite list_lookup_insert_eq by lia.
      by rewrite Hcn.
  - subst m. apply stairs_same.
    + eapply stairs_ext; [done|]. intros x Hx. unfold coarse_of.
      rewrite list_lookup_insert_ne; [done|]. by intros ->.
    + apply coarse_of_mapped. by rewrite list_lookup_insert_eq by lia.
Qed.

Lemma coarsen_inv_map_fresh n st a :
  coarsen_inv n st (coarse_node st) ->
  is_mapped (fine_to_coarse st) a = false ->
  coarsen_inv n (map_to_coarse st a) (S (coarse_node st)).
Proof.
  intros Hinv Hun.
  destruct (coarsen_inv_map _ _ _ _ Hinv Hun) as [H|[H _]]; [|done].
  by rewrite decide_True in H.
Qed.

Lemma coarsen_inv_map_open n st a :
  coarsen_inv n st (S (coarse_node st)) ->
  is_mapped (fine_to_coarse st) a = false ->
  coarsen_inv n (map_to_coarse st a) (S (coarse_node st)).
Proof.
  intros Hinv Hun.
  destruct (coarsen_inv_map _ _ _ _ Hinv Hun) as [H|[_ H]]; [|done].
  rewrite decide_False in H; [done|lia].
Qed.

Lemma coarsen_inv_next n st m :
  coarsen_inv n st m -> coarsen_inv n (next_coarse_node st) m.
Proof. by intros [? ? ? ?]. Qed.

Lemma coarsen_inv_mapped_in n st m a :
  coarsen_inv n st m -> a < n -> is_mapped (fine_to_coarse st) a = true ->
  a ∈ coarse_to_fine st.
Proof.
  intros Hinv Hlt Hm. apply (inv_mapped _ _ _ Hinv).
  apply is_mapped_true_lt; [done|]. by rewrite (inv_length _ _ _ Hinv).
Qed.

End CoarsenInvariant.

Section CoarsenLoops.
Variable randomized_hash : list nat -> nat.
Variable rng : nat -> nat -> bool.
Variable weight_npos : nat.
Implicit Types (st : CoarsenState) (g : list (nat * list (nat * nat))).

(** *** GEM *)

Lemma gem_edge_step_inv n st a b w :
  a <> b -> coarsen_inv n st (coarse_node st) ->
  let st' := gem_edge_step st (a, b, w) in
  coarsen_inv n st' (coarse_node st')
  /\ (forall x, x ∈ coarse_to_fine st -> x ∈ coarse_to_fine st').
Proof.
  intros Hab Hinv. unfold gem_edge_step.
  destruct (is_mapped (fine_to_coarse st) a) eqn:Ha; [done|].
  destruct (is_mapped (fine_to_coarse st) b) eqn:Hb; [done|].
  assert (mkCoarsenState
            (<[b := Some (coarse_node st)]>
               (<[a := Some (coarse_node st)]> (fine_to_coarse st)))
            (coarse_to_fine st ++ [a] ++ [b]) (coarse_node st)
          = map_to_coarse (map_to_coarse st a) b) as ->.
  { unfold map_to_coarse. simpl. by rewrite <- app_assoc. }
  pose proof (coarsen_inv_map_fresh _ _ _ Hinv Ha) as Hinv1.
  assert (is_mapped (fine_to_coarse (map_to_coarse st a)) b = false) as Hb1.
  { apply is_mapped_false. simpl.
    rewrite list_lookup_insert_ne by done. by apply is_mapped_false. }
  pose proof (coarsen_inv_map_open _ (map_to_coarse st a) b Hinv1 Hb1) as Hinv2.
  split.
  - by apply coarsen_inv_next.
  - simpl. intros x Hx. rewrite !elem_of_app. by left; left.
Qed.

Lemma gem_node_step_inv n st a :
  coarsen_inv n st (coarse_node st) ->
  let st' := gem_node_step st a in
  coarsen_inv n st' (coarse_node st')
  /\ (forall x, x ∈ coarse_to_fine st -> x ∈ coarse_to_fine st')
  /\ (a < n -> a ∈ coarse_to_fine st').
Proof.
  intros Hinv. unfold gem_node_step.
  destruct (is_mapped (fine_to_coarse st) a) eqn:Ha.
  - split; [done|]. split; [done|]. intros Hlt.
    by eapply coarsen_inv_mapped_in.
  - pose proof (coarsen_inv_map_fresh _ _ _ Hinv Ha) as Hinv1.
    split; [by apply coarsen_inv_next|]. simpl.
    split; intros; apply elem_of_app; [by left | right; by left].
Qed.

Lemma gem_edges_loop_inv n edges st :
  Forall (fun we : nat * nat * nat => we.1.1 <> we.1.2) edges ->
  coarsen_inv n st (coarse_node st) ->
  let st' := fold_left gem_edge_step edges st in
  coarsen_inv n st' (coarse_node st').
Proof.
  revert st. induction edges as [|[[a b] w] edges IH]; intros st Hne Hinv;
    [done|].
  apply Forall_cons in Hne as [Hab Hne]. simpl in Hab.
  cbn [fold_left]. apply IH; [done|].
  by apply (gem_edge_step_inv n st a b w Hab Hinv).
Qed.

Lemma gem_nodes_loop_inv n l st :
  coarsen_inv n st (coarse_node st) ->
  let st' := fold_left gem_node_step l st in
  coarsen_inv n st' (coarse_node st')
  /\ (forall x, x ∈ coarse_to_fine st -> x ∈ coarse_to_fine st')
  /\ (forall a, a ∈ l -> a < n -> a ∈ coarse_to_fine st').
Proof.
  revert st. induction l as [|a l IH]; intros st Hinv.
  - split; [done|]. split; [done|]. by intros a ?%elem_of_nil.
  - simpl.
    destruct (gem_node_step_inv n st a Hinv) as (Hinv1 & Hmono1 & Ha).
    destruct (IH _ Hinv1) as (Hinv2 & Hmono2 & Hl).
    split; [done|]. split; [by auto|].
    intros x [->|Hx]%elem_of_cons Hlt; [by auto|by auto].
Qed.

Lemma wedges_ordered g a b w : (a, b, w) ∈ wedges g -> a < b.
Proof.
  unfold wedges. rewrite list_elem_of_In, in_concat.
  intros (l & Hl%list_elem_of_In & Hin%list_elem_of_In).
  apply list_elem_of_fmap in Hl as (a' & -> & _).
  apply list_elem_of_fmap in Hin as ([b' w'] & Heq & Hf).
  apply list_elem_of_filter in Hf as [Hlt _]. simpl in Hlt.
  by injection Heq as -> -> ->.
Qed.

Lemma gem_matching_of_inv g edges :
  Forall (fun we : nat * nat * nat => we.1.1 <> we.1.2) edges ->
  let st := gem_matching_of g edges in
  coarsen_inv (num_nodes g) st (coarse_node st)
  /\ (forall a, a < num_nodes g -> a ∈ coarse_to_fine st).
Proof.
  intros Hne. unfold gem_matching_of.
  pose proof (gem_edges_loop_inv (num_nodes g) edges _ Hne
                (coarsen_inv_init (num_nodes g))) as Hinv1.
  destruct (gem_nodes_loop_inv (num_nodes g) (nodes g) _ Hinv1)
    as (Hinv2 & _ & Hall).
  split; [done|]. intros a Ha. apply Hall; [|done].
  unfold nodes. apply elem_of_seq. lia.
Qed.

Lemma gem_matching_inv g :
  let st := gem_matching randomized_hash g in
  coarsen_inv (num_nodes g) st (coarse_node st)
  /\ (forall a, a < num_nodes g -> a ∈ coarse_to_fine st).
Proof.
  apply gem_matching_of_inv. apply Forall_forall. intros [[a b] w] Hin.
  unfold gem_order, par_sort in Hin.
  rewrite merge_sort_Permutation in Hin.
  apply wedges_ordered in Hin. simpl. lia.
Qed.

(** *** HEM *)

Lemma hem_best_unmapped g f2c ws acc b w d :
  fold_left (hem_best_step rng weight_npos g f2c) ws acc = (Some b, w, d) ->
  (forall b0, acc.1.1 = Some b0 -> is_mapped f2c b0 = false) ->
  is_mapped f2c b = false.
Proof.
  revert acc. induction ws as [|[nb ew] ws IH]; intros acc Hfold Hacc.
  - simpl in Hfold. apply Hacc. by rewrite Hfold.
  - simpl in Hfold. apply IH in Hfold; [done|].
    destruct acc as [[best bw] dr]. simpl in *.
    destruct (is_mapped f2c nb) eqn:Hnb; [done|].
    destruct (greater_or _ _ _); simpl; [|done].
    intros b0 [= <-]. done.
Qed.

Lemma hem_step_inv g st draws a :
  let n := num_nodes g in
  coarsen_inv n st (coarse_node st) \/ coarsen_inv n st (S (coarse_node st)) ->
  let st' := (hem_step rng weight_npos g (st, draws) a).1 in
  (coarsen_inv n st' (coarse_node st')
   \/ coarsen_inv n st' (S (coarse_node st')))
  /\ (forall x, x ∈ coarse_to_fine st -> x ∈ coarse_to_fine st')
  /\ (a < n -> a ∈ coarse_to_fine st').
Proof.
  intros n Hinv. unfold hem_step.
  destruct (is_mapped (fine_to_coarse st) a) eqn:Ha.
  - simpl. split; [done|]. split; [done|]. intros Hlt.
    destruct Hinv as [Hinv|Hinv]; by eapply coarsen_inv_mapped_in.
  - assert (coarsen_inv n (map_to_coarse st a) (S (coarse_node st))) as Hinv1.
    { destruct Hinv as [Hinv|Hinv];
        [by apply coarsen_inv_map_fresh | by apply coarsen_inv_map_open]. }
    apply coarsen_inv_next in Hinv1.
    set (st2 := next_coarse_node (map_to_coarse st a)) in *.
    assert (a ∈ coarse_to_fine st2) as Hain.
    { simpl. apply elem_of_app. right. by left. }
    assert (forall x, x ∈ coarse_to_fine st -> x ∈ coarse_to_fine st2) as Hmono.
    { simpl. intros x Hx. apply elem_of_app. by left. }
    destruct (fold_left _ _ _) as [[best bw] draws'] eqn:Hfold.
    destruct best as [b|]; simpl.
    + apply hem_best_unmapped in Hfold; [|by intros b0 [=]].
      split; [right|].
      * by apply (coarsen_inv_map_fresh n st2 b).
      * split; intros; apply elem_of_app; left; auto.
    + split; [by left|]. split; auto.
Qed.

Lemma hem_loop_inv g l st draws :
  let n := num_nodes g in
  coarsen_inv n st (coarse_node st) \/ coarsen_inv n st (S (coarse_node st)) ->
  let st' := (fold_left (hem_step rng weight_npos g) l (st, draws)).1 in
  (coarsen_inv n st' (coarse_node st')
   \/ coarsen_inv n st' (S (coarse_node st')))
  /\ (forall x, x ∈ coarse_to_fine st -> x ∈ coarse_to_fine st')
  /\ (forall a, a ∈ l -> a < n -> a ∈ coarse_to_fine st').
Proof.
  intros n. revert st draws. induction l as [|a l IH]; intros st draws Hinv.
  - split; [done|]. split; [done|]. by intros a ?%elem_of_nil.
  - cbn [fold_left].
    pose proof (hem_step_inv g st draws a Hinv) as Hstep.
    destruct (hem_step rng weight_npos g (st, draws) a) as [st1 draws1].
    cbn [fst] in Hstep. destruct Hstep as (Hinv1 & Hmono1 & Ha).
    destruct (IH st1 draws1 Hinv1) as (Hinv2 & Hmono2 & Hl).
    split; [done|]. split; [by auto|].
    intros x [->|Hx]%elem_of_cons Hlt; by auto.
Qed.

Lemma hem_matching_inv g :
  let st := hem_matching randomized_hash rng weight_npos g in
  exists m,
    coarsen_inv (num_nodes g) st m
    /\ (forall a, a < num_nodes g -> a ∈ coarse_to_fine st).
Proof.
  unfold hem_matching.
  destruct (hem_loop_inv g (hem_order randomized_hash g)
              (coarsen_init (num_nodes g)) 0) as (Hinv & _ & Hall).
  { left. apply coarsen_inv_init. }
  set (st := (fold_left _ _ _).1) in *.
  assert (forall a, a < num_nodes g -> a ∈ coarse_to_fine st) as Hall'.
  { intros a Ha. apply Hall; [|done]. unfold hem_order, par_sort.
    rewrite merge_sort_Permutation. unfold nodes. apply elem_of_seq. lia. }
  destruct Hinv as [Hinv|Hinv]; eauto.
Qed.

End CoarsenLoops.

Section CoarseningConsistent.
Implicit Types (st : CoarsenState) (g : list (nat * list (nat * nat))).

Lemma build_coarse_graph_num_nodes g c2f f2c :
  num_nodes (build_coarse_graph g c2f f2c)
  = length (equality_ranges (fun fn => f2c !! fn) c2f).
Proof.
  unfold build_coarse_graph.
  generalize (equality_ranges (fun fn => f2c !! fn) c2f). intros rs.
  change (length rs) with (num_nodes [] + length rs).
  generalize (@nil (nat * list (nat * nat))). induction rs as [|r rs IH];
    intros acc; simpl.
  - unfold num_nodes. lia.
  - rewrite IH. destruct (fold_left _ r _) as [cw cn].
    unfold append_node, num_nodes. rewrite length_app. simpl. lia.
Qed.

Lemma coarsen_inv_ranges n st m :
  coarsen_inv n st m ->
  equality_ranges (fun fn => fine_to_coarse st !! fn) (coarse_to_fine st)
  = (fun c => filter (fun x => coarse_of (fine_to_coarse st) x = c)
                     (coarse_to_fine st))
    <$> seq 0 m.
Proof.
  intros [Hlen Hnd Hmap Hst]. apply equality_ranges_stairs; [done|].
  intros x y [cx Hx]%Hmap [cy Hy]%Hmap.
  rewrite (coarse_of_mapped _ _ _ Hx), (coarse_of_mapped _ _ _ Hy), Hx, Hy.
  split; congruence.
Qed.

Lemma coarsen_inv_max n st m :
  coarsen_inv n st m -> 0 < m -> max_coarse (fine_to_coarse st) + 1 = m.
Proof.
  intros [Hlen Hnd Hmap Hst] Hm. unfold max_coarse.
  destruct m as [|k]; [lia|].
  destruct (stairs_top _ _ _ Hst) as (x & Hx & Hk).
  apply Hmap in Hx as [c Hc].
  rewrite (coarse_of_mapped _ _ _ Hc) in Hk. subst c.
  assert (k ∈ omap id (fine_to_coarse st)) as Hin.
  { apply list_elem_of_omap. exists (Some k). split; [|done].
    by eapply list_elem_of_lookup_2. }
  pose proof (max_list_elem_of_le _ _ Hin) as Hge.
  assert (max_list (omap id (fine_to_coarse st)) < S k); [|lia].
  assert (omap id (fine_to_coarse st) <> []) as Hne
    by (intros Heq; rewrite Heq in Hin; by apply elem_of_nil in Hin).
  apply max_list_elem_of in Hne.
  apply list_elem_of_omap in Hne as (o & Ho & Hid). simpl in Hid. subst o.
  apply list_elem_of_lookup in Ho as [i Hi].
  assert (i ∈ coarse_to_fine st) as Hic by (apply Hmap; eauto).
  apply (stairs_bound _ _ _ _ Hst) in Hic.
  by rewrite (coarse_of_mapped _ _ _ Hi) in Hic.
Qed.

Lemma coarsen_inv_consistent g st m :
  coarsen_inv (num_nodes g) st m ->
  (forall a, a < num_nodes g -> a ∈ coarse_to_fine st) ->
  coarsening_consistent g
    (build_coarse_graph g (coarse_to_fine st) (fine_to_coarse st),
     coarse_to_fine st, fine_to_coarse st).
Proof.
  intros Hinv Hall. unfold coarsening_consistent.
  pose proof (coarsen_inv_ranges _ _ _ Hinv) as Hranges.
  pose proof (coarsen_inv_max _ _ _ Hinv) as Hmax.
  destruct Hinv as [Hlen Hnd Hmap Hst].
  split; [done|]. split; [by intros i Hi%Hall%Hmap|]. split.
  - intros Hn. rewrite build_coarse_graph_num_nodes, Hranges.
    rewrite length_fmap, length_seq.
    apply Hmax.
    destruct m; [|lia]. apply stairs_0 in Hst.
    specialize (Hall 0 Hn). rewrite Hst in Hall. by apply elem_of_nil in Hall.
  - intros i c Hc. rewrite Hranges.
    assert (i ∈ coarse_to_fine st) as Hic by (apply Hmap; eauto).
    pose proof (stairs_bound _ _ _ _ Hst Hic) as Hlt.
    rewrite (coarse_of_mapped _ _ _ Hc) in Hlt.
    eexists. split.
    + rewrite list_lookup_fmap, lookup_seq_lt by done. simpl. done.
    + apply list_elem_of_filter. split; [|done]. by apply coarse_of_mapped.
Qed.

(** The coarse graph has at most as many nodes as the fine one. *)
Lemma coarsen_inv_num_nodes n st m g :
  coarsen_inv n st m ->
  num_nodes (build_coarse_graph g (coarse_to_fine st) (fine_to_coarse st)) <= n.
Proof.
  intros Hinv. rewrite build_coarse_graph_num_nodes.
  rewrite (coarsen_inv_ranges _ _ _ Hinv), length_fmap, length_seq.
  destruct Hinv as [Hlen Hnd Hmap Hst].
  pose proof (stairs_length _ _ _ Hst) as Hm.
  assert (length (coarse_to_fine st) <= length (seq 0 n)) as Hle.
  { apply submseteq_length, NoDup_submseteq; [done|].
    intros a [c Hc]%Hmap. apply elem_of_seq.
    apply lookup_lt_Some in Hc. lia. }
  rewrite length_seq in Hle. lia.
Qed.

End CoarseningConsistent.

(** C9.  For every graph, every hash and every sequence of tie-breaking bits,
    the mappings produced by HEM and by GEM are consistent: every fine node
    has a coarse index, the largest coarse index plus one is the number of
    nodes of the coarse graph, and fine node [i] is in the run of
    [coarse_to_fine] from which coarse node [fine_to_coarse[i]] was built. *)
Theorem coarsen_mappings_consistent :
  forall (randomized_hash : list nat -> nat) (rng : nat -> nat -> bool)
         (weight_npos : nat) (fine_graph : list (nat * list (nat * nat))),
    coarsening_consistent fine_graph
      (CoarsenHEM randomized_hash rng weight_npos fine_graph)
    /\ coarsening_consistent fine_graph
         (CoarsenGEM randomized_hash fine_graph).
Proof.
  intros randomized_hash rng weight_npos g. split.
  - unfold CoarsenHEM.
    destruct (hem_matching_inv randomized_hash rng weight_npos g)
      as (m & Hinv & Hall).
    by eapply coarsen_inv_consistent.
  - unfold CoarsenGEM.
    destruct (gem_matching_inv randomized_hash g) as (Hinv & Hall).
    by eapply coarsen_inv_consistent.
Qed.

Lemma CoarsenGEM_num_nodes randomized_hash g :
  num_nodes (CoarsenGEM randomized_hash g).1.1 <= num_nodes g.
Proof.
  unfold CoarsenGEM. simpl.
  destruct (gem_matching_inv randomized_hash g) as (Hinv & _).
  by eapply coarsen_inv_num_nodes.
Qed.

(** The unit behaviour of the two coarseners on a path of four nodes, with a
    hash under which no two keys of a sort are equal. *)
Example CoarsenGEM_path4 :
  CoarsenGEM index_hash path4
  = ([(2, [(0, 2); (1, 1)]); (2, [(0, 1); (1, 2)])],
     [2; 3; 0; 1], [Some 1; Some 1; Some 0; Some 0]).
Proof. vm_compute. reflexivity. Qed.

Example CoarsenHEM_path4 :
  (CoarsenHEM index_hash (fun _ _ => false) 0 path4).2
  = [Some 0; Some 1; Some 1; Some 2].
Proof. vm_compute. reflexivity. Qed.

(** ** GEM: the order of the edges *)

(** An edge is merged exactly when both of its end points are unmapped, and
    then both receive the running coarse node. *)
Lemma gem_edge_step_merges st a b w :
  a <> b -> a < length (fine_to_coarse st) -> b < length (fine_to_coarse st) ->
  let st' := gem_edge_step st (a, b, w) in
  if negb (is_mapped (fine_to_coarse st) a)
     && negb (is_mapped (fine_to_coarse st) b)
  then fine_to_coarse st' !! a = Some (Some (coarse_node st))
       /\ fine_to_coarse st' !! b = Some (Some (coarse_node st))
       /\ coarse_to_fine st' = coarse_to_fine st ++ [a; b]
       /\ coarse_node st' = S (coarse_node st)
  else st' = st.
Proof.
  intros Hab Ha Hb. unfold gem_edge_step.
  destruct (is_mapped (fine_to_coarse st) a); [done|].
  destruct (is_mapped (fine_to_coarse st) b); [done|]. simpl.
  rewrite list_lookup_insert_ne, !list_lookup_insert_eq
    by (rewrite ?length_insert; done). done.
Qed.

(** C6.  On the path 0 - 1 - 2 with node weights 1, 5, 9 and equal edge
    weights, whatever the hash, GEM visits the edge (1, 2), whose lighter end
    weighs 5, before the edge (0, 1), whose lighter end weighs 1, and merges
    nodes 1 and 2; with the smaller end point weight first, as described, it
    would visit (0, 1) first and merge nodes 0 and 1. *)
Theorem gem_order_equal_weights_heavier_nodes_first :
  forall randomized_hash : list nat -> nat,
    gem_order randomized_hash gem_tie_graph = [(1, 2, 1); (0, 1, 1)]
    /\ fine_to_coarse (gem_matching randomized_hash gem_tie_graph)
       = [Some 1; Some 0; Some 0]
    /\ gem_order_spec randomized_hash gem_tie_graph = [(0, 1, 1); (1, 2, 1)]
    /\ fine_to_coarse
         (gem_matching_of gem_tie_graph
            (gem_order_spec randomized_hash gem_tie_graph))
       = [Some 0; Some 0; Some 1].
Proof.
  intros randomized_hash.
  assert (gem_order randomized_hash gem_tie_graph = [(1, 2, 1); (0, 1, 1)])
    as Hcode by (vm_compute; reflexivity).
  assert (gem_order_spec randomized_hash gem_tie_graph
          = [(0, 1, 1); (1, 2, 1)]) as Hspec by (vm_compute; reflexivity).
  split; [done|]. split.
  - unfold gem_matching. rewrite Hcode. vm_compute. reflexivity.
  - split; [done|]. rewrite Hspec. vm_compute. reflexivity.
Qed.

(** ** The multilevel partitioner *)

Lemma size_t_wrap_small z : (0 <= z < 2 ^ 64)%Z -> size_t_wrap z = z.
Proof. intros Hz. unfold size_t_wrap. by apply Z.mod_small. Qed.

(** Without overflow the test of the source is the comparison of the
    products. *)
Lemma stop_coarsening_nowrap nc nf K :
  (Z.of_nat nf * 10 < 2 ^ 64)%Z -> (15 * Z.of_nat K < 2 ^ 64)%Z -> nc <= nf ->
  stop_coarsening nc nf K = true <-> nc <= 15 * K \/ nf * 8 <= nc * 10.
Proof.
  intros Hnf HK Hle. unfold stop_coarsening.
  rewrite !size_t_wrap_small by lia.
  rewrite orb_true_iff, !Z.leb_le. lia.
Qed.

(** The quotient of the node counts, as a rational number. *)
Lemma node_ratio_ge_8_10 nc nf :
  0 < nf ->
  (8 # 10 <= inject_Z (Z.of_nat nc) / inject_Z (Z.of_nat nf))%Q
  <-> nf * 8 <= nc * 10.
Proof.
  intros Hnf. destruct nf as [|nf]; [lia|].
  unfold Qle, Qdiv, Qmult, Qinv, inject_Z. simpl. lia.
Qed.

(** [std::ranges::copy] keeps the length of the range it writes to, writes
    the source over its front and leaves the rest. *)
Lemma length_ranges_copy {A} (src dst : list A) :
  length (ranges_copy src dst) = length dst.
Proof.
  unfold ranges_copy. rewrite length_take, length_app, length_drop. lia.
Qed.

Lemma ranges_copy_lookup_src {A} (src dst : list A) i x :
  i < length dst -> src !! i = Some x -> ranges_copy src dst !! i = Some x.
Proof.
  intros Hi Hx. unfold ranges_copy.
  rewrite lookup_take_lt by done. by apply lookup_app_l_Some.
Qed.

Lemma ranges_copy_lookup_dst {A} (src dst : list A) i :
  length src <= i -> ranges_copy src dst !! i = dst !! i.
Proof.
  intros Hi. unfold ranges_copy.
  destruct (decide (i < length dst)) as [Hlt|Hge].
  - rewrite lookup_take_lt by done. rewrite lookup_app_r by done.
    rewrite lookup_drop. f_equal. lia.
  - rewrite lookup_take_ge by lia. symmetry. apply lookup_ge_None. lia.
Qed.

(** The projection of the coarse parts through [fine_to_coarse]. *)
Lemma permuted_view_lookup coarse_parts (fine_to_coarse : list (option nat))
    i c p :
  fine_to_coarse !! i = Some (Some c) -> coarse_parts !! c = Some p ->
  permuted_view coarse_parts fine_to_coarse !! i = Some p.
Proof.
  intros Hi Hc. unfold permuted_view.
  rewrite list_lookup_fmap, Hi. simpl. by rewrite Hc.
Qed.

Section MultilevelProofs.
Context {Graph : Type}.
Variable graph_num_nodes : Graph -> nat.
Variable partition_coarsest : Graph -> list nat -> nat -> list nat.
Variable coarsen : Graph -> Graph * list nat * list (option nat).
Variable refine : Graph -> list nat -> nat -> list nat.

(** The coarsener does not add nodes. *)
Hypothesis coarsen_le :
  forall g, graph_num_nodes (coarsen g).1.1 <= graph_num_nodes g.

Local Abbreviation rec :=
  (multilevel_rec graph_num_nodes partition_coarsest coarsen refine).

Lemma multilevel_rec_more_fuel K fuel fuel' g parts r :
  rec K fuel g parts = Some r -> fuel <= fuel' -> rec K fuel' g parts = Some r.
Proof.
  revert fuel' g parts r. induction fuel as [|fuel IH];
    intros fuel' g parts r Hr Hle; [done|].
  destruct fuel' as [|fuel']; [lia|]. simpl in *.
  destruct (negb _); [done|].
  destruct (coarsen g) as [[cg c2f] f2c].
  destruct (stop_coarsening _ _ _); [done|].
  destruct (rec K fuel cg _) as [cp|] eqn:Hcp; [|done].
  by rewrite (IH fuel' _ _ _ Hcp) by lia.
Qed.

(** A level that does not stop has fewer nodes than the one before. *)
Lemma stop_coarsening_false_lt K g :
  (Z.of_nat (graph_num_nodes g) * 10 < 2 ^ 64)%Z ->
  (15 * Z.of_nat K < 2 ^ 64)%Z ->
  stop_coarsening (graph_num_nodes (coarsen g).1.1) (graph_num_nodes g) K
  = false ->
  15 * K < graph_num_nodes (coarsen g).1.1
  /\ graph_num_nodes (coarsen g).1.1 < graph_num_nodes g.
Proof.
  intros Hn HK Hstop. pose proof (coarsen_le g) as Hle.
  split.
  - destruct (decide (15 * K < graph_num_nodes (coarsen g).1.1)); [done|].
    assert (stop_coarsening (graph_num_nodes (coarsen g).1.1)
              (graph_num_nodes g) K = true); [|congruence].
    apply stop_coarsening_nowrap; [done..|]. lia.
  - destruct (decide (graph_num_nodes (coarsen g).1.1 < graph_num_nodes g));
      [done|].
    assert (stop_coarsening (graph_num_nodes (coarsen g).1.1)
              (graph_num_nodes g) K = true); [|congruence].
    apply stop_coarsening_nowrap; [done..|]. lia.
Qed.

(** The recursion ends, and with parts: fuel above the number of nodes is
    never used up, and the check of the lambda holds at every level. *)
Lemma multilevel_rec_terminates K fuel g parts :
  (Z.of_nat (graph_num_nodes g) * 10 < 2 ^ 64)%Z ->
  (15 * Z.of_nat K < 2 ^ 64)%Z ->
  length parts = graph_num_nodes g ->
  graph_num_nodes g < fuel ->
  exists result, rec K fuel g parts = Some (Ok result).
Proof.
  intros Hn HK. revert g parts Hn. induction fuel as [|fuel IH];
    intros g parts Hn Hlen Hfuel; [lia|].
  simpl. rewrite Hlen, Nat.eqb_refl. simpl.
  pose proof (coarsen_le g) as Hle.
  pose proof (stop_coarsening_false_lt K g Hn HK) as Hlt.
  destruct (coarsen g) as [[cg c2f] f2c]. simpl in Hle, Hlt.
  destruct (stop_coarsening _ _ _) eqn:Hstop; [by eexists|].
  destruct (Hlt eq_refl) as [_ Hlt'].
  destruct (IH cg (replicate (graph_num_nodes cg) 0)) as [cp ->];
    [lia|by rewrite length_replicate|lia|]. by eexists.
Qed.

Lemma multilevel_partition_unfold K g parts :
  (Z.of_nat (graph_num_nodes g) * 10 < 2 ^ 64)%Z ->
  (15 * Z.of_nat K < 2 ^ 64)%Z ->
  0 < K <= graph_num_nodes g ->
  length parts = graph_num_nodes g ->
  let '(cg, c2f, f2c) := coarsen g in
  let zeros := replicate (graph_num_nodes cg) 0 in
  exists coarse_parts,
    (if stop_coarsening (graph_num_nodes cg) (graph_num_nodes g) K
     then coarse_parts = partition_coarsest cg zeros K
     else MultilevelPartition graph_num_nodes partition_coarsest coarsen
            refine cg zeros K = Some (Ok coarse_parts))
    /\ MultilevelPartition graph_num_nodes partition_coarsest coarsen refine
         g parts K
       = Some (Ok (refine g
                     (ranges_copy (permuted_view coarse_parts f2c) parts)
                     K)).
Proof.
  intros Hn HK [HK0 HKn] Hlen. unfold MultilevelPartition at 2.
  rewrite (proj2 (Nat.ltb_lt _ _) HK0), (proj2 (Nat.leb_le _ _) HKn).
  rewrite Hlen, Nat.eqb_refl. simpl. rewrite Hlen, Nat.eqb_refl. simpl.
  pose proof (coarsen_le g) as Hle.
  pose proof (stop_coarsening_false_lt K g Hn HK) as Hlt.
  destruct (coarsen g) as [[cg c2f] f2c]. simpl in Hle, Hlt.
  destruct (stop_coarsening _ _ _) eqn:Hstop; [by eexists|].
  destruct (Hlt eq_refl) as [HKcg Hlt'].
  destruct (multilevel_rec_terminates K (S (graph_num_nodes cg)) cg
              (replicate (graph_num_nodes cg) 0)) as [cp Hcp];
    [lia|done|by rewrite length_replicate|lia|].
  exists cp. split.
  - unfold MultilevelPartition.
    rewrite (proj2 (Nat.ltb_lt _ _) HK0).
    rewrite (proj2 (Nat.leb_le K (graph_num_nodes cg)) ltac:(lia)).
    by rewrite length_replicate, Nat.eqb_refl.
  - by rewrite (multilevel_rec_more_fuel _ _ (graph_num_nodes g) _ _ _ Hcp)
      by lia.
Qed.

End MultilevelProofs.

(** C7.  Let the coarsener never add nodes, let the arguments pass the checks
    of the partitioner ([0 < K <= |V(G)|], one part per node) and let the
    products of the test fit into [size_t].  For a graph [G] coarsened to
    [G'] with [K] parts, the partitioner takes the branch of the coarsest
    partitioner exactly when [|V(G')| <= 15 K] or
    [|V(G')| / |V(G)| >= 0.8]; in that branch the coarse parts are those of
    the coarsest partitioner, otherwise they are the result of the
    partitioner itself on [G'], which it returns; and in either case the
    result for [G] is the refinement of the parts of [G] after fine node [i]
    has been given the part of coarse node [fine_to_coarse[i]]. *)
Theorem multilevel_partition_stop_rule :
  forall (Graph : Type) (graph_num_nodes : Graph -> nat)
         (partition_coarsest : Graph -> list nat -> nat -> list nat)
         (coarsen : Graph -> Graph * list nat * list (option nat))
         (refine : Graph -> list nat -> nat -> list nat),
    (forall g, graph_num_nodes (coarsen g).1.1 <= graph_num_nodes g) ->
    forall (G G' : Graph) (coarse_to_fine : list nat)
           (fine_to_coarse : list (option nat)) (parts : list nat) (K : nat),
      coarsen G = (G', coarse_to_fine, fine_to_coarse) ->
      0 < K <= graph_num_nodes G ->
      length parts = graph_num_nodes G ->
      (Z.of_nat (graph_num_nodes G) * 10 < 2 ^ 64)%Z ->
      (15 * Z.of_nat K < 2 ^ 64)%Z ->
      let stop :=
        stop_coarsening (graph_num_nodes G') (graph_num_nodes G) K in
      let zeros := replicate (graph_num_nodes G') 0 in
      (stop = true
       <-> graph_num_nodes G' <= 15 * K
           \/ (8 # 10 <= inject_Z (Z.of_nat (graph_num_nodes G'))
                         / inject_Z (Z.of_nat (graph_num_nodes G)))%Q)
      /\ exists coarse_parts fine_parts,
           (if stop
            then coarse_parts = partition_coarsest G' zeros K
            else MultilevelPartition graph_num_nodes partition_coarsest
                   coarsen refine G' zeros K = Some (Ok coarse_parts))
           /\ MultilevelPartition graph_num_nodes partition_coarsest coarsen
                refine G parts K
              = Some (Ok (refine G fine_parts K))
           /\ length fine_parts = length parts
           /\ (forall i c p,
                 i < length parts ->
                 fine_to_coarse !! i = Some (Some c) ->
                 coarse_parts !! c = Some p ->
                 fine_parts !! i = Some p)
           /\ (forall i,
                 length fine_to_coarse <= i -> fine_parts !! i = parts !! i).
Proof.
  intros Graph graph_num_nodes partition_coarsest coarsen refine Hle
         G G' c2f f2c parts K Hc HK Hlen Hn HK64.
  pose proof (multilevel_partition_unfold graph_num_nodes partition_coarsest
                coarsen refine Hle K G parts Hn HK64 HK Hlen) as Hunfold.
  pose proof (Hle G) as HleG.
  rewrite Hc in Hunfold, HleG. simpl in HleG. cbv zeta in *.
  split.
  - rewrite stop_coarsening_nowrap by done.
    destruct (decide (graph_num_nodes G = 0)) as [H0|H0].
    + split; intros _; left; lia.
    + by rewrite node_ratio_ge_8_10 by lia.
  - destruct Hunfold as (coarse_parts & Hcoarse & Hres).
    exists coarse_parts,
           (ranges_copy (permuted_view coarse_parts f2c) parts).
    split; [done|]. split; [done|]. split; [apply length_ranges_copy|].
    split.
    + intros i c p Hi Hic Hcp. apply ranges_copy_lookup_src; [done|].
      by eapply permuted_view_lookup.
    + intros i Hi. apply ranges_copy_lookup_dst.
      unfold permuted_view. by rewrite length_fmap.
Qed.

Lemma multilevel_partition_stop_rule_witness :
  let G := path_graph 64 in
  let G' := (CoarsenGEM index_hash G).1.1 in
  let fine_to_coarse := (CoarsenGEM index_hash G).2 in
  let parts := replicate 64 0 in
  let stop := stop_coarsening (num_nodes G') (num_nodes G) 2 in
  let zeros := replicate (num_nodes G') 0 in
  (stop = true
   <-> num_nodes G' <= 15 * 2
       \/ (8 # 10 <= inject_Z (Z.of_nat (num_nodes G'))
                     / inject_Z (Z.of_nat (num_nodes G)))%Q)
  /\ exists coarse_parts fine_parts,
       (if stop
        then coarse_parts = UniformPartition G' zeros 2
        else MultilevelPartition num_nodes UniformPartition
               (CoarsenGEM index_hash) refine_nothing G' zeros 2
             = Some (Ok coarse_parts))
       /\ MultilevelPartition num_nodes UniformPartition
            (CoarsenGEM index_hash) refine_nothing G parts 2
          = Some (Ok (refine_nothing G fine_parts 2))
       /\ length fine_parts = length parts
       /\ (forall i c p,
             i < length parts ->
             fine_to_coarse !! i = Some (Some c) ->
             coarse_parts !! c = Some p ->
             fine_parts !! i = Some p)
       /\ (forall i,
             length fine_to_coarse <= i -> fine_parts !! i = parts !! i).
Proof.
  apply (multilevel_partition_stop_rule
           (list (nat * list (nat * nat))) num_nodes UniformPartition
           (CoarsenGEM index_hash) refine_nothing
           (CoarsenGEM_num_nodes index_hash)
           (path_graph 64) (CoarsenGEM index_hash (path_graph 64)).1.1
           (CoarsenGEM index_hash (path_graph 64)).1.2
           (CoarsenGEM index_hash (path_graph 64)).2
           (replicate 64 0) 2).
  - by destruct (CoarsenGEM index_hash (path_graph 64)) as [[? ?] ?].
  - vm_compute. lia.
  - reflexivity.
  - by vm_compute.
  - by vm_compute.
Defined.

(** A path of 64 nodes cut into two parts: the first coarsening leaves 32
    nodes, more than 15 times 2 and half of 64, so the partitioner recurses;
    the second leaves 16 and the coarsest partitioner runs.  More parts than
    nodes, no part, or parts for another number of nodes fail the checks. *)
Example multilevel_partition_path64 :
  num_nodes (CoarsenGEM index_hash (path_graph 64)).1.1 = 32
  /\ stop_coarsening 32 64 2 = false
  /\ stop_coarsening 16 32 2 = true
  /\ (exists parts,
        MultilevelPartition num_nodes UniformPartition
          (CoarsenGEM index_hash) refine_nothing
          (path_graph 64) (replicate 64 0) 2
        = Some (Ok parts)
        /\ length (filter (fun p => p = 0) parts) = 32
        /\ length (filter (fun p => p = 1) parts) = 32)
  /\ MultilevelPartition num_nodes UniformPartition
       (CoarsenGEM index_hash) refine_nothing
       (path_graph 2) (replicate 2 0) 3
     = Some Abort
  /\ MultilevelPartition num_nodes UniformPartition
       (CoarsenGEM index_hash) refine_nothing
       (path_graph 2) (replicate 2 0) 0
     = Some Abort
  /\ MultilevelPartition num_nodes UniformPartition
       (CoarsenGEM index_hash) refine_nothing
       (path_graph 2) (replicate 3 0) 2
     = Some Abort.
Proof.
  split; [vm_compute; reflexivity|]. split; [vm_compute; reflexivity|].
  split; [vm_compute; reflexivity|]. split.
  - eexists. split; [vm_compute; reflexivity|].
    split; vm_compute; reflexivity.
  - repeat split; vm_compute; reflexivity.
Qed.

(** The thresholds of the stop rule: 80 percent of 64 nodes is 51.2. *)
Example stop_coarsening_thresholds :
  stop_coarsening 52 64 2 = true /\ stop_coarsening 51 64 2 = false
  /\ stop_coarsening 30 64 2 = true /\ stop_coarsening 31 64 2 = false.
Proof. repeat split; vm_compute; reflexivity. Qed.

(** ** The particle mesh: the searches *)

Lemma StronglySorted_le_lt (l : list nat) :
  StronglySorted le l -> NoDup l -> StronglySorted lt l.
Proof.
  induction 1 as [|x l Hs IH Hall]; intros Hnd; constructor.
  - apply IH. by apply NoDup_cons in Hnd as [_ ?].
  - apply NoDup_cons in Hnd as [Hx _]. rewrite Forall_forall in *.
    intros y Hy. specialize (Hall y Hy).
    assert (x <> y) by (by intros ->). lia.
Qed.

Lemma ranges_sort_Permutation l : ranges_sort l ≡ₚ l.
Proof. apply merge_sort_Permutation. Qed.

Lemma ranges_sort_strict l : NoDup l -> StronglySorted lt (ranges_sort l).
Proof.
  intros Hnd. apply StronglySorted_le_lt.
  - apply StronglySorted_merge_sort; apply _.
  - by rewrite ranges_sort_Permutation.
Qed.

Lemma elem_of_ranges_sort x l : x ∈ ranges_sort l <-> x ∈ l.
Proof. by rewrite ranges_sort_Permutation. Qed.

Lemma all_lookup particles a i pa :
  all particles !! a = Some (i, pa) <-> i = a /\ particles !! a = Some pa.
Proof.
  unfold all. rewrite lookup_zip_Some, lookup_seq. split.
  - intros [[-> _] ?]. done.
  - intros [-> Hpa]. split; [|done]. split; [done|].
    by eapply lookup_lt_Some.
Qed.

Lemma fixed_particles_lookup particles k a pa :
  fixed_particles particles !! k = Some (a, pa) ->
  particles !! a = Some pa /\ particle_type pa = fixed.
Proof.
  intros Hk%list_elem_of_lookup_2.
  apply list_elem_of_filter in Hk as [Hfixed Hin]. simpl in Hfixed.
  apply list_elem_of_lookup in Hin as [i Hi].
  apply all_lookup in Hi as [-> Hpa]. done.
Qed.

Lemma norm2_sub_self (p : list Q) : (norm2 (vec_sub p p) == 0)%Q.
Proof.
  induction p as [|x p IH]; [reflexivity|].
  unfold norm2, vec_sub in *. simpl. rewrite IH. ring.
Qed.

(** A point lies within every positive radius of itself. *)
Lemma within_radius_self (p : list Q) (h : Q) :
  (0 < h)%Q -> within_radius p p h = true.
Proof.
  intros Hh. unfold within_radius.
  rewrite andb_true_iff, !Qle_bool_iff. split.
  - by apply Qlt_le_weak.
  - rewrite norm2_sub_self. apply Qmult_le_0_compat; by apply Qlt_le_weak.
Qed.

Lemma has_type_false particles j :
  has_type particles j fixed = false
  <-> forall pj, particles !! j = Some pj -> particle_type pj <> fixed.
Proof.
  unfold has_type. rewrite bool_decide_eq_false. split.
  - intros Hne pj Hpj Hty. apply Hne. by rewrite Hpj, <- Hty.
  - intros Hall Heq. destruct (particles !! j) as [pj|]; [|done].
    simpl in Heq. injection Heq as Heq. by eapply Hall.
Qed.

(** *** Parallel loops whose tasks may fail *)

Section ParForEachResults.
Context {A B : Type}.
Implicit Types (func : A -> TaskResult B) (range : list A) (bs : list B).

Lemma par_for_each_results_Returns func range bs :
  par_for_each_results func range = Returns bs
  <-> Forall2 (fun a b => func a = Returns b) range bs.
Proof.
  revert bs. induction range as [|a range IH]; intros bs; simpl.
  - split; [intros [= <-]; constructor|]. by intros ->%Forall2_nil_inv_l.
  - split.
    + destruct (func a) as [b| |] eqn:Ha; [|done..].
      destruct (par_for_each_results func range) as [bs'| |]; [|done..].
      intros [= <-]. constructor; [done|]. by apply IH.
    + intros (b & bs' & Ha & Hbs & ->)%Forall2_cons_inv_l.
      rewrite Ha. apply IH in Hbs. by rewrite Hbs.
Qed.

Lemma par_for_each_results_Raises func range :
  par_for_each_results func range = Raises ->
  exists a, a ∈ range /\ func a = Raises.
Proof.
  induction range as [|a range IH]; simpl; [done|].
  destruct (func a) as [b| |] eqn:Ha; [| |done].
  - destruct (par_for_each_results func range) as [bs'| |]; [done| |done].
    intros _. destruct (IH eq_refl) as (a' & Hin & Ha').
    exists a'. split; [by right|done].
  - intros _. exists a. split; [by left|done].
Qed.



End ParForEachResults.

Section MeshSearch.
Variable search_func : list (list Q) -> list Q -> Q -> option (list nat).
Variable partition_func : list (list Q) -> nat -> list nat.
Variable secondary_partition_func : list (list Q) -> nat -> nat -> list nat.
Variable Domain : BBox.
Variable fl : Q -> Q.
Variables num_threads MaxNumLevels PartIndex_max : nat.
Implicit Types (particles : list Particle) (mesh : ParticleMesh).
Implicit Types (radius_func : nat -> option Q).

Local Abbreviation update' :=
  (update search_func partition_func secondary_partition_func Domain fl
          num_threads MaxNumLevels PartIndex_max).
Local Abbreviation partition_' :=
  (partition_ partition_func secondary_partition_func num_threads
              MaxNumLevels PartIndex_max).

Lemma search_Ok particles radius_func mesh mesh' :
  search_ search_func Domain fl particles radius_func mesh = Ok mesh' ->
  Forall2 (fun a row =>
             search_neighbors search_func (r <$> particles) radius_func a
             = Returns row)
          (all particles) (adjacency_ mesh')
  /\ Forall2 (fun a row =>
                search_interp search_func Domain fl particles
                              (r <$> particles) radius_func a = Returns row)
             (fixed_particles particles) (interp_adjacency_ mesh')
  /\ block_edges_ mesh' = block_edges_ mesh.
Proof.
  unfold search_.
  destruct (par_for_each_results (search_neighbors _ _ _) _)
    as [adj| |] eqn:Hadj; [|done..].
  destruct (par_for_each_results (search_interp _ _ _ _ _ _) _)
    as [iadj| |] eqn:Hiadj; [|done..].
  intros [= <-]. simpl. by rewrite <- !par_for_each_results_Returns.
Qed.

Lemma partition_Ok_adjacency particles num_levels mesh particles' mesh' :
  partition_' particles num_levels mesh = Ok (particles', mesh') ->
  adjacency_ mesh' = adjacency_ mesh
  /\ interp_adjacency_ mesh' = interp_adjacency_ mesh.
Proof.
  unfold partition_. destruct (negb _); [done|]. destruct (negb _); [done|].
  destruct (fold_left _ _ _) as [parts interface]. by intros [= <- <-].
Qed.

Lemma update_Ok particles radius_func mesh particles' mesh' :
  update' particles radius_func mesh = Ok (particles', mesh') ->
  exists mesh1,
    search_ search_func Domain fl particles radius_func mesh = Ok mesh1
    /\ partition_' particles 2 mesh1 = Ok (particles', mesh').
Proof.
  unfold update. destruct (search_ _ _ _ _ _ _) as [mesh1| |]; [|done..].
  intros Hp. by exists mesh1.
Qed.

(** What a task of the first loop has done when it returns. *)
Lemma search_neighbors_Returns positions radius_func a pa row :
  search_neighbors search_func positions radius_func (a, pa) = Returns row
  <-> exists h search_results,
        radius_func a = Some h /\ (0 < h)%Q
        /\ search_func positions (r pa) h = Some search_results
        /\ row = ranges_sort search_results.
Proof.
  unfold search_neighbors. simpl. split.
  - destruct (radius_func a) as [h|]; [|done].
    destruct (Qle_bool h 0) eqn:Hh; [done|].
    destruct (search_func positions (r pa) h) as [l|] eqn:Hl; [|done].
    intros [= <-]. exists h, l. split; [done|]. split; [|done].
    apply Qnot_le_lt. intros Hle%Qle_bool_iff. congruence.
  - intros (h & l & -> & Hh & -> & ->).
    destruct (Qle_bool h 0) eqn:Hle; [|done].
    apply Qle_bool_iff in Hle. by apply Qle_not_lt in Hle.
Qed.

(** What a task of the second loop has done when it returns. *)
Lemma search_interp_Returns particles positions radius_func a pa row :
  search_interp search_func Domain fl particles positions radius_func (a, pa)
  = Returns row
  <-> exists h search_results,
        radius_func a = Some h
        /\ search_func positions (interp_point Domain fl (r pa))
                       (fl (3 * h)%Q)
           = Some search_results
        /\ row = ranges_sort
                   (filter (fun b => has_type particles b fixed = false)
                           search_results).
Proof.
  unfold search_interp. simpl. split.
  - destruct (radius_func a) as [h|]; [|done].
    destruct (search_func positions _ _) as [l|] eqn:Hl; [|done].
    intros [= <-]. by exists h, l.
  - by intros (h & l & -> & -> & ->).
Qed.

(** The row of a particle after a successful update. *)
Lemma update_Ok_neighbors particles radius_func mesh particles' mesh' i pi :
  update' particles radius_func mesh = Ok (particles', mesh') ->
  particles !! i = Some pi ->
  exists h search_results,
    radius_func i = Some h /\ (0 < h)%Q
    /\ search_func (r <$> particles) (r pi) h = Some search_results
    /\ neighbors mesh' i = ranges_sort search_results.
Proof.
  intros (mesh1 & Hs & Hp)%update_Ok Hi.
  apply partition_Ok_adjacency in Hp as [Hadj _].
  apply search_Ok in Hs as (Hrows & _ & _).
  assert (all particles !! i = Some (i, pi)) as Hall by by apply all_lookup.
  destruct (Forall2_lookup_l _ _ _ _ _ Hrows Hall) as (row & Hrow & Hsn).
  apply search_neighbors_Returns in Hsn as (h & l & Hh & Hpos & Hl & ->).
  exists h, l. split; [done|]. split; [done|]. split; [done|].
  unfold neighbors. by rewrite Hadj, Hrow.
Qed.

(** The row of a fixed particle after a successful update. *)
Lemma update_Ok_interp particles radius_func mesh particles' mesh' k a pa :
  update' particles radius_func mesh = Ok (particles', mesh') ->
  fixed_particles particles !! k = Some (a, pa) ->
  exists h search_results,
    radius_func a = Some h
    /\ search_func (r <$> particles) (interp_point Domain fl (r pa))
                   (fl (3 * h)%Q)
       = Some search_results
    /\ interp_adjacency_ mesh' !! k
       = Some (ranges_sort
                 (filter (fun b => has_type particles b fixed = false)
                         search_results)).
Proof.
  intros (mesh1 & Hs & Hp)%update_Ok Hk.
  apply partition_Ok_adjacency in Hp as [_ Hiadj].
  apply search_Ok in Hs as (_ & Hrows & _).
  destruct (Forall2_lookup_l _ _ _ _ _ Hrows Hk) as (row & Hrow & Hsi).
  apply search_interp_Returns in Hsi as (h & l & Hh & Hl & ->).
  exists h, l. split; [done|]. split; [done|].
  by rewrite Hiadj, Hrow.
Qed.

(** *** Exceptions *)

(** A task of the neighbour search raises: [radius_func] throws for the
    particle, or the radius is positive and the search throws. *)
Lemma search_neighbors_Raises positions radius_func a pa :
  search_neighbors search_func positions radius_func (a, pa) = Raises
  <-> radius_func a = None
      \/ exists h, radius_func a = Some h /\ (0 < h)%Q
                   /\ search_func positions (r pa) h = None.
Proof.
  unfold search_neighbors. simpl. split.
  - destruct (radius_func a) as [h|]; [|by left].
    destruct (Qle_bool h 0) eqn:Hh; [done|].
    destruct (search_func positions (r pa) h) as [l|] eqn:Hl; [done|].
    intros _. right. exists h. split; [done|]. split; [|done].
    apply Qnot_le_lt. intros Hle%Qle_bool_iff. congruence.
  - intros [->|(h & -> & Hh & ->)]; [done|].
    destruct (Qle_bool h 0) eqn:Hle; [|done].
    apply Qle_bool_iff in Hle. by apply Qle_not_lt in Hle.
Qed.

(** The check of a task of the neighbour search fails: the radius is not
    positive. *)
Lemma search_neighbors_Fails positions radius_func a pa :
  search_neighbors search_func positions radius_func (a, pa) = Fails
  <-> exists h, radius_func a = Some h /\ (h <= 0)%Q.
Proof.
  unfold search_neighbors. simpl. split.
  - destruct (radius_func a) as [h|]; [|done].
    destruct (Qle_bool h 0) eqn:Hh.
    + intros _. exists h. split; [done|]. by apply Qle_bool_iff.
    + by destruct (search_func positions (r pa) h).
  - intros (h & -> & Hh%Qle_bool_iff). by rewrite Hh.
Qed.





End MeshSearch.

(** ** The particle mesh: block edges *)


(** Two part vectors agree on as many leading levels as their common prefix
    is long. *)
Lemma PartVec_common_take p q k :
  k <= PartVec_common p q -> take k p = take k q.
Proof.
  revert q k. induction p as [|x p IH]; intros [|y q] k Hk; simpl in *;
    try (assert (k = 0) as -> by lia; done).
  destruct (x =? y) eqn:Hxy; [|assert (k = 0) as -> by lia; done].
  apply Nat.eqb_eq in Hxy as ->.
  destruct k as [|k]; [done|]. simpl. f_equal. apply IH. lia.
Qed.

Section AssignPairs.
Context {V : Type}.
Implicit Types (pairs : list (nat * V)) (count k : nat).

Lemma assign_pairs_lookup count pairs k bucket :
  assign_pairs_par_wide count pairs !! k = Some bucket
  <-> k < count /\ bucket = snd <$> filter (fun kv => kv.1 = k) pairs.
Proof.
  unfold assign_pairs_par_wide. rewrite list_lookup_fmap_Some. split.
  - intros (k' & -> & [-> Hlt]%lookup_seq). done.
  - intros [Hlt ->]. exists k. split; [done|]. by apply lookup_seq.
Qed.

Lemma assign_pairs_elem_of count pairs k v :
  (exists bucket,
     assign_pairs_par_wide count pairs !! k = Some bucket /\ v ∈ bucket)
  <-> k < count /\ (k, v) ∈ pairs.
Proof.
  split.
  - intros (bucket & [Hlt ->]%assign_pairs_lookup & Hv). split; [done|].
    apply list_elem_of_fmap in Hv as ([k' v'] & -> & Hin).
    apply list_elem_of_filter in Hin as [Hk Hin]. simpl in Hk. by subst k'.
  - intros [Hlt Hin]. eexists. split; [by apply assign_pairs_lookup|].
    apply list_elem_of_fmap. exists (k, v). split; [done|].
    by apply list_elem_of_filter.
Qed.




End AssignPairs.

Section Edges.
Implicit Types (adjacency : list (list nat)).

Lemma elem_of_edges adjacency a b :
  (a, b) ∈ edges adjacency
  <-> exists row, adjacency !! a = Some row /\ b ∈ row /\ a < b.
Proof.
  unfold edges. rewrite list_elem_of_In, in_concat. split.
  - intros (l & Hl%list_elem_of_In & Hin%list_elem_of_In).
    apply elem_of_lookup_imap in Hl as (a' & row & -> & Hrow).
    apply list_elem_of_fmap in Hin as (b' & [= -> ->] & Hb).
    apply list_elem_of_filter in Hb as [Hlt Hb]. eauto.
  - intros (row & Hrow & Hb & Hlt).
    exists ((fun b => (a, b)) <$> filter (fun b => a < b) row). split.
    + apply list_elem_of_In.
      apply (elem_of_lookup_imap_2
               (fun a row => (fun b => (a, b)) <$> filter (fun b => a < b) row)
               _ _ _ Hrow).
    + apply list_elem_of_In, list_elem_of_fmap. exists b. split; [done|].
      by apply list_elem_of_filter.
Qed.



End Edges.

Section MeshPartition.
Variable search_func : list (list Q) -> list Q -> Q -> option (list nat).
Variable partition_func : list (list Q) -> nat -> list nat.
Variable secondary_partition_func : list (list Q) -> nat -> nat -> list nat.
Variable Domain : BBox.
Variable fl : Q -> Q.
Variables num_threads MaxNumLevels PartIndex_max : nat.
Implicit Types (particles : list Particle) (mesh : ParticleMesh).
Implicit Types (parts : list (list nat)).

Local Abbreviation update' :=
  (update search_func partition_func secondary_partition_func Domain fl
          num_threads MaxNumLevels PartIndex_max).
Local Abbreviation partition_' :=
  (partition_ partition_func secondary_partition_func num_threads
              MaxNumLevels PartIndex_max).

Lemma write_level_parts_shape n level perm labels parts :
  parts_shape MaxNumLevels n parts ->
  parts_shape MaxNumLevels n (write_level_parts level perm labels parts).
Proof.
  unfold write_level_parts. generalize (zip perm labels). intros l.
  revert parts. induction l as [|[a label] l IH]; intros parts Hs; [done|].
  simpl. apply IH. destruct Hs as [Hlen Hall]. split.
  - by rewrite length_alter.
  - apply Forall_alter; [done|]. intros part _ Hpart.
    by rewrite length_insert.
Qed.

Lemma partition_level_shape n adjacency positions num_levels st level :
  parts_shape MaxNumLevels n st.1 ->
  parts_shape MaxNumLevels n
    (partition_level partition_func secondary_partition_func num_threads
                     adjacency positions num_levels st level).1.
Proof.
  destruct st as [parts interface]. simpl. intros Hs.
  unfold partition_level.
  destruct (level =? 0), (level =? num_levels - 1); simpl;
    by apply write_level_parts_shape.
Qed.

Lemma partition_levels_shape n adjacency positions num_levels levels st :
  parts_shape MaxNumLevels n st.1 ->
  parts_shape MaxNumLevels n
    (fold_left (partition_level partition_func secondary_partition_func
                                num_threads adjacency positions num_levels)
               levels st).1.
Proof.
  revert st. induction levels as [|level levels IH]; intros st Hs; [done|].
  simpl. apply IH. by apply partition_level_shape.
Qed.

Lemma partition_Ok particles num_levels mesh particles' mesh' :
  partition_' particles num_levels mesh = Ok (particles', mesh') ->
  exists parts,
    parts_shape MaxNumLevels (length particles) parts
    /\ parinfo <$> particles' = parts
    /\ length particles' = length particles
    /\ block_edges_ mesh'
       = assign_pairs_par_wide (num_levels * num_threads + 1 + 1)
           (transform_edges (adjacency_ mesh) (block_key parts)).
Proof.
  unfold partition_. destruct (negb _); [done|]. destruct (negb _); [done|].
  pose proof (partition_levels_shape (length particles) (adjacency_ mesh)
                (r <$> particles) num_levels (seq 0 num_levels)
                (replicate (length particles)
                   (replicate MaxNumLevels (num_levels * num_threads + 1 - 1)),
                 [])) as Hshape.
  destruct (fold_left _ _ _) as [parts interface]. simpl in Hshape.
  intros [= <- <-]. exists parts.
  assert (parts_shape MaxNumLevels (length particles) parts) as Hs.
  { apply Hshape. split; [by rewrite length_replicate|].
    apply Forall_replicate. by rewrite length_replicate. }
  split; [done|]. destruct Hs as [Hlen _]. split; [|split; [|done]].
  - apply fmap_zip_with_r; [done|lia].
  - rewrite length_zip_with. lia.
Qed.

Lemma zip_with_parinfo_fields particles parts :
  length particles <= length parts ->
  particle_type
    <$> zip_with (fun p part => mkParticle (r p) (particle_type p) part)
                 particles parts
  = particle_type <$> particles
  /\ r <$> zip_with (fun p part => mkParticle (r p) (particle_type p) part)
                    particles parts
     = r <$> particles.
Proof.
  revert parts. induction particles as [|p particles IH]; intros parts Hlen;
    [done|].
  destruct parts as [|part parts]; simpl in Hlen; [lia|].
  destruct (IH parts ltac:(lia)) as [IH1 IH2].
  cbn [zip_with]. rewrite !fmap_cons. cbn [r particle_type].
  by rewrite IH1, IH2.
Qed.

(** [update] writes the part vectors only. *)
Lemma update_Ok_types particles radius_func mesh particles' mesh' :
  update' particles radius_func mesh = Ok (particles', mesh') ->
  particle_type <$> particles' = particle_type <$> particles
  /\ r <$> particles' = r <$> particles.
Proof.
  intros (mesh1 & _ & Hp)%update_Ok. revert Hp.
  unfold partition_. destruct (negb _); [done|]. destruct (negb _); [done|].
  pose proof (partition_levels_shape (length particles) (adjacency_ mesh1)
                (r <$> particles) 2 (seq 0 2)
                (replicate (length particles)
                   (replicate MaxNumLevels (2 * num_threads + 1 - 1)),
                 [])) as Hshape.
  destruct (fold_left _ _ _) as [parts interface]. simpl in Hshape.
  intros [= <- _].
  destruct Hshape as [Hlen _].
  { split; [by rewrite length_replicate|].
    apply Forall_replicate. by rewrite length_replicate. }
  apply zip_with_parinfo_fields. lia.
Qed.

Lemma block_key_part_of particles' parts a b :
  parinfo <$> particles' = parts ->
  block_key parts (a, b)
  = (PartVec_common (part_of particles' a) (part_of particles' b), (a, b)).
Proof.
  intros <-. unfold block_key, part_of. by rewrite !list_lookup_fmap.
Qed.


(** What a bucket holds after a successful update. *)
Lemma update_Ok_bucket particles radius_func mesh particles' mesh' k a b :
  update' particles radius_func mesh = Ok (particles', mesh') ->
  (exists bucket, block_edges_ mesh' !! k = Some bucket /\ (a, b) ∈ bucket)
  <-> k < 2 * num_threads + 1 + 1
      /\ (a, b) ∈ edges (adjacency_ mesh')
      /\ k = PartVec_common (part_of particles' a) (part_of particles' b).
Proof.
  intros (mesh1 & _ & Hp)%update_Ok.
  destruct (partition_Ok_adjacency _ _ _ _ _ _ _ _ _ _ Hp) as [Hadj _].
  apply partition_Ok in Hp as (parts & Hshape & Hparts & _ & ->).
  rewrite assign_pairs_elem_of, Hadj. unfold transform_edges.
  rewrite list_elem_of_fmap. split.
  - intros [Hlt ([a' b'] & Heq & Hin)].
    rewrite (block_key_part_of particles') in Heq by done.
    by injection Heq as -> -> ->.
  - intros (Hlt & Hin & ->). split; [done|]. exists (a, b).
    by rewrite (block_key_part_of particles').
Qed.



End MeshPartition.

(** ** The particle mesh: what [update] guarantees *)

Lemma reverse_search_spec : search_index_spec reverse_search.
Proof.
  intros positions point radius search_results [= <-]. split.
  - rewrite reverse_Permutation. apply NoDup_filter, NoDup_seq.
  - intros j. rewrite elem_of_reverse, list_elem_of_filter, elem_of_seq.
    split.
    + intros [Hw [_ [q Hq]%lookup_lt_is_Some_2]]. exists q.
      by rewrite Hq in Hw.
    + intros (q & Hq & Hw). rewrite Hq. split; [done|].
      apply lookup_lt_Some in Hq. lia.
Qed.

Lemma boxed_search_spec box : search_index_spec (boxed_search box).
Proof.
  intros positions point radius search_results. unfold boxed_search.
  destruct (forallb _ _); [apply reverse_search_spec|done].
Qed.

(** The mirror point, coordinate by coordinate. *)
Lemma interp_point_lookup Domain fl search_point d :
  interp_point Domain fl search_point !! d
  = match low Domain !! d, high Domain !! d, search_point !! d with
    | Some lo, Some hi, Some x =>
        Some (fl (fl (2 * (if Qle_bool x lo then lo
                           else if Qle_bool hi x then hi else x)) - x))%Q
    | _, _, _ => None
    end.
Proof.
  unfold interp_point, clamp. rewrite !lookup_zip_with.
  destruct (low Domain !! d) as [lo|]; [|done].
  destruct (high Domain !! d) as [hi|]; [|done].
  by destruct (search_point !! d) as [x|].
Qed.

Example update_line3 :
  update reverse_search one_part one_part_from unit_box exact 1 3 255
         line3 (radius_const (3 # 2)) empty_mesh
  = Ok (line3_updated, line3_mesh).
Proof. vm_compute. reflexivity. Qed.

Example update_line3_wide :
  update reverse_search one_part one_part_from unit_box exact 1 3 255
         line3 (radius_const (5 # 2)) empty_mesh
  = Ok (line3_updated, line3_wide_mesh).
Proof. vm_compute. reflexivity. Qed.



(** Rounding is seen in [three_tenths]: it is more than three times
    [tenth].  The numbers of [wall4] are [double]s. *)
Example binary64_tenth :
  Qred (binary64 (1 # 10)) = tenth
  /\ Qred (binary64 (3 * tenth)) = three_tenths
  /\ (3 * tenth < three_tenths)%Q
  /\ Qred ((1 # 4) + three_tenths) = 2476979795053773 # 4503599627370496
  /\ Forall (fun x => Qred (binary64 x) = x)
            (tenth :: concat (r <$> wall4)).
Proof.
  split; [vm_compute; reflexivity|]. split; [vm_compute; reflexivity|].
  split; [vm_compute; reflexivity|]. split; [vm_compute; reflexivity|].
  repeat constructor.
Qed.

Example update_wall4 :
  update reverse_search one_part one_part_from unit_box binary64 1 3 255
         wall4 (radius_const tenth) empty_mesh
  = Ok (wall4_updated, wall4_mesh).
Proof. vm_compute. reflexivity. Qed.

(** What [update_wall4] depends on: without the rounding of the radius,
    particle 2 is not found; around the fixed particle itself, no fluid
    particle is. *)
Example update_wall4_otherwise :
  (exists particles' mesh',
     update reverse_search one_part one_part_from unit_box exact 1 3 255
            wall4 (radius_const tenth) empty_mesh
     = Ok (particles', mesh')
     /\ interp_adjacency_ mesh' = [[1]])
  /\ interp_point unit_box binary64 [(-1 # 4)%Q] = [binary64 (1 # 4)]
  /\ Qred (binary64 (1 # 4)) = 1 # 4
  /\ reverse_search (r <$> wall4) [(-1 # 4)%Q] three_tenths = Some [0].
Proof.
  split; [eexists _, _; split; vm_compute; reflexivity|].
  repeat split; vm_compute; reflexivity.
Qed.

Example update_far2 :
  update reverse_search one_part one_part_from unit_box exact 1 3 255
         far2 (radius_const 2) empty_mesh
  = Ok (far2_updated, far2_mesh).
Proof. vm_compute. reflexivity. Qed.

(** C3 (as amended).  Let the search index report every point within the
    radius exactly once.  After a successful [update], for every particle [i]
    the list [neighbors(i)] is strictly ascending and holds exactly the
    particles [j] with [||r_i - r_j|| <= radius_fn(i)]; when the radius is
    positive, [i] itself is one of them. *)
Theorem update_neighbors_sorted_within_radius :
  forall (search_func : list (list Q) -> list Q -> Q -> option (list nat))
         (partition_func : list (list Q) -> nat -> list nat)
         (secondary_partition_func : list (list Q) -> nat -> nat -> list nat)
         (Domain : BBox) (fl : Q -> Q)
         (num_threads MaxNumLevels PartIndex_max : nat),
    search_index_spec search_func ->
    forall (particles : list Particle) (radius_func : nat -> option Q)
           (mesh : ParticleMesh) (particles' : list Particle)
           (mesh' : ParticleMesh),
      update search_func partition_func secondary_partition_func Domain fl
             num_threads MaxNumLevels PartIndex_max
             particles radius_func mesh = Ok (particles', mesh') ->
      forall i pi,
        particles !! i = Some pi ->
        exists h,
          radius_func i = Some h
          /\ StronglySorted lt (neighbors mesh' i)
          /\ (forall j,
                j ∈ neighbors mesh' i
                <-> exists pj, particles !! j = Some pj
                               /\ within_radius (r pi) (r pj) h = true)
          /\ ((0 < h)%Q -> i ∈ neighbors mesh' i).
Proof.
  intros search_func partition_func secondary_partition_func Domain fl
         num_threads MaxNumLevels PartIndex_max Hspec
         particles radius_func mesh particles' mesh' Hupd i pi Hi.
  destruct (update_Ok_neighbors _ _ _ _ _ _ _ _ _ _ _ _ _ _ _ Hupd Hi)
    as (h & search_results & Hh & _ & Hl & Hrow).
  destruct (Hspec _ _ _ _ Hl) as [Hnd Hmem].
  assert (forall j,
            j ∈ neighbors mesh' i
            <-> exists pj, particles !! j = Some pj
                           /\ within_radius (r pi) (r pj) h = true) as Hchar.
  { intros j. rewrite Hrow, elem_of_ranges_sort, Hmem. split.
    - intros (q & (pj & -> & Hpj)%list_lookup_fmap_Some & Hw). eauto.
    - intros (pj & Hpj & Hw). exists (r pj). split; [|done].
      by rewrite list_lookup_fmap, Hpj. }
  exists h. split; [done|]. split; [|split; [done|]].
  - rewrite Hrow. by apply ranges_sort_strict.
  - intros Hpos. apply Hchar. exists pi. split; [done|].
    by apply within_radius_self.
Qed.

Lemma update_neighbors_sorted_within_radius_witness :
  search_index_spec reverse_search
  /\ update reverse_search one_part one_part_from unit_box exact 1 3 255
            line3 (radius_const (3 # 2)) empty_mesh
     = Ok (line3_updated, line3_mesh)
  /\ exists h,
       radius_const (3 # 2) 1 = Some h
       /\ StronglySorted lt (neighbors line3_mesh 1)
       /\ (forall j,
             j ∈ neighbors line3_mesh 1
             <-> exists pj, line3 !! j = Some pj
                            /\ within_radius [1%Q] (r pj) h = true)
       /\ ((0 < h)%Q -> 1 ∈ neighbors line3_mesh 1).
Proof.
  split; [exact reverse_search_spec|]. split; [exact update_line3|].
  apply (update_neighbors_sorted_within_radius
           reverse_search one_part one_part_from unit_box exact 1 3 255
           reverse_search_spec line3 (radius_const (3 # 2)) empty_mesh
           line3_updated line3_mesh update_line3 1
           (mkParticle [1%Q] fluid [])).
  reflexivity.
Defined.

(** C3 (as stated) fails: on three particles at 0, 1 and 2 with the radius
    3/2 for each, [update] succeeds and particle 0 is in [neighbors(0)]. *)
Lemma update_neighbors_contain_self :
  update reverse_search one_part one_part_from unit_box exact 1 3 255
         line3 (radius_const (3 # 2)) empty_mesh
  = Ok (line3_updated, line3_mesh)
  /\ (0 < 3 # 2)%Q
  /\ neighbors line3_mesh 0 = [0; 1]
  /\ ~ (forall i j, j ∈ neighbors line3_mesh i -> j <> i).
Proof.
  split; [exact update_line3|]. split; [reflexivity|]. split; [reflexivity|].
  intros H. apply (H 0 0); [|done]. by left.
Qed.

(** C4.  Let the search index report every point within the radius exactly
    once.  After a successful [update], for the [k]-th fixed particle [a],
    at [r_a], the row [k] of the interpolation adjacency is the sorted list
    of what the search reports around the mirror point within the radius
    [3 radius_fn(a)], without the fixed particles.  The mirror point is
    [2 clamp(r_a, Domain) - r_a]: its coordinate [d] is [2 c - x], where [x]
    is the coordinate [d] of [r_a] and [c] is [x] moved into the interval of
    the domain, the product, the difference and the radius being rounded as
    the [double] operations of the source round them.  The row is strictly
    ascending, it holds exactly the particles that are not fixed and lie
    within that radius of the mirror point, none of them is fixed before or
    after the update, and [fixed_interp(a)] is that row when the fixed
    particles are stored next to each other. *)
Theorem update_interp_neighbors :
  forall (search_func : list (list Q) -> list Q -> Q -> option (list nat))
         (partition_func : list (list Q) -> nat -> list nat)
         (secondary_partition_func : list (list Q) -> nat -> nat -> list nat)
         (Domain : BBox) (fl : Q -> Q)
         (num_threads MaxNumLevels PartIndex_max : nat),
    search_index_spec search_func ->
    forall (particles : list Particle) (radius_func : nat -> option Q)
           (mesh : ParticleMesh) (particles' : list Particle)
           (mesh' : ParticleMesh),
      update search_func partition_func secondary_partition_func Domain fl
             num_threads MaxNumLevels PartIndex_max
             particles radius_func mesh = Ok (particles', mesh') ->
      forall k a pa,
        fixed_particles particles !! k = Some (a, pa) ->
        exists (h : Q) (mirror : list Q) (search_results : list nat),
          radius_func a = Some h
          /\ (forall d,
                mirror !! d
                = match low Domain !! d, high Domain !! d, r pa !! d with
                  | Some lo, Some hi, Some x =>
                      Some (fl (fl (2 * (if Qle_bool x lo then lo
                                         else if Qle_bool hi x then hi
                                         else x)) - x))%Q
                  | _, _, _ => None
                  end)
          /\ search_func (r <$> particles) mirror (fl (3 * h)%Q)
             = Some search_results
          /\ let row :=
               ranges_sort
                 (filter (fun b => has_type particles b fixed = false)
                         search_results) in
             interp_adjacency_ mesh' !! k = Some row
             /\ StronglySorted lt row
             /\ (forall j,
                   j ∈ row
                   <-> exists pj,
                         particles !! j = Some pj
                         /\ within_radius mirror (r pj) (fl (3 * h)%Q) = true
                         /\ particle_type pj <> fixed)
             /\ (forall j,
                   j ∈ row ->
                   has_type particles j fixed = false
                   /\ has_type particles' j fixed = false)
             /\ (a = default 0 (fst <$> head (fixed_particles particles)) + k
                 -> fixed_interp mesh' particles a = Ok row).
Proof.
  intros search_func partition_func secondary_partition_func Domain fl
         num_threads MaxNumLevels PartIndex_max Hspec
         particles radius_func mesh particles' mesh' Hupd k a pa Hk.
  destruct (update_Ok_interp _ _ _ _ _ _ _ _ _ _ _ _ _ _ _ _ Hupd Hk)
    as (h & search_results & Hh & Hl & Hrow).
  exists h, (interp_point Domain fl (r pa)), search_results.
  split; [done|]. split; [intros d; apply interp_point_lookup|].
  split; [done|]. cbv zeta.
  destruct (Hspec _ _ _ _ Hl) as [Hnd Hmem].
  split; [done|]. split; [by apply ranges_sort_strict, NoDup_filter|].
  split; [|split].
  - intros j. rewrite elem_of_ranges_sort, list_elem_of_filter, Hmem.
    rewrite has_type_false. split.
    + intros [Hty (q & (pj & -> & Hpj)%list_lookup_fmap_Some & Hw)].
      exists pj. split; [done|]. split; [done|]. by apply Hty.
    + intros (pj & Hpj & Hw & Hty). split.
      * intros pj' Hpj'. congruence.
      * exists (r pj). split; [|done]. by rewrite list_lookup_fmap, Hpj.
  - intros j. rewrite elem_of_ranges_sort, list_elem_of_filter.
    intros [Hty _]. split; [done|].
    destruct (update_Ok_types _ _ _ _ _ _ _ _ _ _ _ _ _ Hupd) as [Htypes _].
    unfold has_type in *.
    by rewrite <- list_lookup_fmap, Htypes, list_lookup_fmap.
  - intros Ha. unfold fixed_interp.
    apply fixed_particles_lookup in Hk as [Hpa Hfixed].
    assert (has_type particles a fixed = true) as ->.
    { unfold has_type. apply bool_decide_eq_true. by rewrite Hpa, <- Hfixed. }
    simpl.
    replace (a - default 0 (fst <$> head (fixed_particles particles)))
      with k by lia.
    by rewrite Hrow.
Qed.

Lemma update_interp_neighbors_witness :
  search_index_spec reverse_search
  /\ update reverse_search one_part one_part_from unit_box binary64 1 3 255
            wall4 (radius_const tenth) empty_mesh
     = Ok (wall4_updated, wall4_mesh)
  /\ fixed_particles wall4 !! 0
     = Some (0, mkParticle [(-1 # 4)%Q] fixed [])
  /\ exists (h : Q) (mirror : list Q) (search_results : list nat),
       radius_const tenth 0 = Some h
       /\ (forall d,
             mirror !! d
             = match low unit_box !! d, high unit_box !! d,
                     [(-1 # 4)%Q] !! d with
               | Some lo, Some hi, Some x =>
                   Some (binary64
                           (binary64 (2 * (if Qle_bool x lo then lo
                                           else if Qle_bool hi x then hi
                                           else x)) - x))%Q
               | _, _, _ => None
               end)
       /\ reverse_search (r <$> wall4) mirror (binary64 (3 * h)%Q)
          = Some search_results
       /\ let row :=
            ranges_sort
              (filter (fun b => has_type wall4 b fixed = false)
                      search_results) in
          interp_adjacency_ wall4_mesh !! 0 = Some row
          /\ StronglySorted lt row
          /\ (forall j,
                j ∈ row
                <-> exists pj,
                      wall4 !! j = Some pj
                      /\ within_radius mirror (r pj) (binary64 (3 * h)%Q)
                         = true
                      /\ particle_type pj <> fixed)
          /\ (forall j,
                j ∈ row ->
                has_type wall4 j fixed = false
                /\ has_type wall4_updated j fixed = false)
          /\ (0 = default 0 (fst <$> head (fixed_particles wall4)) + 0
              -> fixed_interp wall4_mesh wall4 0 = Ok row).
Proof.
  split; [exact reverse_search_spec|]. split; [exact update_wall4|].
  split; [reflexivity|].
  apply (update_interp_neighbors
           reverse_search one_part one_part_from unit_box binary64 1 3 255
           reverse_search_spec wall4 (radius_const tenth) empty_mesh
           wall4_updated wall4_mesh update_wall4 0 0
           (mkParticle [(-1 # 4)%Q] fixed [])).
  reflexivity.
Defined.




(** The second loop of [search_] can raise after the first has returned: the
    index here does not serve the mirror point of the fixed particle.  What
    is left is the adjacency of this step with the interpolation adjacency
    and the block edges of the step before, in which the pair (0, 1) is no
    edge of the adjacency any more. *)
Example update_far2_interp_search_raises :
  update (boxed_search far2_box) one_part one_part_from unit_box exact
         1 3 255 far2_updated (radius_const (1 # 2)) far2_mesh
  = Throw (far2_updated,
           mkParticleMesh [[0]; [1]] [[1]] [[]; []; []; [(0, 1)]])
  /\ search_neighbors (boxed_search far2_box) (r <$> far2_updated)
                      (radius_const (1 # 2))
     <$> all far2_updated
     = [Returns [0]; Returns [1]]
  /\ search_interp (boxed_search far2_box) unit_box exact far2_updated
                   (r <$> far2_updated) (radius_const (1 # 2))
     <$> fixed_particles far2_updated
     = [Raises]
  /\ edges [[0]; [1]] = [].
Proof. repeat split; vm_compute; reflexivity. Qed.

(** What the checks do: a radius that is not positive, too few levels for
    the part vectors, and too many parts for a part index end the process. *)
Example update_checks_fail :
  update reverse_search one_part one_part_from unit_box exact 1 3 255
         far2 (radius_const 0) empty_mesh = Abort
  /\ update reverse_search one_part one_part_from unit_box exact 1 2 255
            far2 (radius_const 1) empty_mesh = Abort
  /\ update reverse_search one_part one_part_from unit_box exact 1 3 2
            far2 (radius_const 1) empty_mesh = Abort.
Proof. repeat split; vm_compute; reflexivity. Qed.




(** C1 (as amended).  After a successful [update], every pair [(a, b)] of
    bucket [k] has part vectors whose common prefix has length [k]; so two
    pairs of one bucket that share a particle have all their particles in the
    same parts on the first [k] levels. *)
Theorem update_block_edges_same_block :
  forall (search_func : list (list Q) -> list Q -> Q -> option (list nat))
         (partition_func : list (list Q) -> nat -> list nat)
         (secondary_partition_func : list (list Q) -> nat -> nat -> list nat)
         (Domain : BBox) (fl : Q -> Q)
         (num_threads MaxNumLevels PartIndex_max : nat)
         (particles : list Particle) (radius_func : nat -> option Q)
         (mesh : ParticleMesh) (particles' : list Particle)
         (mesh' : ParticleMesh),
    update search_func partition_func secondary_partition_func Domain fl
           num_threads MaxNumLevels PartIndex_max
           particles radius_func mesh = Ok (particles', mesh') ->
    forall k bucket a b c d,
      block_edges_ mesh' !! k = Some bucket ->
      (a, b) ∈ bucket -> (c, d) ∈ bucket ->
      PartVec_common (part_of particles' a) (part_of particles' b) = k
      /\ PartVec_common (part_of particles' c) (part_of particles' d) = k
      /\ (a = c \/ a = d \/ b = c \/ b = d ->
          take k (part_of particles' a) = take k (part_of particles' b)
          /\ take k (part_of particles' b) = take k (part_of particles' c)
          /\ take k (part_of particles' c) = take k (part_of particles' d)).
Proof.
  intros search_func partition_func secondary_partition_func Domain fl
         num_threads MaxNumLevels PartIndex_max
         particles radius_func mesh particles' mesh' Hupd
         k bucket a b c d Hk Hab Hcd.
  assert (PartVec_common (part_of particles' a) (part_of particles' b) = k)
    as Hkab.
  { symmetry.
    eapply (update_Ok_bucket _ _ _ _ _ _ _ _ _ _ _ _ _ _ _ _ Hupd); eauto. }
  assert (PartVec_common (part_of particles' c) (part_of particles' d) = k)
    as Hkcd.
  { symmetry.
    eapply (update_Ok_bucket _ _ _ _ _ _ _ _ _ _ _ _ _ _ _ _ Hupd); eauto. }
  split; [done|]. split; [done|].
  pose proof (PartVec_common_take (part_of particles' a)
                (part_of particles' b) k ltac:(lia)) as Tab.
  pose proof (PartVec_common_take (part_of particles' c)
                (part_of particles' d) k ltac:(lia)) as Tcd.
  intros [Heq|[Heq|[Heq|Heq]]]; subst; repeat split; congruence.
Qed.

Lemma update_block_edges_same_block_witness :
  update reverse_search one_part one_part_from unit_box exact 1 3 255
         line3 (radius_const (5 # 2)) empty_mesh
  = Ok (line3_updated, line3_wide_mesh)
  /\ block_edges_ line3_wide_mesh !! 3 = Some [(0, 1); (0, 2); (1, 2)]
  /\ PartVec_common (part_of line3_updated 0) (part_of line3_updated 1) = 3
  /\ PartVec_common (part_of line3_updated 0) (part_of line3_updated 2) = 3
  /\ (0 = 0 \/ 0 = 2 \/ 1 = 0 \/ 1 = 2 ->
      take 3 (part_of line3_updated 0) = take 3 (part_of line3_updated 1)
      /\ take 3 (part_of line3_updated 1) = take 3 (part_of line3_updated 0)
      /\ take 3 (part_of line3_updated 0) = take 3 (part_of line3_updated 2)).
Proof.
  split; [exact update_line3_wide|]. split; [reflexivity|].
  apply (update_block_edges_same_block
           reverse_search one_part one_part_from unit_box exact 1 3 255
           line3 (radius_const (5 # 2)) empty_mesh
           line3_updated line3_wide_mesh update_line3_wide
           3 [(0, 1); (0, 2); (1, 2)] 0 1 0 2).
  - reflexivity.
  - by left.
  - right. by left.
Defined.

(** C1 (as stated) fails: on three particles that all lie within the radius
    of each other, with one thread, the last bucket holds the pairs (0, 1)
    and (0, 2), which share particle 0 and are different pairs. *)
Lemma update_block_edges_share_particle :
  update reverse_search one_part one_part_from unit_box exact 1 3 255
         line3 (radius_const (5 # 2)) empty_mesh
  = Ok (line3_updated, line3_wide_mesh)
  /\ block_edges_ line3_wide_mesh !! 3 = Some [(0, 1); (0, 2); (1, 2)]
  /\ ~ (forall k bucket a b c d,
          block_edges_ line3_wide_mesh !! k = Some bucket ->
          (a, b) ∈ bucket -> (c, d) ∈ bucket ->
          (a <> c /\ a <> d /\ b <> c /\ b <> d)
          \/ (a, b) = (c, d) \/ (a, b) = (d, c)).
Proof.
  split; [exact update_line3_wide|]. split; [reflexivity|].
  intros H.
  destruct (H 3 [(0, 1); (0, 2); (1, 2)] 0 1 0 2) as [(? & _)|[[=]|[=]]].
  - reflexivity.
  - by left.
  - right. by left.
  - done.
Qed.

(** ** Rounding up: [divide_up] and [align_up] *)

Lemma uint_wrap_small bits z :
  (0 <= z < 2 ^ bits)%Z -> UInt.wrap bits z = z.
Proof. intros H. unfold UInt.wrap. by apply Z.mod_small. Qed.

Lemma uint_divide_up_nowrap bits n d :
  (0 <= bits)%Z -> (0 <= n)%Z -> (0 < d)%Z -> (n + d <= 2 ^ bits)%Z ->
  UInt.divide_up bits n d = ((n + d - 1) / d)%Z.
Proof.
  intros Hb Hn Hd Hfit. unfold UInt.divide_up.
  destruct (bits <? UInt.int_bits)%Z.
  { (* computed in [int]: the quotient fits the type *)
    apply uint_wrap_small. split; [apply Z.div_pos; lia|].
    apply Z.div_lt_upper_bound; [done|]. nia. }
  destruct (decide (n + d = 2 ^ bits)%Z) as [Heq|Hne].
  - (* n + divisor wraps to 0, and 0 - 1 wraps to 2^bits - 1 = n + d - 1 *)
    unfold UInt.wrap at 2. rewrite Heq, Z.mod_same by lia.
    unfold UInt.wrap.
    replace (0 - 1)%Z with (-1)%Z by lia.
    assert ((-1) mod 2 ^ bits = 2 ^ bits - 1)%Z as ->; [|done].
    symmetry. apply Z.mod_unique with (q := (-1)%Z); lia.
  - rewrite (uint_wrap_small bits (n + d)) by lia.
    rewrite uint_wrap_small by lia. done.
Qed.

(** Where the sum does not fit the type: an [unsigned char] is promoted and
    the quotient is right; a 64-bit sum wraps around to 0. *)
Example divide_up_overflow :
  UInt.divide_up 8 200 100 = 2%Z
  /\ UInt.divide_up 64 (2 ^ 64 - 1) 2 = 0%Z.
Proof. split; vm_compute; reflexivity. Qed.

Lemma Z_ceil_bounds n d :
  (0 <= n)%Z -> (0 < d)%Z ->
  (((n + d - 1) / d - 1) * d < n <= (n + d - 1) / d * d)%Z.
Proof.
  intros Hn Hd.
  pose proof (Z.div_mod (n + d - 1) d ltac:(lia)) as Hdm.
  pose proof (Z.mod_pos_bound (n + d - 1) d Hd) as Hr.
  nia.
Qed.

(** X1.  [divide_up] over an unsigned type of [bits] bits rounds the quotient
    up: as long as [n + divisor] does not overflow the type (it may be
    [2 ^ bits] itself, which wraps to zero), the result [q] is the one number
    with [(q - 1) * divisor < n <= q * divisor], and it is the value of
    [divide_up] over the natural numbers that the partitioners are modelled
    with. *)
Theorem divide_up_rounds_up :
  forall (bits n divisor : Z),
    (0 <= bits)%Z -> (0 <= n)%Z -> (0 < divisor)%Z ->
    (n + divisor <= 2 ^ bits)%Z ->
    let q := UInt.divide_up bits n divisor in
    ((q - 1) * divisor < n <= q * divisor)%Z
    /\ (forall n' d' : nat,
          n = Z.of_nat n' -> divisor = Z.of_nat d' ->
          q = Z.of_nat (divide_up n' d')).
Proof.
  intros bits n d Hb Hn Hd Hfit q. subst q.
  rewrite uint_divide_up_nowrap by done.
  split; [by apply Z_ceil_bounds|].
  intros n' d' -> ->. unfold divide_up.
  rewrite Nat2Z.inj_div, Nat2Z.inj_sub, Nat2Z.inj_add by lia. done.
Qed.

Lemma divide_up_rounds_up_witness :
  ((UInt.divide_up 64 10 4 - 1) * 4 < 10 <= UInt.divide_up 64 10 4 * 4)%Z.
Proof.
  apply (divide_up_rounds_up 64 10 4);
    [lia | lia | lia | vm_compute; discriminate].
Defined.

(** X2.  [align_up] returns the least multiple of [alignment] that is not
    below [n], which is less than [n + alignment], as long as
    [n + alignment] does not overflow the type. *)
Theorem align_up_least_multiple :
  forall (bits n alignment : Z),
    (0 <= bits)%Z -> (0 <= n)%Z -> (0 < alignment)%Z ->
    (n + alignment <= 2 ^ bits)%Z ->
    let m := UInt.align_up bits n alignment in
    (alignment | m)%Z
    /\ (n <= m < n + alignment)%Z
    /\ (forall m', (alignment | m')%Z -> (n <= m')%Z -> (m <= m')%Z).
Proof.
  intros bits n a Hb Hn Ha Hfit m. subst m. unfold UInt.align_up.
  rewrite uint_divide_up_nowrap by done.
  pose proof (Z_ceil_bounds n a Hn Ha) as [Hlo Hhi].
  set (q := ((n + a - 1) / a)%Z) in *.
  assert (0 <= q)%Z as Hq by (apply Z.div_pos; lia).
  rewrite uint_wrap_small by nia.
  split; [by apply Z.divide_factor_r|].
  split; [nia|].
  intros m' [k ->] Hm'.
  assert (q <= k)%Z; [|nia].
  destruct (decide (q <= k)%Z); [done|]. nia.
Qed.

Lemma align_up_least_multiple_witness :
  (4 | UInt.align_up 64 10 4)%Z /\ (10 <= UInt.align_up 64 10 4 < 10 + 4)%Z.
Proof.
  pose proof (align_up_least_multiple 64 10 4 ltac:(lia) ltac:(lia) ltac:(lia)
                ltac:(vm_compute; discriminate)) as H.
  split; apply H.
Defined.

(** ** [UniformPartition] *)

Lemma fold_insert_seq {A} (x : A) (l : list A) first len :
  first + len <= length l ->
  fold_left (fun parts i => <[i := x]> parts) (seq first len) l
  = take first l ++ replicate len x ++ drop (first + len) l.
Proof.
  induction len as [|len IH]; intros Hle.
  - simpl. rewrite Nat.add_0_r. by rewrite take_drop.
  - rewrite seq_S, fold_left_app, IH by lia. cbn [fold_left].
    rewrite insert_app_r_alt; rewrite length_take; [|lia].
    rewrite insert_app_r_alt; rewrite length_replicate; [|lia].
    replace (first + len - first `min` length l - len) with 0 by lia.
    destruct (lookup_lt_is_Some_2 l (first + len) ltac:(lia)) as [y Hy].
    rewrite (drop_S _ _ _ Hy).
    replace (first + S len) with (S (first + len)) by lia.
    set (rest := drop (S (first + len)) l).
    simpl. f_equal.
    change (x :: replicate len x ++ rest) with (replicate (S len) x ++ rest).
    rewrite replicate_S_end, <- app_assoc. done.
Qed.

Lemma blocks_length n K k :
  length (concat ((fun p => replicate (chunk_first n K (p + 1)
                                       - chunk_first n K p) p) <$> seq 0 k))
  = chunk_first n K k.
Proof.
  induction k as [|k IH].
  - simpl. by rewrite chunk_first_0.
  - rewrite seq_S, fmap_app, concat_app, length_app, IH.
    simpl. rewrite length_app, length_replicate. simpl.
    replace (S k) with (k + 1) by lia.
    pose proof (chunk_first_mono n K k (k + 1) ltac:(lia)). lia.
Qed.

(** The parts as [UniformPartition] lays them out: part after part, each as
    long as its range of nodes. *)
Lemma UniformPartition_blocks_prefix graph parts K k :
  0 < K -> k <= K -> length parts = num_nodes graph ->
  let n := num_nodes graph in
  fold_left
    (fun parts part =>
       let first := part * (n / K) + min part (n mod K) in
       let last := (part + 1) * (n / K) + min (part + 1) (n mod K) in
       fold_left (fun parts i => <[i := part]> parts)
                 (seq first (last - first)) parts)
    (seq 0 k) parts
  = concat ((fun p => replicate (chunk_first n K (p + 1) - chunk_first n K p) p)
            <$> seq 0 k)
    ++ drop (chunk_first n K k) parts.
Proof.
  intros HK Hk Hlen n. induction k as [|k IH].
  - simpl. by rewrite chunk_first_0, drop_0.
  - rewrite seq_S, fold_left_app, IH by lia. cbn [fold_left]. simpl plus.
    change (k * (n / K) + k `min` (n mod K)) with (chunk_first n K k).
    change ((k + 1) * (n / K) + (k + 1) `min` (n mod K))
      with (chunk_first n K (k + 1)).
    pose proof (chunk_first_mono n K k (k + 1) ltac:(lia)) as Hmono.
    pose proof (chunk_first_le n K (k + 1) HK ltac:(lia)) as Hle.
    pose proof (blocks_length n K k) as HB.
    set (B := concat _) in *.
    rewrite fold_insert_seq.
    2:{ rewrite length_app, HB, length_drop. lia. }
    rewrite <- HB at 1. rewrite take_app_length.
    rewrite fmap_app, concat_app. simpl. rewrite app_nil_r.
    rewrite <- app_assoc. f_equal. f_equal.
    rewrite drop_app_ge by lia. rewrite drop_drop. f_equal.
    replace (S k) with (k + 1) by lia. lia.
Qed.

Lemma UniformPartition_blocks graph parts K :
  0 < K -> length parts = num_nodes graph ->
  UniformPartition graph parts K
  = concat ((fun p => replicate (chunk_first (num_nodes graph) K (p + 1)
                                 - chunk_first (num_nodes graph) K p) p)
            <$> seq 0 K).
Proof.
  intros HK Hlen. unfold UniformPartition.
  pose proof (UniformPartition_blocks_prefix graph parts K K HK ltac:(lia) Hlen)
    as Hp.
  cbv zeta in Hp. cbv zeta. rewrite Hp.
  rewrite chunk_first_last by done.
  rewrite drop_ge by lia. by rewrite app_nil_r.
Qed.


Lemma blocks_lookup n K k i p :
  p < k -> chunk_first n K p <= i < chunk_first n K (p + 1) ->
  concat ((fun p => replicate (chunk_first n K (p + 1) - chunk_first n K p) p)
          <$> seq 0 k) !! i = Some p.
Proof.
  intros Hp Hi.
  replace k with ((p + 1) + (k - (p + 1))) by lia.
  rewrite seq_app, fmap_app, concat_app.
  rewrite lookup_app_l by (rewrite blocks_length; lia).
  rewrite seq_app, fmap_app, concat_app.
  rewrite lookup_app_r by (rewrite blocks_length; lia).
  rewrite blocks_length. simpl. rewrite app_nil_r.
  apply lookup_replicate_2. lia.
Qed.

Lemma chunk_of_index n K k i :
  i < chunk_first n K k ->
  exists p, p < k /\ chunk_first n K p <= i < chunk_first n K (p + 1).
Proof.
  induction k as [|k IH]; intros Hi.
  - rewrite chunk_first_0 in Hi. lia.
  - destruct (decide (i < chunk_first n K k)) as [Hlt|Hge].
    + destruct (IH Hlt) as (p & Hp & Hb). exists p. split; [lia|done].
    + exists k. replace (k + 1) with (S k) by lia. split; lia.
Qed.

Lemma chunk_of_index_unique n K i p q :
  chunk_first n K p <= i < chunk_first n K (p + 1) ->
  chunk_first n K q <= i < chunk_first n K (q + 1) ->
  p = q.
Proof.
  intros Hp Hq.
  destruct (decide (p = q)) as [|Hne]; [done|].
  destruct (decide (p < q)).
  - pose proof (chunk_first_mono n K (p + 1) q ltac:(lia)). lia.
  - pose proof (chunk_first_mono n K (q + 1) p ltac:(lia)). lia.
Qed.

(** X3.  [UniformPartition] over at least one part keeps the length of
    [parts], gives every node a part below [num_parts], and cuts the nodes
    into consecutive blocks: part [p] holds the nodes from
    [p * (n / K) + min p (n mod K)] up to the beginning of part [p + 1], so
    that the part never decreases along the nodes. *)
Theorem UniformPartition_contiguous :
  forall (graph : list (nat * list (nat * nat))) (parts : list nat)
         (num_parts : nat),
    0 < num_parts ->
    length parts = num_nodes graph ->
    let n := num_nodes graph in
    let result := UniformPartition graph parts num_parts in
    length result = n
    /\ (forall i, i < n ->
          exists part,
            result !! i = Some part
            /\ part < num_parts
            /\ part * (n / num_parts) + min part (n mod num_parts) <= i
            /\ i < (part + 1) * (n / num_parts)
                   + min (part + 1) (n mod num_parts))
    /\ (forall i j p q,
          i <= j -> result !! i = Some p -> result !! j = Some q -> p <= q).
Proof.
  intros graph parts K HK Hlen n result. subst result.
  rewrite UniformPartition_blocks by done. fold n.
  assert (forall i, i < n ->
            exists p, p < K
              /\ chunk_first n K p <= i < chunk_first n K (p + 1)
              /\ concat ((fun p => replicate (chunk_first n K (p + 1)
                                              - chunk_first n K p) p)
                         <$> seq 0 K) !! i = Some p) as Hpt.
  { intros i Hi. rewrite <- (chunk_first_last n K HK) in Hi.
    destruct (chunk_of_index n K K i Hi) as (p & Hp & Hb).
    exists p. split; [done|]. split; [done|]. by apply blocks_lookup. }
  split; [by rewrite blocks_length, chunk_first_last|].
  split.
  - intros i Hi. destruct (Hpt i Hi) as (p & Hp & Hb & Hl).
    exists p. unfold chunk_first in Hb. repeat split; [done|done|lia|lia].
  - intros i j p q Hij Hi Hj.
    pose proof (lookup_lt_Some _ _ _ Hi) as Hil.
    pose proof (lookup_lt_Some _ _ _ Hj) as Hjl.
    rewrite blocks_length, chunk_first_last in Hil, Hjl by done.
    destruct (Hpt i Hil) as (p' & _ & Hbp & Hlp).
    destruct (Hpt j Hjl) as (q' & _ & Hbq & Hlq).
    assert (p' = p) as -> by congruence.
    assert (q' = q) as -> by congruence.
    destruct (decide (p <= q)) as [|Hgt]; [done|].
    pose proof (chunk_first_mono n K (q + 1) p ltac:(lia)). lia.
Qed.

Lemma UniformPartition_contiguous_witness :
  length (UniformPartition (path_graph 10) (replicate 10 0) 4) = 10.
Proof.
  apply (UniformPartition_contiguous (path_graph 10) (replicate 10 0) 4);
    [lia | reflexivity].
Defined.

(** The unit behaviour: ten nodes in four parts. *)
Example UniformPartition_10_4 :
  UniformPartition (path_graph 10) (replicate 10 7) 4
  = [0; 0; 0; 1; 1; 1; 2; 2; 3; 3].
Proof. vm_compute. reflexivity. Qed.

Lemma filter_replicate_eq (p q s : nat) :
  filter (fun x => x = p) (replicate s q)
  = if decide (q = p) then replicate s q else [].
Proof.
  induction s as [|s IH]; simpl.
  - by destruct (decide (q = p)).
  - rewrite filter_cons, IH. by destruct (decide (q = p)).
Qed.

Lemma blocks_count n K k p :
  length (filter (fun x => x = p)
            (concat ((fun p => replicate (chunk_first n K (p + 1)
                                          - chunk_first n K p) p)
                     <$> seq 0 k)))
  = if decide (p < k)
    then chunk_first n K (p + 1) - chunk_first n K p else 0.
Proof.
  induction k as [|k IH].
  - simpl. by destruct (decide (p < 0)); [lia|].
  - rewrite seq_S, fmap_app, concat_app, filter_app, length_app, IH.
    simpl. rewrite app_nil_r, filter_replicate_eq.
    destruct (decide (k = p)) as [->|Hne].
    + rewrite length_replicate.
      destruct (decide (p < p)); [lia|]. destruct (decide (p < S p)); lia.
    + simpl. destruct (decide (p < k)), (decide (p < S k)); lia.
Qed.

(** X4.  [UniformPartition] is balanced: part [p < num_parts] gets
    [n / num_parts] nodes and one more when [p < n mod num_parts], and no
    other part gets a node; two parts differ by at most one node. *)
Theorem UniformPartition_balanced :
  forall (graph : list (nat * list (nat * nat))) (parts : list nat)
         (num_parts part : nat),
    0 < num_parts ->
    length parts = num_nodes graph ->
    let n := num_nodes graph in
    part_size_of (UniformPartition graph parts num_parts) part
    = if decide (part < num_parts)
      then n / num_parts + (if decide (part < n mod num_parts) then 1 else 0)
      else 0.
Proof.
  intros graph parts K p HK Hlen n. unfold part_size_of.
  rewrite UniformPartition_blocks by done. fold n.
  rewrite blocks_count.
  destruct (decide (p < K)); [|done].
  unfold chunk_first. destruct (decide (p < n mod K)); lia.
Qed.

Lemma UniformPartition_balanced_witness :
  part_size_of (UniformPartition (path_graph 10) (replicate 10 0) 4) 1 = 3.
Proof.
  apply (UniformPartition_balanced (path_graph 10) (replicate 10 0) 4 1);
    [lia | reflexivity].
Defined.

(** ** Coarsening: what the coarse graph keeps of the fine one *)

Section CoarseGraph.
Implicit Types (st : CoarsenState) (g : list (nat * list (nat * nat)))
               (f2c : list (option nat)).

Lemma equality_ranges_fold_concat {A K} `{EqDecision K} (proj : A -> K)
    (l : list A) acc :
  let acc' := fold_left (equality_ranges_step proj) l acc in
  concat acc'.1 ++ acc'.2 = concat acc.1 ++ acc.2 ++ l.
Proof.
  revert acc. induction l as [|x l IH]; intros [closed open]; simpl.
  - by rewrite app_nil_r.
  - rewrite IH. destruct open as [|y open']; simpl.
    + done.
    + destruct (decide (proj y = proj x)); simpl.
      * by rewrite <- !app_assoc.
      * rewrite concat_app. simpl. rewrite app_nil_r, <- !app_assoc. done.
Qed.

Lemma equality_ranges_concat {A K} `{EqDecision K} (proj : A -> K)
    (l : list A) :
  concat (equality_ranges proj l) = l.
Proof.
  unfold equality_ranges, equality_ranges_close.
  pose proof (equality_ranges_fold_concat proj l ([], [])) as Hc.
  simpl in Hc. destruct (fold_left _ _ _) as [closed open]. simpl in *.
  destruct open; [by rewrite app_nil_r in Hc|].
  by rewrite concat_app; simpl; rewrite app_nil_r.
Qed.

Lemma flat_map_add_sum k w (m : list (nat * nat)) :
  sum_list (snd <$> flat_map_add k w m) = sum_list (snd <$> m) + w.
Proof.
  induction m as [|[k' w'] m IH]; cbn [flat_map_add]; [simpl; lia|].
  destruct (k <? k'); [rewrite !fmap_cons; simpl; lia|].
  destruct (k =? k'); rewrite !fmap_cons; cbn [sum_list_with snd];
    [|rewrite IH]; unfold id; lia.
Qed.

Lemma flat_map_add_keys k w (m : list (nat * nat)) x :
  x ∈ (fst <$> flat_map_add k w m) <-> x = k \/ x ∈ (fst <$> m).
Proof.
  induction m as [|[k' w'] m IH]; cbn [flat_map_add].
  - rewrite !fmap_cons, fmap_nil, list_elem_of_singleton, elem_of_nil.
    simpl. tauto.
  - destruct (k <? k') eqn:Hlt.
    { rewrite !fmap_cons, !elem_of_cons. simpl. tauto. }
    destruct (k =? k') eqn:Heq.
    { apply Nat.eqb_eq in Heq as ->. rewrite !fmap_cons, !elem_of_cons.
      simpl. tauto. }
    rewrite !fmap_cons, !elem_of_cons, IH. simpl. tauto.
Qed.

Lemma build_coarse_graph_nodes g c2f f2c :
  build_coarse_graph g c2f f2c
  = coarse_node_of g f2c <$> equality_ranges (fun fn => f2c !! fn) c2f.
Proof.
  unfold build_coarse_graph.
  generalize (equality_ranges (fun fn => f2c !! fn) c2f). intros rs.
  rewrite <- (app_nil_l (coarse_node_of g f2c <$> rs)).
  generalize (@nil (nat * list (nat * nat))).
  induction rs as [|run rs IH]; intros acc.
  - simpl. by rewrite app_nil_r.
  - cbn [fold_left]. rewrite fmap_cons.
    change (acc ++ coarse_node_of g f2c run :: (coarse_node_of g f2c <$> rs))
      with (acc ++ [coarse_node_of g f2c run] ++ (coarse_node_of g f2c <$> rs)).
    rewrite app_assoc, <- IH. f_equal.
    transitivity (let '(cw, cn) := coarse_node_of g f2c run in
                  append_node acc cw cn); [reflexivity|].
    by destruct (coarse_node_of g f2c run) as [cw cn].
Qed.

Lemma coarse_node_fold_weight g f2c fine_nodes acc :
  (fold_left (coarse_node_step g f2c) fine_nodes acc).1
  = acc.1 + sum_list (weight g <$> fine_nodes).
Proof.
  revert acc. induction fine_nodes as [|a l IH]; intros [cw cn].
  - simpl. lia.
  - cbn [fold_left]. rewrite IH, fmap_cons. simpl. lia.
Qed.

(** The weight of the coarse node is the sum of the fine weights. *)
Lemma coarse_node_of_weight g f2c fine_nodes :
  (coarse_node_of g f2c fine_nodes).1 = sum_list (weight g <$> fine_nodes).
Proof. unfold coarse_node_of. by rewrite coarse_node_fold_weight. Qed.

Lemma sum_list_concat (ls : list (list nat)) :
  sum_list (concat ls) = sum_list (sum_list <$> ls).
Proof.
  induction ls as [|l ls IH]; simpl; [done|].
  by rewrite sum_list_with_app, IH.
Qed.

Lemma sum_list_fmap_concat {A} (f : A -> nat) (ls : list (list A)) :
  sum_list ((fun l => sum_list (f <$> l)) <$> ls) = sum_list (f <$> concat ls).
Proof.
  induction ls as [|l ls IH]; [done|].
  rewrite fmap_cons. cbn [sum_list_with concat].
  rewrite fmap_app, sum_list_with_app, <- IH. done.
Qed.

Lemma sum_list_Permutation (l k : list nat) :
  l ≡ₚ k -> sum_list l = sum_list k.
Proof. induction 1; simpl; lia. Qed.

Lemma weight_seq g : weight g <$> seq 0 (num_nodes g) = fst <$> g.
Proof.
  apply list_eq. intros i. rewrite !list_lookup_fmap.
  unfold num_nodes.
  destruct (decide (i < length g)) as [Hlt|Hge].
  - rewrite lookup_seq_lt by done. simpl. unfold weight.
    destruct (lookup_lt_is_Some_2 g i Hlt) as [nd ->]. done.
  - rewrite lookup_seq_ge by lia. by rewrite lookup_ge_None_2 by lia.
Qed.

(** With every node mapped, [coarse_to_fine] lists the nodes of the fine
    graph, each once. *)
Lemma coarsen_inv_Permutation n st m :
  coarsen_inv n st m ->
  (forall a, a < n -> a ∈ coarse_to_fine st) ->
  coarse_to_fine st ≡ₚ seq 0 n.
Proof.
  intros [Hlen Hnd Hmap Hst] Hall.
  apply NoDup_Permutation; [done|apply NoDup_seq|].
  intros a. rewrite elem_of_seq. split.
  - intros [c Hc%lookup_lt_Some]%Hmap. lia.
  - intros [_ Ha]. apply Hall. lia.
Qed.

Lemma coarsen_inv_total_weight g st m :
  coarsen_inv (num_nodes g) st m ->
  (forall a, a < num_nodes g -> a ∈ coarse_to_fine st) ->
  total_weight (build_coarse_graph g (coarse_to_fine st) (fine_to_coarse st))
  = total_weight g.
Proof.
  intros Hinv Hall. unfold total_weight.
  rewrite build_coarse_graph_nodes, <- list_fmap_compose.
  erewrite list_fmap_ext; [|intros i run _; apply coarse_node_of_weight].
  rewrite sum_list_fmap_concat, equality_ranges_concat.
  rewrite <- weight_seq. apply sum_list_Permutation, fmap_Permutation.
  by eapply coarsen_inv_Permutation.
Qed.

(** *** The fine nodes of a coarse node *)

Lemma elem_of_group_of f2c c a :
  a ∈ group_of f2c c <-> f2c !! a = Some (Some c).
Proof.
  unfold group_of. rewrite list_elem_of_filter, elem_of_seq. split.
  - by intros [? _].
  - intros Ha. split; [done|]. apply lookup_lt_Some in Ha. lia.
Qed.

Lemma NoDup_group_of f2c c : NoDup (group_of f2c c).
Proof. apply NoDup_filter, NoDup_seq. Qed.

Lemma group_of_nil f2c c :
  group_of f2c c = [] <-> forall a, f2c !! a <> Some (Some c).
Proof.
  split.
  - intros Hnil a Ha%elem_of_group_of. rewrite Hnil in Ha.
    by apply elem_of_nil in Ha.
  - intros Hno. destruct (group_of f2c c) as [|a l] eqn:Hg; [done|].
    exfalso. apply (Hno a), elem_of_group_of. rewrite Hg. by left.
Qed.

(** Mapping an unmapped node adds it to the group of its coarse node and
    changes no other group. *)
Lemma group_of_insert f2c x c c' :
  f2c !! x = Some None ->
  group_of (<[x := Some c]> f2c) c'
  ≡ₚ if decide (c' = c) then x :: group_of f2c c' else group_of f2c c'.
Proof.
  intros Hx. pose proof (lookup_lt_Some _ _ _ Hx) as Hlt.
  apply NoDup_Permutation.
  - apply NoDup_group_of.
  - destruct (decide (c' = c)); [|apply NoDup_group_of].
    apply NoDup_cons. split; [|apply NoDup_group_of].
    rewrite elem_of_group_of. congruence.
  - intros a. rewrite elem_of_group_of.
    destruct (decide (a = x)) as [->|Hne].
    + rewrite list_lookup_insert_eq by done.
      destruct (decide (c' = c)) as [->|Hc].
      * split; [by left|done].
      * rewrite elem_of_group_of. split; congruence.
    + rewrite list_lookup_insert_ne by done.
      destruct (decide (c' = c)) as [->|Hc].
      * rewrite elem_of_cons, elem_of_group_of. split; [by right|].
        by intros [?|?].
      * by rewrite elem_of_group_of.
Qed.

Lemma group_of_insert_length f2c x c c' :
  f2c !! x = Some None ->
  length (group_of (<[x := Some c]> f2c) c')
  = length (group_of f2c c') + (if decide (c' = c) then 1 else 0).
Proof.
  intros Hx. rewrite (group_of_insert f2c x c c' Hx).
  destruct (decide (c' = c)); simpl; lia.
Qed.

(** A coarse index in use is below the number of coarse nodes opened. *)
Lemma coarsen_inv_bound n st m a c :
  coarsen_inv n st m -> fine_to_coarse st !! a = Some (Some c) -> c < m.
Proof.
  intros [Hlen Hnd Hmap Hst] Hc.
  assert (a ∈ coarse_to_fine st) as Ha by (apply Hmap; eauto).
  pose proof (stairs_bound _ _ _ _ Hst Ha) as Hb.
  by rewrite (coarse_of_mapped _ _ _ Hc) in Hb.
Qed.

Lemma coarsen_inv_fresh n st m c :
  coarsen_inv n st m -> m <= c -> group_of (fine_to_coarse st) c = [].
Proof.
  intros Hinv Hle. apply group_of_nil. intros a Ha.
  pose proof (coarsen_inv_bound _ _ _ _ _ Hinv Ha). lia.
Qed.

(** The run of [coarse_to_fine] that makes coarse node [c] holds the fine
    nodes mapped to [c]. *)
Lemma coarsen_inv_run_group n st m c :
  coarsen_inv n st m ->
  filter (fun x => coarse_of (fine_to_coarse st) x = c) (coarse_to_fine st)
  ≡ₚ group_of (fine_to_coarse st) c.
Proof.
  intros [Hlen Hnd Hmap Hst].
  apply NoDup_Permutation; [by apply NoDup_filter|apply NoDup_group_of|].
  intros a. rewrite list_elem_of_filter, elem_of_group_of. split.
  - intros [Hc [c' Hc']%Hmap].
    rewrite (coarse_of_mapped _ _ _ Hc') in Hc. by subst.
  - intros Hc. split; [by apply coarse_of_mapped|]. apply Hmap. eauto.
Qed.

Lemma coarsen_inv_lookup g st m c :
  coarsen_inv (num_nodes g) st m -> c < m ->
  exists run,
    build_coarse_graph g (coarse_to_fine st) (fine_to_coarse st) !! c
    = Some (coarse_node_of g (fine_to_coarse st) run)
    /\ run ≡ₚ group_of (fine_to_coarse st) c.
Proof.
  intros Hinv Hc. eexists. split.
  - rewrite build_coarse_graph_nodes, (coarsen_inv_ranges _ _ _ Hinv).
    rewrite list_lookup_fmap, list_lookup_fmap, lookup_seq_lt by done.
    simpl. reflexivity.
  - by eapply coarsen_inv_run_group.
Qed.

Lemma coarsen_inv_weights g st m :
  coarsen_inv (num_nodes g) st m ->
  (forall a, a < num_nodes g -> a ∈ coarse_to_fine st) ->
  weights_conserved g
    (build_coarse_graph g (coarse_to_fine st) (fine_to_coarse st),
     coarse_to_fine st, fine_to_coarse st).
Proof.
  intros Hinv Hall. split; [by eapply coarsen_inv_total_weight|].
  intros c Hc.
  rewrite build_coarse_graph_num_nodes, (coarsen_inv_ranges _ _ _ Hinv) in Hc.
  rewrite length_fmap, length_seq in Hc.
  destruct (coarsen_inv_lookup g st m c Hinv Hc) as (run & Hl & Hp).
  unfold weight at 1. rewrite Hl. simpl.
  rewrite coarse_node_of_weight.
  by apply sum_list_Permutation, fmap_Permutation.
Qed.

End CoarseGraph.

(** X5.  [CoarsenHEM] and [CoarsenGEM] keep the node weights: the weight of
    a coarse node is the sum of the weights of the fine nodes mapped to it,
    and the coarse graph weighs as much as the fine one. *)
Theorem coarsen_weights_conserved :
  forall (randomized_hash : list nat -> nat) (rng : nat -> nat -> bool)
         (weight_npos : nat) (fine_graph : list (nat * list (nat * nat))),
    weights_conserved fine_graph
      (CoarsenHEM randomized_hash rng weight_npos fine_graph)
    /\ weights_conserved fine_graph
         (CoarsenGEM randomized_hash fine_graph).
Proof.
  intros randomized_hash rng weight_npos g. split.
  - unfold CoarsenHEM.
    destruct (hem_matching_inv randomized_hash rng weight_npos g)
      as (m & Hinv & Hall).
    by eapply coarsen_inv_weights.
  - unfold CoarsenGEM.
    destruct (gem_matching_inv randomized_hash g) as (Hinv & Hall).
    by eapply coarsen_inv_weights.
Qed.

(** ** Coarsening: the size of the groups *)

Section GroupSizes.
Variable randomized_hash : list nat -> nat.
Variable rng : nat -> nat -> bool.
Variable weight_npos : nat.
Implicit Types (st : CoarsenState) (g : list (nat * list (nat * nat)))
               (f2c : list (option nat)).

(** Mapping a node to a coarse node without fine nodes, and to one that has
    at most one. *)
Lemma sizes_map f2c x c k :
  (forall c', length (group_of f2c c') <= 2) ->
  length (group_of f2c c) <= k -> k <= 1 ->
  f2c !! x = Some None ->
  (forall c', length (group_of (<[x := Some c]> f2c) c') <= 2)
  /\ length (group_of (<[x := Some c]> f2c) c) <= S k.
Proof.
  intros Hle Hc Hk Hx. split.
  - intros c'. rewrite group_of_insert_length by done.
    specialize (Hle c'). destruct (decide (c' = c)) as [->|]; lia.
  - rewrite group_of_insert_length by done.
    rewrite decide_True by done. lia.
Qed.

(** *** GEM *)

Lemma gem_edge_step_sizes n st we :
  coarsen_inv n st (coarse_node st) ->
  (forall c, length (group_of (fine_to_coarse st) c) <= 2) ->
  forall c, length (group_of (fine_to_coarse (gem_edge_step st we)) c) <= 2.
Proof.
  intros Hinv Hle. destruct we as [[a b] w]. unfold gem_edge_step.
  destruct (is_mapped (fine_to_coarse st) a) eqn:Ha; [done|].
  destruct (is_mapped (fine_to_coarse st) b) eqn:Hb; [done|].
  apply is_mapped_false in Ha, Hb. simpl.
  pose proof (coarsen_inv_fresh n st _ (coarse_node st) Hinv ltac:(lia))
    as Hfresh.
  destruct (decide (a = b)) as [->|Hab].
  - rewrite list_insert_insert_eq.
    apply (sizes_map _ b (coarse_node st) 0); [done| |lia|done].
    by rewrite Hfresh.
  - destruct (sizes_map _ a (coarse_node st) 0 Hle) as [Hle1 Hc1];
      [by rewrite Hfresh|lia|done|].
    apply (sizes_map _ b (coarse_node st) 1); [done|done|lia|].
    by rewrite list_lookup_insert_ne.
Qed.

Lemma gem_node_step_sizes n st a :
  coarsen_inv n st (coarse_node st) ->
  (forall c, length (group_of (fine_to_coarse st) c) <= 2) ->
  forall c, length (group_of (fine_to_coarse (gem_node_step st a)) c) <= 2.
Proof.
  intros Hinv Hle. unfold gem_node_step.
  destruct (is_mapped (fine_to_coarse st) a) eqn:Ha; [done|].
  apply is_mapped_false in Ha. simpl.
  apply (sizes_map _ a (coarse_node st) 0); [done| |lia|done].
  by rewrite (coarsen_inv_fresh n st _ (coarse_node st) Hinv).
Qed.

Lemma gem_matching_sizes g :
  forall c,
    length (group_of (fine_to_coarse (gem_matching randomized_hash g)) c) <= 2.
Proof.
  unfold gem_matching, gem_matching_of.
  assert (Forall (fun we : nat * nat * nat => we.1.1 <> we.1.2)
                 (gem_order randomized_hash g)) as Hne.
  { apply Forall_forall. intros [[a b] w] Hin.
    unfold gem_order, par_sort in Hin.
    rewrite merge_sort_Permutation in Hin.
    apply wedges_ordered in Hin. simpl. lia. }
  assert (forall es st,
            Forall (fun we : nat * nat * nat => we.1.1 <> we.1.2) es ->
            coarsen_inv (num_nodes g) st (coarse_node st) ->
            (forall c, length (group_of (fine_to_coarse st) c) <= 2) ->
            forall c,
              length (group_of (fine_to_coarse
                                  (fold_left gem_edge_step es st)) c) <= 2)
    as Hedges.
  { induction es as [|[[a b] w] es IH]; intros st Hf Hinv Hle; [done|].
    apply Forall_cons in Hf as [Hab Hf]. simpl in Hab. cbn [fold_left].
    apply IH; [done| |by eapply gem_edge_step_sizes].
    by apply (gem_edge_step_inv (num_nodes g) st a b w Hab Hinv). }
  assert (forall l st,
            coarsen_inv (num_nodes g) st (coarse_node st) ->
            (forall c, length (group_of (fine_to_coarse st) c) <= 2) ->
            forall c,
              length (group_of (fine_to_coarse
                                  (fold_left gem_node_step l st)) c) <= 2)
    as Hnodes.
  { induction l as [|a l IH]; intros st Hinv Hle; [done|].
    cbn [fold_left]. apply IH; [|by eapply gem_node_step_sizes].
    by apply (gem_node_step_inv (num_nodes g) st a Hinv). }
  apply Hnodes.
  - apply gem_edges_loop_inv; [done|apply coarsen_inv_init].
  - apply Hedges; [done|apply coarsen_inv_init|].
    intros c.
    rewrite (coarsen_inv_fresh _ _ 0 c (coarsen_inv_init _)); simpl; lia.
Qed.

(** *** HEM *)

Lemma hem_step_sizes g st draws a :
  hem_sizes_inv (num_nodes g) st ->
  hem_sizes_inv (num_nodes g) (hem_step rng weight_npos g (st, draws) a).1.
Proof.
  intros [Hle Hinv]. unfold hem_step.
  destruct (is_mapped (fine_to_coarse st) a) eqn:Ha; [done|].
  set (n := num_nodes g) in *.
  (* the node is mapped and the coarse node advanced *)
  assert (coarsen_inv n (map_to_coarse st a) (S (coarse_node st))
          /\ forall c,
               length (group_of (fine_to_coarse (map_to_coarse st a)) c) <= 2)
    as [Hinv1 Hle1].
  { pose proof Ha as Ha'. apply is_mapped_false in Ha'.
    destruct Hinv as [Hinv|[Hinv H1]].
    - split; [by apply coarsen_inv_map_fresh|]. simpl.
      apply (sizes_map _ a (coarse_node st) 0); [done| |lia|done].
      by rewrite (coarsen_inv_fresh n st _ (coarse_node st) Hinv).
    - split; [by apply coarsen_inv_map_open|]. simpl.
      by apply (sizes_map _ a (coarse_node st) 1). }
  apply coarsen_inv_next in Hinv1.
  set (st2 := next_coarse_node (map_to_coarse st a)) in *.
  change (fine_to_coarse (map_to_coarse st a)) with (fine_to_coarse st2)
    in Hle1.
  change (S (coarse_node st)) with (coarse_node st2) in Hinv1.
  destruct (fold_left _ _ _) as [[best bw] draws'] eqn:Hfold.
  destruct best as [b|]; simpl.
  - apply hem_best_unmapped in Hfold; [|by intros b0 [=]].
    pose proof Hfold as Hb. apply is_mapped_false in Hb.
    destruct (sizes_map _ b (coarse_node st2) 0 Hle1) as [Hle2 Hc2];
      [by rewrite (coarsen_inv_fresh n st2 _ (coarse_node st2) Hinv1)
      |lia|done|].
    split; [done|]. right. split; [|done].
    by apply (coarsen_inv_map_fresh n st2 b).
  - split; [done|by left].
Qed.

Lemma hem_matching_sizes g :
  forall c,
    length (group_of (fine_to_coarse
                        (hem_matching randomized_hash rng weight_npos g)) c)
    <= 2.
Proof.
  unfold hem_matching.
  assert (forall l st draws,
            hem_sizes_inv (num_nodes g) st ->
            hem_sizes_inv (num_nodes g)
              (fold_left (hem_step rng weight_npos g) l (st, draws)).1) as Hl.
  { induction l as [|a l IH]; intros st draws Hinv; [done|].
    cbn [fold_left].
    pose proof (hem_step_sizes g st draws a Hinv) as Hstep.
    destruct (hem_step rng weight_npos g (st, draws) a) as [st1 draws1].
    by apply IH. }
  apply Hl. split.
  - intros c.
    rewrite (coarsen_inv_fresh _ _ 0 c (coarsen_inv_init _)); simpl; lia.
  - left. apply coarsen_inv_init.
Qed.

End GroupSizes.

(** *** Counting the fine nodes group by group *)

Lemma filter_or_length {A} (P Q R : A -> Prop)
    `{!forall x, Decision (P x), !forall x, Decision (Q x),
      !forall x, Decision (R x)} (l : list A) :
  (forall x, x ∈ l -> R x <-> P x \/ Q x) ->
  (forall x, x ∈ l -> P x -> Q x -> False) ->
  length (filter R l) = length (filter P l) + length (filter Q l).
Proof.
  induction l as [|x l IH]; intros HR Hdisj; [done|].
  rewrite !filter_cons.
  specialize (IH (fun y Hy => HR y (list_elem_of_further _ _ _ Hy))
                 (fun y Hy => Hdisj y (list_elem_of_further _ _ _ Hy))).
  pose proof (HR x (list_elem_of_here _ _)) as HRx.
  pose proof (Hdisj x (list_elem_of_here _ _)) as Hdx.
  destruct (decide (R x)), (decide (P x)), (decide (Q x)); simpl;
    (tauto || lia).
Qed.

Lemma group_sizes_sum (f2c : list (option nat)) m :
  (forall a o, f2c !! a = Some o -> exists c, o = Some c /\ c < m) ->
  length f2c = sum_list ((fun c => length (group_of f2c c)) <$> seq 0 m).
Proof.
  intros Hall.
  set (belowb k a := match f2c !! a with
                     | Some (Some c) => c <? k
                     | _ => false
                     end).
  assert (forall k,
            length (filter (fun a => belowb k a = true) (seq 0 (length f2c)))
            = sum_list ((fun c => length (group_of f2c c)) <$> seq 0 k)) as Hk.
  { induction k as [|k IH].
    - simpl. rewrite filter_none; [done|].
      intros a _. unfold belowb. by destruct (f2c !! a) as [[c|]|].
    - rewrite seq_S, fmap_app, sum_list_with_app, <- IH. simpl.
      rewrite Nat.add_0_r. unfold group_of.
      apply filter_or_length.
      + intros a _. unfold belowb.
        destruct (f2c !! a) as [[c|]|];
          [|split; [done|intros [?|?]; done]..].
        rewrite !Nat.ltb_lt. split.
        * intros Hlt. destruct (decide (c = k)) as [->|]; [by right|left; lia].
        * intros [Hlt|[= ->]]; lia.
      + intros a _. unfold belowb. intros Hb Hc. rewrite Hc in Hb.
        apply Nat.ltb_lt in Hb. lia. }
  rewrite <- Hk. rewrite filter_seq_all; [by rewrite length_seq|].
  intros a [_ Ha]. unfold belowb.
  destruct (lookup_lt_is_Some_2 f2c a Ha) as [o Ho]. rewrite Ho.
  destruct (Hall a o Ho) as (c & -> & Hc). by apply Nat.ltb_lt.
Qed.

Lemma coarsen_inv_halves (g : list (nat * list (nat * nat))) st m :
  coarsen_inv (num_nodes g) st m ->
  (forall a, a < num_nodes g -> a ∈ coarse_to_fine st) ->
  (forall c, length (group_of (fine_to_coarse st) c) <= 2) ->
  groups_at_most_two g
    (build_coarse_graph g (coarse_to_fine st) (fine_to_coarse st),
     coarse_to_fine st, fine_to_coarse st).
Proof.
  intros Hinv Hall Hle. unfold groups_at_most_two.
  split; [done|]. split; [by eapply coarsen_inv_num_nodes|].
  rewrite build_coarse_graph_num_nodes, (coarsen_inv_ranges _ _ _ Hinv).
  rewrite length_fmap, length_seq.
  rewrite <- (inv_length _ _ _ Hinv).
  rewrite (group_sizes_sum (fine_to_coarse st) m).
  - assert (forall cs,
              sum_list ((fun c => length (group_of (fine_to_coarse st) c))
                        <$> cs) <= 2 * length cs) as Hs.
    { induction cs as [|c cs IH]; [simpl; lia|].
      rewrite fmap_cons. cbn [sum_list_with length].
      change (id (length (group_of (fine_to_coarse st) c)))
        with (length (group_of (fine_to_coarse st) c)).
      specialize (Hle c). lia. }
    specialize (Hs (seq 0 m)). by rewrite length_seq in Hs.
  - intros a o Ho.
    assert (a < num_nodes g) as Ha.
    { rewrite <- (inv_length _ _ _ Hinv). by eapply lookup_lt_Some. }
    apply Hall, (inv_mapped _ _ _ Hinv) in Ha as [c Hc].
    exists c. split; [congruence|]. by eapply coarsen_inv_bound.
Qed.


(** X6.  [CoarsenHEM] and [CoarsenGEM] merge fine nodes at most two by two:
    no coarse node has more than two fine nodes, and the coarse graph has at
    most as many nodes as the fine graph and at least half as many. *)
Theorem coarsen_groups_at_most_two :
  forall (randomized_hash : list nat -> nat) (rng : nat -> nat -> bool)
         (weight_npos : nat) (fine_graph : list (nat * list (nat * nat))),
    groups_at_most_two fine_graph
      (CoarsenHEM randomized_hash rng weight_npos fine_graph)
    /\ groups_at_most_two fine_graph
         (CoarsenGEM randomized_hash fine_graph).
Proof.
  intros randomized_hash rng weight_npos g. split.
  - unfold CoarsenHEM.
    destruct (hem_matching_inv randomized_hash rng weight_npos g)
      as (m & Hinv & Hall).
    apply (coarsen_inv_halves g _ m Hinv Hall). apply hem_matching_sizes.
  - unfold CoarsenGEM.
    destruct (gem_matching_inv randomized_hash g) as (Hinv & Hall).
    apply (coarsen_inv_halves g _ _ Hinv Hall). apply gem_matching_sizes.
Qed.

(** ** GEM computes a maximal matching *)

Section GemMatching.
Implicit Types (st : CoarsenState) (g : list (nat * list (nat * nat)))
               (f2c : list (option nat)).

Lemma is_mapped_Some f2c a c :
  f2c !! a = Some (Some c) -> is_mapped f2c a = true.
Proof.
  intros Ha. destruct (is_mapped f2c a) eqn:Hm; [done|].
  apply is_mapped_false in Hm. congruence.
Qed.

Lemma gem_edge_step_matching n st visited a b w :
  a <> b -> coarsen_inv n st (coarse_node st) ->
  gem_edges_inv n st visited ->
  gem_edges_inv n (gem_edge_step st (a, b, w)) (visited ++ [(a, b, w)]).
Proof.
  intros Hab Hinv (Hsz & Hpair & Hvis). unfold gem_edge_step.
  destruct (is_mapped (fine_to_coarse st) a) eqn:Ha;
    [|destruct (is_mapped (fine_to_coarse st) b) eqn:Hb].
  1,2: split; [done|]; split;
    [intros x y c Hxy Hx Hy; destruct (Hpair x y c Hxy Hx Hy) as [w' [?|?]];
       exists w'; rewrite !elem_of_app; auto
    |intros x y w' [Hin|[= -> -> ->]%list_elem_of_singleton]%elem_of_app ? ?;
       [by eapply Hvis|auto]].
  apply is_mapped_false in Ha, Hb.
  pose proof (coarsen_inv_fresh n st _ (coarse_node st) Hinv ltac:(lia))
    as Hfresh.
  set (c0 := coarse_node st) in *. simpl.
  assert (<[a := Some c0]> (fine_to_coarse st) !! b = Some None) as Hb1
    by (by rewrite list_lookup_insert_ne).
  pose proof (lookup_lt_Some _ _ _ Ha) as Hla.
  pose proof (lookup_lt_Some _ _ _ Hb) as Hlb.
  assert (forall c,
            length (group_of (<[b := Some c0]>
                                (<[a := Some c0]> (fine_to_coarse st))) c)
            = length (group_of (fine_to_coarse st) c)
              + (if decide (c = c0) then 2 else 0)) as Hlen.
  { intros c. rewrite !group_of_insert_length by done.
    destruct (decide (c = c0)); lia. }
  assert (forall x c,
            <[b := Some c0]> (<[a := Some c0]> (fine_to_coarse st)) !! x
            = Some (Some c) ->
            (c = c0 /\ (x = a \/ x = b))
            \/ (c <> c0 /\ x <> a /\ x <> b
                /\ fine_to_coarse st !! x = Some (Some c))) as Hcase.
  { intros x c Hx.
    destruct (decide (x = b)) as [->|Hxb].
    { rewrite list_lookup_insert_eq in Hx by (by rewrite length_insert).
      left. split; [congruence|by right]. }
    rewrite list_lookup_insert_ne in Hx by done.
    destruct (decide (x = a)) as [->|Hxa].
    { rewrite list_lookup_insert_eq in Hx by done.
      left. split; [congruence|by left]. }
    rewrite list_lookup_insert_ne in Hx by done.
    right. split; [|done]. intros ->.
    apply elem_of_group_of in Hx. rewrite Hfresh in Hx.
    by apply elem_of_nil in Hx. }
  split; [|split].
  - intros x c Hx. rewrite Hlen.
    destruct (Hcase x c Hx) as [[-> _]|(Hc & _ & _ & Hx')].
    + rewrite decide_True by done. by rewrite Hfresh.
    + rewrite decide_False by done. rewrite (Hsz x c Hx'). lia.
  - intros x y c Hxy Hx Hy.
    destruct (Hcase x c Hx) as [[Hc Hxab]|(Hc & _ & _ & Hx')];
      destruct (Hcase y c Hy) as [[Hc' Hyab]|(Hc' & _ & _ & Hy')];
      try done.
    + exists w. rewrite !elem_of_app, !list_elem_of_singleton.
      destruct Hxab as [->| ->], Hyab as [->| ->]; try done; auto.
    + destruct (Hpair x y c Hxy Hx' Hy') as [w' [?|?]];
        exists w'; rewrite !elem_of_app; auto.
  - intros x y w' [Hin|[= -> -> ->]%list_elem_of_singleton]%elem_of_app Hx Hy.
    + destruct (Hvis x y w' Hin Hx Hy) as [Hm|Hm]; [left|right].
      all: destruct (is_mapped_true_lt _ _ Hm) as [c Hc];
        [by rewrite (inv_length _ _ _ Hinv)|].
      all: apply (is_mapped_Some _ _ c); simpl.
      all: rewrite !list_lookup_insert_ne; [done|congruence..].
    + left. apply (is_mapped_Some _ _ c0). simpl.
      rewrite list_lookup_insert_ne by done.
      by rewrite list_lookup_insert_eq.
Qed.

Lemma gem_edges_loop_matching n edges :
  Forall (fun we : nat * nat * nat => we.1.1 <> we.1.2) edges ->
  let st := fold_left gem_edge_step edges (coarsen_init n) in
  coarsen_inv n st (coarse_node st) /\ gem_edges_inv n st edges.
Proof.
  induction edges as [|[[a b] w] edges IH] using rev_ind; intros Hne.
  - split; [apply coarsen_inv_init|]. simpl. split; [|split].
    + intros a c [? _]%lookup_replicate. done.
    + intros a b c _ [? _]%lookup_replicate. done.
    + by intros a b w ?%elem_of_nil.
  - apply Forall_app in Hne as [Hne Hab].
    apply Forall_cons in Hab as [Hab _]. simpl in Hab.
    destruct (IH Hne) as [Hinv Hg]. rewrite fold_left_app. cbn [fold_left].
    split.
    + by apply (gem_edge_step_inv n _ a b w Hab Hinv).
    + by apply gem_edge_step_matching.
Qed.

(** After the loop over the edges the matching is maximal along them; the
    loop over the nodes that stayed unmerged keeps it so. *)
Lemma gem_edges_inv_maximal n st edges :
  coarsen_inv n st (coarse_node st) ->
  gem_edges_inv n st edges ->
  (forall c, length (group_of (fine_to_coarse st) c) <= 2)
  /\ maximal_matching edges n (fine_to_coarse st).
Proof.
  intros Hinv (Hsz & Hpair & Hvis). split; [|split].
  - intros c. destruct (group_of (fine_to_coarse st) c) as [|a l] eqn:Hg;
      [simpl; lia|].
    assert (a ∈ group_of (fine_to_coarse st) c) as Ha
      by (rewrite Hg; by left).
    apply elem_of_group_of in Ha. rewrite <- Hg, (Hsz a c Ha). lia.
  - done.
  - intros a b w Hin Ha Hb.
    destruct (Hvis a b w Hin Ha Hb) as [Hm|Hm]; [left|right].
    all: destruct (is_mapped_true_lt _ _ Hm) as [c Hc];
      [by rewrite (inv_length _ _ _ Hinv)|].
    all: exists c; split; [done|by eapply Hsz].
Qed.

Lemma gem_node_step_matching n st edges x :
  coarsen_inv n st (coarse_node st) ->
  maximal_matching edges n (fine_to_coarse st) ->
  maximal_matching edges n (fine_to_coarse (gem_node_step st x)).
Proof.
  intros Hinv [Hpair Hmax]. unfold gem_node_step.
  destruct (is_mapped (fine_to_coarse st) x) eqn:Hx; [done|].
  apply is_mapped_false in Hx. simpl.
  pose proof (coarsen_inv_fresh n st _ (coarse_node st) Hinv ltac:(lia))
    as Hfresh.
  set (c0 := coarse_node st) in *.
  pose proof (lookup_lt_Some _ _ _ Hx) as Hlx.
  assert (forall y c,
            <[x := Some c0]> (fine_to_coarse st) !! y = Some (Some c) ->
            (c = c0 /\ y = x)
            \/ (c <> c0 /\ y <> x /\ fine_to_coarse st !! y = Some (Some c)))
    as Hcase.
  { intros y c Hy. destruct (decide (y = x)) as [->|Hyx].
    { rewrite list_lookup_insert_eq in Hy by done. left. split; congruence. }
    rewrite list_lookup_insert_ne in Hy by done.
    right. split; [|done]. intros ->.
    apply elem_of_group_of in Hy. rewrite Hfresh in Hy.
    by apply elem_of_nil in Hy. }
  split.
  - intros a b c Hab Ha Hb.
    destruct (Hcase a c Ha) as [[Hc ->]|(Hc & _ & Ha')];
      destruct (Hcase b c Hb) as [[Hc' ->]|(Hc' & _ & Hb')]; try done.
    by apply (Hpair a b c).
  - intros a b w Hin Ha Hb.
    destruct (Hmax a b w Hin Ha Hb) as [(c & Hc & Hsz)|(c & Hc & Hsz)];
      [left|right].
    all: exists c; split.
    1,3: rewrite list_lookup_insert_ne; [done|congruence].
    all: rewrite group_of_insert_length by done.
    all: rewrite decide_False; [lia|]; intros ->.
    all: rewrite Hfresh in Hsz; simpl in Hsz; lia.
Qed.

Lemma gem_matching_of_maximal g edges :
  Forall (fun we : nat * nat * nat => we.1.1 <> we.1.2) edges ->
  maximal_matching edges (num_nodes g)
    (fine_to_coarse (gem_matching_of g edges)).
Proof.
  intros Hne. unfold gem_matching_of.
  destruct (gem_edges_loop_matching (num_nodes g) edges Hne) as [Hinv Hg].
  destruct (gem_edges_inv_maximal _ _ _ Hinv Hg) as [_ Hmax].
  revert Hinv Hmax. generalize (fold_left gem_edge_step edges
                                          (coarsen_init (num_nodes g))).
  generalize (nodes g). intros l. induction l as [|x l IH]; intros st Hinv Hmax;
    [done|].
  cbn [fold_left]. apply IH.
  - by apply (gem_node_step_inv (num_nodes g) st x Hinv).
  - by eapply gem_node_step_matching.
Qed.

End GemMatching.

(** X7.  The fine-to-coarse map of [CoarsenGEM] is a maximal matching of the
    fine graph: two different fine nodes with the same coarse node are joined
    by an edge, and every edge of the graph has an end point that was merged
    with another node, so no further edge could be contracted. *)
Theorem CoarsenGEM_maximal_matching :
  forall (randomized_hash : list nat -> nat)
         (fine_graph : list (nat * list (nat * nat))),
    maximal_matching (wedges fine_graph) (num_nodes fine_graph)
      (CoarsenGEM randomized_hash fine_graph).2.
Proof.
  intros randomized_hash g. unfold CoarsenGEM, gem_matching. simpl.
  assert (gem_order randomized_hash g ≡ₚ wedges g) as Hp
    by apply merge_sort_Permutation.
  assert (Forall (fun we : nat * nat * nat => we.1.1 <> we.1.2)
                 (gem_order randomized_hash g)) as Hne.
  { apply Forall_forall. intros [[a b] w] Hin. rewrite Hp in Hin.
    apply wedges_ordered in Hin. simpl. lia. }
  destruct (gem_matching_of_maximal g _ Hne) as [Hpair Hmax].
  split.
  - intros a b c Hab Ha Hb.
    destruct (Hpair a b c Hab Ha Hb) as [w Hw]. exists w.
    by rewrite <- !Hp.
  - intros a b w Hin. apply (Hmax a b w). by rewrite Hp.
Qed.

(** ** HEM: which coarse node the picked neighbour gets *)

Section HemStep.
Variable rng : nat -> nat -> bool.
Variable weight_npos : nat.
Implicit Types (st : CoarsenState) (g : list (nat * list (nat * nat)))
               (f2c : list (option nat)).

Lemma hem_best_neighbor g f2c ws acc b w d :
  fold_left (hem_best_step rng weight_npos g f2c) ws acc = (Some b, w, d) ->
  acc.1.1 = Some b \/ exists w', (b, w') ∈ ws.
Proof.
  revert acc. induction ws as [|[nb ew] ws IH]; intros acc Hfold.
  - simpl in Hfold. left. by rewrite Hfold.
  - cbn [fold_left] in Hfold. apply IH in Hfold as [Hacc|[w' Hin]].
    + destruct acc as [[best bw] dr]. unfold hem_best_step in Hacc.
      destruct (is_mapped f2c nb); [by left|].
      destruct (greater_or _ _ _); simpl in Hacc; [|by left].
      injection Hacc as ->. right. exists ew. by left.
    + right. exists w'. by right.
Qed.

Lemma hem_step_neighbor g st draws a :
  fine_to_coarse st !! a = Some None ->
  let st' := (hem_step rng weight_npos g (st, draws) a).1 in
  fine_to_coarse st' !! a = Some (Some (coarse_node st))
  /\ coarse_node st' = S (coarse_node st)
  /\ forall b, b <> a ->
       fine_to_coarse st' !! b = fine_to_coarse st !! b
       \/ (fine_to_coarse st !! b = Some None
           /\ fine_to_coarse st' !! b = Some (Some (S (coarse_node st)))
           /\ exists w, (b, w) ∈ wedges_of g a).
Proof.
  intros Ha. pose proof (lookup_lt_Some _ _ _ Ha) as Hla.
  unfold hem_step. rewrite (proj2 (is_mapped_false _ _) Ha).
  set (st2 := next_coarse_node (map_to_coarse st a)).
  destruct (fold_left _ _ _) as [[best bw] draws'] eqn:Hfold.
  destruct best as [b0|]; simpl.
  - pose proof Hfold as Hun.
    apply hem_best_unmapped in Hun; [|by intros b1 [=]].
    apply is_mapped_false in Hun. simpl in Hun.
    apply hem_best_neighbor in Hfold as [[=]|[w' Hin]].
    assert (b0 <> a) as Hne.
    { intros ->. rewrite list_lookup_insert_eq in Hun by done. done. }
    rewrite list_lookup_insert_ne in Hun by done.
    split; [|split; [done|]].
    + rewrite list_lookup_insert_ne by done.
      by rewrite list_lookup_insert_eq.
    + intros b Hb. destruct (decide (b = b0)) as [->|Hbb].
      * right. split; [done|]. split; [|by exists w'].
        apply list_lookup_insert_eq. rewrite length_insert.
        by eapply lookup_lt_Some.
      * left. by rewrite !list_lookup_insert_ne.
  - split; [by rewrite list_lookup_insert_eq|]. split; [done|].
    intros b Hb. left. by rewrite list_lookup_insert_ne.
Qed.

End HemStep.

(** X8.  One round of the loop of [CoarsenHEM] on a fine node that is not
    mapped yet maps it to the current coarse node and then moves on to the
    next coarse node; the only other entry of the map it may change is that
    of one unmapped neighbour of the node, and that neighbour is mapped to
    the next coarse node, not to the coarse node of the node itself. *)
Theorem hem_step_neighbor_next_coarse_node :
  forall (rng : nat -> nat -> bool) (weight_npos : nat)
         (fine_graph : list (nat * list (nat * nat)))
         (st : CoarsenState) (draws fine_node : nat),
    fine_to_coarse st !! fine_node = Some None ->
    let st' := (hem_step rng weight_npos fine_graph (st, draws) fine_node).1 in
    fine_to_coarse st' !! fine_node = Some (Some (coarse_node st))
    /\ coarse_node st' = S (coarse_node st)
    /\ forall b, b <> fine_node ->
         fine_to_coarse st' !! b = fine_to_coarse st !! b
         \/ (fine_to_coarse st !! b = Some None
             /\ fine_to_coarse st' !! b = Some (Some (S (coarse_node st)))
             /\ exists w, (b, w) ∈ wedges_of fine_graph fine_node).
Proof. intros. by apply hem_step_neighbor. Qed.

Lemma hem_step_neighbor_next_coarse_node_witness :
  let st' := (hem_step (fun _ _ => false) 0 path4 (coarsen_init 4, 0) 0).1 in
  fine_to_coarse st' !! 0 = Some (Some 0) /\ coarse_node st' = 1.
Proof.
  pose proof (hem_step_neighbor_next_coarse_node (fun _ _ => false) 0 path4
                (coarsen_init 4) 0 0 eq_refl) as H.
  split; apply H.
Defined.

(** ** Coarsening: the edge weights *)

Section CoarseEdges.
Implicit Types (st : CoarsenState) (g : list (nat * list (nat * nat)))
               (f2c : list (option nat)).

Lemma graph_wf_wedges_of g a b w :
  graph_wf g -> (b, w) ∈ wedges_of g a -> b < num_nodes g.
Proof.
  unfold graph_wf, wedges_of. intros Hwf Hin.
  destruct (g !! a) as [nd|] eqn:Hnd; simpl in Hin;
    [|by apply elem_of_nil in Hin].
  eapply Forall_lookup_1 in Hwf; [|done].
  by apply (proj1 (Forall_forall _ _) Hwf (b, w)).
Qed.

Lemma coarse_neighbors_fold_sum f2c ws cn :
  (forall b w, (b, w) ∈ ws -> exists c, f2c !! b = Some (Some c)) ->
  sum_list (snd <$> fold_left (coarse_neighbors_step f2c) ws cn)
  = sum_list (snd <$> cn) + sum_list (snd <$> ws).
Proof.
  revert cn. induction ws as [|[b w] ws IH]; intros cn Hm.
  - simpl. lia.
  - cbn [fold_left]. rewrite IH by (intros; eapply Hm; by right).
    unfold coarse_neighbors_step.
    destruct (Hm b w ltac:(by left)) as [c ->].
    rewrite flat_map_add_sum, fmap_cons. simpl. lia.
Qed.

Lemma coarse_neighbors_fold_keys f2c ws cn x :
  x ∈ (fst <$> fold_left (coarse_neighbors_step f2c) ws cn) ->
  x ∈ (fst <$> cn) \/ exists b w, (b, w) ∈ ws /\ f2c !! b = Some (Some x).
Proof.
  revert cn. induction ws as [|[b w] ws IH]; intros cn Hx.
  - by left.
  - cbn [fold_left] in Hx. apply IH in Hx as [Hx|(b' & w' & Hin & Hb')].
    + unfold coarse_neighbors_step in Hx.
      destruct (f2c !! b) as [[c|]|] eqn:Hb; [|by left..].
      apply flat_map_add_keys in Hx as [->|Hx]; [|by left].
      right. exists b, w. split; [by left|done].
    + right. exists b', w'. split; [by right|done].
Qed.

(** The sum of the edge weights a run of fine nodes brings along. *)
Lemma coarse_node_fold_edges g f2c fine_nodes acc :
  (forall a b w, a ∈ fine_nodes -> (b, w) ∈ wedges_of g a ->
                 exists c, f2c !! b = Some (Some c)) ->
  sum_list (snd <$> (fold_left (coarse_node_step g f2c) fine_nodes acc).2)
  = sum_list (snd <$> acc.2)
    + sum_list ((fun a => sum_list (snd <$> wedges_of g a)) <$> fine_nodes).
Proof.
  revert acc. induction fine_nodes as [|a l IH]; intros [cw cn] Hm.
  - simpl. lia.
  - cbn [fold_left]. rewrite IH by (intros; eapply Hm; [by right|done]).
    rewrite fmap_cons. simpl.
    rewrite coarse_neighbors_fold_sum by (intros; eapply Hm; [by left|done]).
    lia.
Qed.

Lemma coarse_node_fold_keys g f2c fine_nodes acc x :
  x ∈ (fst <$> (fold_left (coarse_node_step g f2c) fine_nodes acc).2) ->
  x ∈ (fst <$> acc.2) \/ exists b, f2c !! b = Some (Some x).
Proof.
  revert acc. induction fine_nodes as [|a l IH]; intros [cw cn] Hx.
  - by left.
  - cbn [fold_left] in Hx. apply IH in Hx as [Hx|Hx]; [|by right].
    simpl in Hx.
    apply coarse_neighbors_fold_keys in Hx as [Hx|(b & w & _ & Hb)];
      [by left|right; by exists b].
Qed.

Lemma edge_weight_seq g :
  (fun a => sum_list (snd <$> wedges_of g a)) <$> seq 0 (num_nodes g)
  = (fun nd => sum_list (snd <$> nd.2)) <$> g.
Proof.
  apply list_eq. intros i. rewrite !list_lookup_fmap.
  unfold num_nodes.
  destruct (decide (i < length g)) as [Hlt|Hge].
  - rewrite lookup_seq_lt by done. simpl. unfold wedges_of.
    destruct (lookup_lt_is_Some_2 g i Hlt) as [nd ->]. done.
  - rewrite lookup_seq_ge by lia. by rewrite lookup_ge_None_2 by lia.
Qed.

Lemma coarsen_inv_edges g st m :
  graph_wf g ->
  coarsen_inv (num_nodes g) st m ->
  (forall a, a < num_nodes g -> a ∈ coarse_to_fine st) ->
  let coarse_graph :=
    build_coarse_graph g (coarse_to_fine st) (fine_to_coarse st) in
  total_edge_weight coarse_graph = total_edge_weight g
  /\ graph_wf coarse_graph.
Proof.
  intros Hwf Hinv Hall coarse_graph.
  assert (forall b w a, (b, w) ∈ wedges_of g a ->
                        exists c, fine_to_coarse st !! b = Some (Some c)) as Hm.
  { intros b w a Hin. apply (inv_mapped _ _ _ Hinv), Hall.
    by eapply graph_wf_wedges_of. }
  split.
  - subst coarse_graph. unfold total_edge_weight.
    rewrite build_coarse_graph_nodes, <- list_fmap_compose.
    erewrite list_fmap_ext.
    2:{ intros i run _. simpl. unfold coarse_node_of.
        rewrite coarse_node_fold_edges by (intros; by eapply Hm).
        simpl. reflexivity. }
    rewrite sum_list_fmap_concat, equality_ranges_concat.
    rewrite <- edge_weight_seq. apply sum_list_Permutation, fmap_Permutation.
    by eapply coarsen_inv_Permutation.
  - unfold graph_wf. apply Forall_forall. intros nd Hnd.
    apply Forall_forall. intros [c w] Hcw. simpl.
    subst coarse_graph.
    rewrite build_coarse_graph_num_nodes, (coarsen_inv_ranges _ _ _ Hinv).
    rewrite length_fmap, length_seq.
    rewrite build_coarse_graph_nodes in Hnd.
    apply list_elem_of_fmap in Hnd as (run & -> & _).
    assert (c ∈ (fst <$> (coarse_node_of g (fine_to_coarse st) run).2)) as Hc.
    { apply list_elem_of_fmap. by exists (c, w). }
    apply coarse_node_fold_keys in Hc as [Hc|[b Hb]].
    + simpl in Hc. by apply elem_of_nil in Hc.
    + by eapply coarsen_inv_bound.
Qed.

End CoarseEdges.

(** X9.  On a graph whose neighbour entries all name nodes of the graph,
    [CoarsenHEM] and [CoarsenGEM] keep the sum of the edge weights (the edge
    contracted inside a coarse node becomes a loop entry of that node), and
    the neighbour entries of the coarse graph name coarse nodes. *)
Theorem coarsen_edge_weights_conserved :
  forall (randomized_hash : list nat -> nat) (rng : nat -> nat -> bool)
         (weight_npos : nat) (fine_graph : list (nat * list (nat * nat))),
    graph_wf fine_graph ->
    let hem := (CoarsenHEM randomized_hash rng weight_npos fine_graph).1.1 in
    let gem := (CoarsenGEM randomized_hash fine_graph).1.1 in
    (total_edge_weight hem = total_edge_weight fine_graph /\ graph_wf hem)
    /\ (total_edge_weight gem = total_edge_weight fine_graph /\ graph_wf gem).
Proof.
  intros randomized_hash rng weight_npos g Hwf hem gem. split.
  - subst hem. unfold CoarsenHEM. simpl.
    destruct (hem_matching_inv randomized_hash rng weight_npos g)
      as (m & Hinv & Hall).
    by apply (coarsen_inv_edges g _ m).
  - subst gem. unfold CoarsenGEM. simpl.
    destruct (gem_matching_inv randomized_hash g) as (Hinv & Hall).
    by apply (coarsen_inv_edges g _ _ Hwf Hinv).
Qed.

Lemma coarsen_edge_weights_conserved_witness :
  total_edge_weight (CoarsenGEM constant_hash path4).1.1
  = total_edge_weight path4.
Proof.
  apply (coarsen_edge_weights_conserved constant_hash (fun _ _ => false) 0
           path4).
  unfold graph_wf. repeat constructor.
Defined.

(** ** The multilevel partitioner yields a partition *)

Lemma ranges_copy_same_length {A} (src dst : list A) :
  length src = length dst -> ranges_copy src dst = src.
Proof.
  intros Hlen. unfold ranges_copy.
  rewrite drop_ge by lia. rewrite app_nil_r, <- Hlen. apply firstn_all.
Qed.

Lemma permuted_view_valid coarse_parts f2c m K :
  valid_parts m K coarse_parts ->
  Forall (fun o => exists c, o = Some c /\ c < m) f2c ->
  valid_parts (length f2c) K (permuted_view coarse_parts f2c).
Proof.
  intros [Hlen Hall] Hf. unfold permuted_view. split.
  - by rewrite length_fmap.
  - apply Forall_fmap. eapply Forall_impl; [exact Hf|].
    intros o (c & -> & Hc). simpl.
    destruct (lookup_lt_is_Some_2 coarse_parts c ltac:(lia)) as [p Hp].
    rewrite Hp. simpl.
    by apply (proj1 (Forall_lookup _ _) Hall c p).
Qed.

Section MultilevelValid.
Context {Graph : Type}.
Variable graph_num_nodes : Graph -> nat.
Variable partition_coarsest : Graph -> list nat -> nat -> list nat.
Variable coarsen : Graph -> Graph * list nat * list (option nat).
Variable refine : Graph -> list nat -> nat -> list nat.
Variable K : nat.

Hypothesis coarsen_le :
  forall g, graph_num_nodes (coarsen g).1.1 <= graph_num_nodes g.
Hypothesis coarsen_ok : coarsen_total graph_num_nodes coarsen.
Hypothesis partition_coarsest_ok :
  forall g parts,
    length parts = graph_num_nodes g ->
    valid_parts (graph_num_nodes g) K (partition_coarsest g parts K).
Hypothesis refine_ok :
  forall g parts,
    valid_parts (graph_num_nodes g) K parts ->
    valid_parts (graph_num_nodes g) K (refine g parts K).

Lemma multilevel_rec_valid fuel g parts result :
  length parts = graph_num_nodes g ->
  multilevel_rec graph_num_nodes partition_coarsest coarsen refine K fuel
                 g parts = Some (Ok result) ->
  valid_parts (graph_num_nodes g) K result.
Proof.
  revert g parts result. induction fuel as [|fuel IH];
    intros g parts result Hlen Hr; [done|].
  simpl in Hr. rewrite Hlen, Nat.eqb_refl in Hr. simpl in Hr.
  pose proof (coarsen_ok g) as Hc.
  destruct (coarsen g) as [[cg c2f] f2c]. destruct Hc as [Hf2c Hall].
  assert (exists cp,
            valid_parts (graph_num_nodes cg) K cp
            /\ result = refine g (ranges_copy (permuted_view cp f2c) parts) K)
    as (cp & Hcp & ->).
  { destruct (stop_coarsening _ _ _).
    - simpl in Hr. injection Hr as <-. eexists. split; [|done].
      apply partition_coarsest_ok. by rewrite length_replicate.
    - destruct (multilevel_rec _ _ _ _ _ fuel cg _) as [[cp| |]|] eqn:Hcp;
        [|done..].
      simpl in Hr. injection Hr as <-. exists cp. split; [|done].
      eapply IH; [|done]. by rewrite length_replicate. }
  apply refine_ok.
  pose proof (permuted_view_valid cp f2c _ K Hcp Hall) as Hv.
  rewrite ranges_copy_same_length by (destruct Hv as [-> _]; lia).
  by rewrite Hf2c in Hv.
Qed.

End MultilevelValid.

Lemma coarsen_inv_total g st m :
  coarsen_inv (num_nodes g) st m ->
  (forall a, a < num_nodes g -> a ∈ coarse_to_fine st) ->
  length (fine_to_coarse st) = num_nodes g
  /\ Forall (fun o => exists c,
               o = Some c
               /\ c < num_nodes (build_coarse_graph g (coarse_to_fine st)
                                                    (fine_to_coarse st)))
            (fine_to_coarse st).
Proof.
  intros Hinv Hall. split; [apply (inv_length _ _ _ Hinv)|].
  apply Forall_lookup. intros a o Ho.
  assert (a < num_nodes g) as Ha.
  { rewrite <- (inv_length _ _ _ Hinv). by eapply lookup_lt_Some. }
  apply Hall, (inv_mapped _ _ _ Hinv) in Ha as [c Hc].
  exists c. split; [congruence|].
  rewrite build_coarse_graph_num_nodes, (coarsen_inv_ranges _ _ _ Hinv).
  rewrite length_fmap, length_seq. by eapply coarsen_inv_bound.
Qed.

Lemma CoarsenGEM_total randomized_hash :
  coarsen_total num_nodes (CoarsenGEM randomized_hash).
Proof.
  intros g. unfold CoarsenGEM.
  destruct (gem_matching_inv randomized_hash g) as (Hinv & Hall).
  by eapply coarsen_inv_total.
Qed.

Lemma UniformPartition_valid g parts K :
  0 < K -> length parts = num_nodes g ->
  valid_parts (num_nodes g) K (UniformPartition g parts K).
Proof.
  intros HK Hlen. rewrite UniformPartition_blocks by done. split.
  - by rewrite blocks_length, chunk_first_last.
  - apply Forall_forall. intros p Hp.
    apply list_elem_of_In, in_concat in Hp as (l & Hl & Hp).
    apply list_elem_of_In, list_elem_of_fmap in Hl as (q & -> & Hq).
    apply list_elem_of_In, elem_of_replicate in Hp as [-> _].
    apply elem_of_seq in Hq. lia.
Qed.

(** X10.  [MultilevelPartition] returns, and returns valid parts: when the
    arguments pass its checks ([0 < num_parts <= |V|], one part per node),
    the coarsener does not add nodes and yields maps that cover one another,
    the coarsest partitioner yields a part below [num_parts] for every node,
    the refiner keeps that, and the sizes do not overflow [size_t], no check
    fails on the way and the result has one part below [num_parts] for every
    node of the graph. *)
Theorem multilevel_partition_valid :
  forall (Graph : Type) (graph_num_nodes : Graph -> nat)
         (partition_coarsest : Graph -> list nat -> nat -> list nat)
         (coarsen : Graph -> Graph * list nat * list (option nat))
         (refine : Graph -> list nat -> nat -> list nat)
         (K : nat),
    (forall g, graph_num_nodes (coarsen g).1.1 <= graph_num_nodes g) ->
    coarsen_total graph_num_nodes coarsen ->
    (forall g parts,
       length parts = graph_num_nodes g ->
       valid_parts (graph_num_nodes g) K (partition_coarsest g parts K)) ->
    (forall g parts,
       valid_parts (graph_num_nodes g) K parts ->
       valid_parts (graph_num_nodes g) K (refine g parts K)) ->
    forall (G : Graph) (parts : list nat),
      (Z.of_nat (graph_num_nodes G) * 10 < 2 ^ 64)%Z ->
      (15 * Z.of_nat K < 2 ^ 64)%Z ->
      0 < K <= graph_num_nodes G ->
      length parts = graph_num_nodes G ->
      exists result,
        MultilevelPartition graph_num_nodes partition_coarsest coarsen refine
          G parts K = Some (Ok result)
        /\ valid_parts (graph_num_nodes G) K result.
Proof.
  intros Graph graph_num_nodes partition_coarsest coarsen refine K
         Hle Hc Hpc Href G parts Hn HK [HK0 HKn] Hlen.
  destruct (multilevel_rec_terminates graph_num_nodes partition_coarsest
              coarsen refine Hle K (S (graph_num_nodes G)) G parts Hn HK
              Hlen ltac:(lia)) as [result Hr].
  exists result. split; [|by eapply multilevel_rec_valid].
  unfold MultilevelPartition.
  rewrite (proj2 (Nat.ltb_lt _ _) HK0), (proj2 (Nat.leb_le _ _) HKn).
  by rewrite Hlen, Nat.eqb_refl.
Qed.

Lemma multilevel_partition_valid_witness :
  0 < 2 <= num_nodes (path_graph 64)
  /\ length (replicate 64 0) = num_nodes (path_graph 64)
  /\ exists result,
       MultilevelPartition num_nodes UniformPartition (CoarsenGEM index_hash)
         refine_nothing (path_graph 64) (replicate 64 0) 2 = Some (Ok result)
       /\ valid_parts (num_nodes (path_graph 64)) 2 result.
Proof.
  split; [vm_compute; lia|]. split; [reflexivity|].
  apply (multilevel_partition_valid (list (nat * list (nat * nat))) num_nodes
           UniformPartition (CoarsenGEM index_hash) refine_nothing 2).
  - exact (CoarsenGEM_num_nodes index_hash).
  - exact (CoarsenGEM_total index_hash).
  - intros g parts Hlen. apply UniformPartition_valid; [lia|done].
  - intros g parts Hv. exact Hv.
  - by vm_compute.
  - by vm_compute.
  - vm_compute. lia.
  - reflexivity.
Defined.

(** ** The particle mesh: symmetry, shapes and outcomes *)

Lemma norm2_sub_sym (p q : list Q) :
  (norm2 (vec_sub q p) == norm2 (vec_sub p q))%Q.
Proof.
  revert q. induction p as [|x p IH]; intros [|y q]; try reflexivity.
  specialize (IH q). unfold norm2, vec_sub in *. simpl. rewrite IH.
  apply Qplus_comp; [ring|reflexivity].
Qed.

Lemma within_radius_sym (p q : list Q) (h : Q) :
  within_radius p q h = within_radius q p h.
Proof.
  unfold within_radius. f_equal.
  apply eq_true_iff_eq. rewrite !Qle_bool_iff.
  by rewrite norm2_sub_sym.
Qed.

Lemma par_for_each_results_Fails_2 {A B} (func : A -> TaskResult B)
    (range : list A) :
  (forall a, a ∈ range -> func a <> Raises) ->
  (exists a, a ∈ range /\ func a = Fails) ->
  par_for_each_results func range = Fails.
Proof.
  intros Hnr (a & Hin & Ha).
  destruct (par_for_each_results func range) as [bs| |] eqn:Hres; [| |done].
  - apply par_for_each_results_Returns in Hres.
    apply list_elem_of_lookup in Hin as [i Hi].
    destruct (Forall2_lookup_l _ _ _ _ _ Hres Hi) as (b & _ & Hb).
    congruence.
  - apply par_for_each_results_Raises in Hres as (a' & Hin' & Ha').
    by destruct (Hnr a' Hin').
Qed.

Section MeshMore.
Variable search_func : list (list Q) -> list Q -> Q -> option (list nat).
Variable partition_func : list (list Q) -> nat -> list nat.
Variable secondary_partition_func : list (list Q) -> nat -> nat -> list nat.
Variable Domain : BBox.
Variable fl : Q -> Q.
Variables num_threads MaxNumLevels PartIndex_max : nat.
Implicit Types (particles : list Particle) (mesh : ParticleMesh).
Implicit Types (radius_func : nat -> option Q).

Local Abbreviation update' :=
  (update search_func partition_func secondary_partition_func Domain fl
          num_threads MaxNumLevels PartIndex_max).

Hypothesis search_ok : search_index_spec search_func.

Lemma update_Ok_neighbor_iff particles radius_func mesh particles' mesh'
    i pi j :
  update' particles radius_func mesh = Ok (particles', mesh') ->
  particles !! i = Some pi ->
  j ∈ neighbors mesh' i
  <-> exists h pj,
        radius_func i = Some h /\ particles !! j = Some pj
        /\ within_radius (r pi) (r pj) h = true.
Proof.
  intros Hup Hi.
  destruct (update_Ok_neighbors _ _ _ _ _ _ _ _ _ _ _ _ _ _ _ Hup Hi)
    as (h & search_results & Hh & _ & Hl & ->).
  rewrite elem_of_ranges_sort, (proj2 (search_ok _ _ _ _ Hl)).
  rewrite Hh. split.
  - intros (q & Hq & Hw). rewrite list_lookup_fmap in Hq.
    destruct (particles !! j) as [pj|]; [|done]. injection Hq as <-.
    by exists h, pj.
  - intros (h' & pj & [= <-] & Hj & Hw). exists (r pj).
    by rewrite list_lookup_fmap, Hj.
Qed.

Lemma update_Ok_shapes particles radius_func mesh particles' mesh' :
  update' particles radius_func mesh = Ok (particles', mesh') ->
  length (adjacency_ mesh') = length particles
  /\ length (interp_adjacency_ mesh') = length (fixed_particles particles)
  /\ Forall (Forall (fun j => j < length particles)) (adjacency_ mesh')
  /\ Forall (Forall (fun j => j < length particles)) (interp_adjacency_ mesh').
Proof.
  intros Hup. pose proof Hup as (mesh1 & Hs & Hp)%update_Ok.
  apply partition_Ok_adjacency in Hp as [-> ->].
  apply search_Ok in Hs as (Hrows & Hirows & _).
  assert (forall point radius search_results j,
            search_func (r <$> particles) point radius = Some search_results ->
            j ∈ search_results -> j < length particles) as Hvalid.
  { intros point radius l j Hl Hj.
    apply (proj2 (search_ok _ _ _ _ Hl)) in Hj as (q & Hq%lookup_lt_Some & _).
    by rewrite length_fmap in Hq. }
  split; [|split; [|split]].
  - rewrite <- (Forall2_length _ _ _ Hrows). unfold all.
    rewrite length_zip, length_seq. lia.
  - by rewrite <- (Forall2_length _ _ _ Hirows).
  - apply Forall_lookup_2. intros i row Hrow.
    destruct (Forall2_lookup_r _ _ _ _ _ Hrows Hrow) as ([a pa] & _ & Hsn).
    apply search_neighbors_Returns in Hsn as (h & l & _ & _ & Hl & ->).
    apply Forall_forall. intros j Hj.
    apply (proj1 (elem_of_ranges_sort _ _)) in Hj.
    exact (Hvalid _ _ _ _ Hl Hj).
  - apply Forall_lookup_2. intros i row Hrow.
    destruct (Forall2_lookup_r _ _ _ _ _ Hirows Hrow) as ([a pa] & _ & Hsn).
    apply search_interp_Returns in Hsn as (h & l & _ & Hl & ->).
    apply Forall_forall. intros j Hj.
    apply (proj1 (elem_of_ranges_sort _ _)) in Hj.
    apply list_elem_of_filter in Hj as [_ Hj].
    exact (Hvalid _ _ _ _ Hl Hj).
Qed.

End MeshMore.

Section MeshOutcome.
Variable search_func : list (list Q) -> list Q -> Q -> option (list nat).
Variable partition_func : list (list Q) -> nat -> list nat.
Variable secondary_partition_func : list (list Q) -> nat -> nat -> list nat.
Variable Domain : BBox.
Variable fl : Q -> Q.
Variables num_threads MaxNumLevels PartIndex_max : nat.
Implicit Types (particles : list Particle) (mesh : ParticleMesh).
Implicit Types (radius_func : nat -> option Q).

Local Abbreviation update' :=
  (update search_func partition_func secondary_partition_func Domain fl
          num_threads MaxNumLevels PartIndex_max).
Local Abbreviation partition_' :=
  (partition_ partition_func secondary_partition_func num_threads
              MaxNumLevels PartIndex_max).

(** [partition_] returns only past its two checks, and ends the process
    before them otherwise. *)
Lemma partition_checks particles num_levels mesh :
  (forall st, partition_' particles num_levels mesh = Ok st ->
              num_levels < MaxNumLevels
              /\ num_levels * num_threads + 1 <= PartIndex_max)
  /\ (~ (num_levels < MaxNumLevels
         /\ num_levels * num_threads + 1 <= PartIndex_max) ->
      partition_' particles num_levels mesh = Abort).
Proof.
  unfold partition_.
  destruct (num_levels <? MaxNumLevels) eqn:Hlt; simpl.
  - apply Nat.ltb_lt in Hlt.
    destruct (num_levels * num_threads + 1 <=? PartIndex_max) eqn:Hle; simpl.
    + apply Nat.leb_le in Hle. split; [done|]. intros Hno.
      by destruct Hno.
    + apply Nat.leb_gt in Hle. split; [done|done].
  - apply Nat.ltb_ge in Hlt. split; [done|done].
Qed.

Lemma update_Ok_checks particles radius_func mesh st :
  update' particles radius_func mesh = Ok st ->
  2 < MaxNumLevels /\ 2 * num_threads + 1 <= PartIndex_max.
Proof.
  destruct st as [particles' mesh']. intros (mesh1 & _ & Hp)%update_Ok.
  by apply partition_checks in Hp.
Qed.

Lemma update_Abort_radius particles radius_func mesh :
  (forall a, a ∈ all particles ->
             search_neighbors search_func (r <$> particles) radius_func a
             <> Raises) ->
  (exists a h, a < length particles /\ radius_func a = Some h /\ (h <= 0)%Q) ->
  update' particles radius_func mesh = Abort.
Proof.
  intros Hnr (a & h & Ha & Hh & Hle). unfold update, search_.
  rewrite (par_for_each_results_Fails_2
             (search_neighbors search_func (r <$> particles) radius_func)
             (all particles)); [done|done|].
  destruct (lookup_lt_is_Some_2 _ _ Ha) as [pa Hpa].
  exists (a, pa). split.
  - apply list_elem_of_lookup. exists a. by apply all_lookup.
  - apply search_neighbors_Fails. by exists h.
Qed.

Lemma update_Abort_partition particles radius_func mesh mesh1 :
  search_ search_func Domain fl particles radius_func mesh = Ok mesh1 ->
  ~ (2 < MaxNumLevels /\ 2 * num_threads + 1 <= PartIndex_max) ->
  update' particles radius_func mesh = Abort.
Proof.
  intros Hs Hno. unfold update. rewrite Hs. by apply partition_checks.
Qed.

End MeshOutcome.

(** X11.  After a successful [update] with a search index that returns the
    points within the radius, two particles with the same search radius are
    neighbours of one another or not at all: [j] is among the neighbours of
    [i] if and only if [i] is among the neighbours of [j]. *)
Theorem update_adjacency_symmetric :
  forall (search_func : list (list Q) -> list Q -> Q -> option (list nat))
         (partition_func : list (list Q) -> nat -> list nat)
         (secondary_partition_func : list (list Q) -> nat -> nat -> list nat)
         (Domain : BBox) (fl : Q -> Q)
         (num_threads MaxNumLevels PartIndex_max : nat)
         (particles particles' : list Particle)
         (radius_func : nat -> option Q) (mesh mesh' : ParticleMesh)
         (i j : nat),
    search_index_spec search_func ->
    update search_func partition_func secondary_partition_func Domain fl
           num_threads MaxNumLevels PartIndex_max particles radius_func mesh
    = Ok (particles', mesh') ->
    i < length particles -> j < length particles ->
    radius_func i = radius_func j ->
    j ∈ neighbors mesh' i <-> i ∈ neighbors mesh' j.
Proof.
  intros search_func partition_func secondary_partition_func Domain fl
         num_threads MaxNumLevels PartIndex_max particles particles'
         radius_func mesh mesh' i j Hspec Hup Hi Hj Hrad.
  destruct (lookup_lt_is_Some_2 _ _ Hi) as [pi Hpi].
  destruct (lookup_lt_is_Some_2 _ _ Hj) as [pj Hpj].
  rewrite (update_Ok_neighbor_iff _ _ _ _ _ _ _ _ Hspec _ _ _ _ _ i pi j
             Hup Hpi).
  rewrite (update_Ok_neighbor_iff _ _ _ _ _ _ _ _ Hspec _ _ _ _ _ j pj i
             Hup Hpj).
  rewrite <- Hrad. split.
  - intros (h & pj' & Hh & Hj' & Hw). exists h, pi.
    assert (pj' = pj) as -> by congruence.
    by rewrite within_radius_sym.
  - intros (h & pi' & Hh & Hi' & Hw). exists h, pj.
    assert (pi' = pi) as -> by congruence.
    by rewrite within_radius_sym.
Qed.

Lemma update_adjacency_symmetric_witness :
  1 ∈ neighbors line3_mesh 0 <-> 0 ∈ neighbors line3_mesh 1.
Proof.
  apply (update_adjacency_symmetric reverse_search one_part one_part_from
           unit_box exact 1 3 255 line3 line3_updated (radius_const (3 # 2))
           empty_mesh line3_mesh 0 1).
  - exact reverse_search_spec.
  - vm_compute. reflexivity.
  - simpl. lia.
  - simpl. lia.
  - reflexivity.
Defined.

(** X12.  A successful [update] leaves a mesh with one adjacency row for
    every particle and one interpolation row for every fixed particle, whose
    entries are all indices of particles, and changes neither the type nor
    the position of a particle. *)
Theorem update_rows_shape :
  forall (search_func : list (list Q) -> list Q -> Q -> option (list nat))
         (partition_func : list (list Q) -> nat -> list nat)
         (secondary_partition_func : list (list Q) -> nat -> nat -> list nat)
         (Domain : BBox) (fl : Q -> Q)
         (num_threads MaxNumLevels PartIndex_max : nat)
         (particles particles' : list Particle)
         (radius_func : nat -> option Q) (mesh mesh' : ParticleMesh),
    search_index_spec search_func ->
    update search_func partition_func secondary_partition_func Domain fl
           num_threads MaxNumLevels PartIndex_max particles radius_func mesh
    = Ok (particles', mesh') ->
    length (adjacency_ mesh') = length particles
    /\ length (interp_adjacency_ mesh') = length (fixed_particles particles)
    /\ Forall (Forall (fun j => j < length particles)) (adjacency_ mesh')
    /\ Forall (Forall (fun j => j < length particles))
              (interp_adjacency_ mesh')
    /\ particle_type <$> particles' = particle_type <$> particles
    /\ r <$> particles' = r <$> particles.
Proof.
  intros search_func partition_func secondary_partition_func Domain fl
         num_threads MaxNumLevels PartIndex_max particles particles'
         radius_func mesh mesh' Hspec Hup.
  destruct (update_Ok_shapes _ _ _ _ _ _ _ _ Hspec _ _ _ _ _ Hup)
    as (H1 & H2 & H3 & H4).
  destruct (update_Ok_types _ _ _ _ _ _ _ _ _ _ _ _ _ Hup) as [H5 H6].
  done.
Qed.

Lemma update_rows_shape_witness :
  length (adjacency_ wall4_mesh) = length wall4
  /\ length (interp_adjacency_ wall4_mesh) = length (fixed_particles wall4).
Proof.
  pose proof (update_rows_shape reverse_search one_part one_part_from
                unit_box binary64 1 3 255 wall4 wall4_updated
                (radius_const tenth) empty_mesh wall4_mesh
                reverse_search_spec ltac:(vm_compute; reflexivity)) as H.
  split; apply H.
Defined.

(** X13.  The checks of [update].  When [update] returns, every check has
    passed and every task of the neighbour search has returned: there are
    more than two levels in a part vector, [2 * num_threads + 1] part
    indices fit in [PartIndex], and for every particle the radius is defined
    and positive and the search around it has returned.  When no task of the
    neighbour search raises, a radius that is not positive ends the process
    at the [TIT_ASSERT] of the search.  When the searches have returned, too
    few levels or too many parts end the process at the checks of
    [partition_]. *)
Theorem update_outcome :
  forall (search_func : list (list Q) -> list Q -> Q -> option (list nat))
         (partition_func : list (list Q) -> nat -> list nat)
         (secondary_partition_func : list (list Q) -> nat -> nat -> list nat)
         (Domain : BBox) (fl : Q -> Q)
         (num_threads MaxNumLevels PartIndex_max : nat)
         (particles : list Particle) (radius_func : nat -> option Q)
         (mesh : ParticleMesh),
    let result :=
      update search_func partition_func secondary_partition_func Domain fl
             num_threads MaxNumLevels PartIndex_max particles radius_func
             mesh in
    (forall st,
       result = Ok st ->
       2 < MaxNumLevels
       /\ 2 * num_threads + 1 <= PartIndex_max
       /\ (forall a pa,
             particles !! a = Some pa ->
             exists h, radius_func a = Some h /\ (0 < h)%Q
                       /\ search_func (r <$> particles) (r pa) h <> None))
    /\ ((forall a pa h,
           particles !! a = Some pa -> radius_func a = Some h ->
           (0 < h)%Q ->
           search_func (r <$> particles) (r pa) h <> None) ->
        (forall a, a < length particles -> radius_func a <> None) ->
        (exists a h,
           a < length particles /\ radius_func a = Some h /\ (h <= 0)%Q) ->
        result = Abort)
    /\ ((exists mesh1,
           search_ search_func Domain fl particles radius_func mesh
           = Ok mesh1) ->
        ~ (2 < MaxNumLevels /\ 2 * num_threads + 1 <= PartIndex_max) ->
        result = Abort).
Proof.
  intros search_func partition_func secondary_partition_func Domain fl
         num_threads MaxNumLevels PartIndex_max particles radius_func mesh
         result.
  subst result. split; [|split].
  - intros [particles' mesh'] Hup.
    destruct (update_Ok_checks _ _ _ _ _ _ _ _ _ _ _ _ Hup) as [HM HP].
    split; [done|]. split; [done|]. intros a pa Hpa.
    destruct (update_Ok_neighbors _ _ _ _ _ _ _ _ _ _ _ _ _ _ _ Hup Hpa)
      as (h & search_results & Hh & Hpos & Hl & _).
    exists h. split; [done|]. split; [done|]. by rewrite Hl.
  - intros Hsearch Hradii Hex. apply update_Abort_radius; [|done].
    intros [a pa] [i Hi]%list_elem_of_lookup.
    apply all_lookup in Hi as [-> Hpa].
    intros [Hn|(h & Hh & Hpos & Hl)]%search_neighbors_Raises.
    + by apply (Hradii i); [eapply lookup_lt_Some|].
    + by apply (Hsearch i pa h).
  - intros [mesh1 Hs] Hno. by eapply update_Abort_partition.
Qed.

Lemma update_outcome_witness :
  (2 < 3 /\ 2 * 1 + 1 <= 255
   /\ forall a pa,
        far2 !! a = Some pa ->
        exists h, radius_const 2 a = Some h /\ (0 < h)%Q
                  /\ reverse_search (r <$> far2) (r pa) h <> None)
  /\ update reverse_search one_part one_part_from unit_box exact 1 3 255
            far2 (radius_const 0) empty_mesh = Abort
  /\ update reverse_search one_part one_part_from unit_box exact 1 2 255
            far2 (radius_const 1) empty_mesh = Abort.
Proof.
  split; [|split].
  - apply (proj1 (update_outcome
                    reverse_search one_part one_part_from unit_box exact
                    1 3 255 far2 (radius_const 2) empty_mesh)
                 (far2_updated, far2_mesh)).
    vm_compute. reflexivity.
  - apply (proj1 (proj2 (update_outcome
                    reverse_search one_part one_part_from unit_box exact
                    1 3 255 far2 (radius_const 0) empty_mesh))).
    + intros a pa h _ _ _. discriminate.
    + intros a _. discriminate.
    + exists 0, 0%Q. split; [simpl; lia|]. split; [reflexivity|].
      discriminate.
  - apply (proj2 (proj2 (update_outcome
                    reverse_search one_part one_part_from unit_box exact
                    1 2 255 far2 (radius_const 1) empty_mesh))).
    + eexists. vm_compute. reflexivity.
    + intros [H _]. lia.
Defined.

(** ** Views commute with cutting the base range *)

Lemma view_over_app {B A} (v : View B A) (sub1 sub2 : list B) :
  view_over v (sub1 ++ sub2) = view_over v sub1 ++ view_over v sub2.
Proof.
  induction v as [B range|B A base IH pred|B A C base IH proj
                  |B A base IH|B T A base IH get]; simpl.
  - done.
  - by rewrite IH, filter_app.
  - by rewrite IH, fmap_app.
  - by rewrite IH, concat_app.
  - by rewrite IH, fmap_app.
Qed.

Lemma view_over_concat {B A} (v : View B A) (blocks : list (list B)) :
  view_over v (concat blocks) = concat (view_over v <$> blocks).
Proof.
  induction blocks as [|b blocks IH]; simpl.
  - induction v; simpl; try done; by rewrite IHv.
  - by rewrite view_over_app, IH.
Qed.

Lemma unview_spec {B A Args R} (v : View B A) (func : list A -> Args -> R) :
  (unview v func).1 = view_base v
  /\ forall subrange body_args,
       (unview v func).2 subrange body_args
       = func (view_over v subrange) body_args.
Proof.
  revert Args R func.
  induction v as [B range|B A base IH pred|B A C base IH proj
                  |B A base IH|B T A base IH get]; intros Args R func; simpl.
  - done.
  - destruct (IH Args R (fun subrange body_args =>
                func (filter (fun x => pred x = true) subrange) body_args))
      as [H1 H2].
    split; [done|]. intros. by rewrite H2.
  - destruct (IH Args R (fun subrange body_args =>
                func (proj <$> subrange) body_args)) as [H1 H2].
    split; [done|]. intros. by rewrite H2.
  - destruct (IH Args R (fun subrange body_args =>
                func (concat subrange) body_args)) as [H1 H2].
    split; [done|]. intros. by rewrite H2.
  - destruct (IH Args R (fun subrange body_args =>
                func (get <$> subrange) body_args)) as [H1 H2].
    split; [done|]. intros. by rewrite H2.
Qed.

(** X14.  [impl::Unview] hands the loop the base range of a view and a body
    that applies the adaptors of the view to each subrange of the base before
    it calls the function.  Whatever blocks the base range is cut into, the
    adapted blocks together are the elements of the view, in order. *)
Theorem unview_blocks :
  forall (B A Args R : Type) (v : View B A) (func : list A -> Args -> R),
    let '(base, body) := unview v func in
    base = view_base v
    /\ (forall subrange body_args,
          body subrange body_args = func (view_over v subrange) body_args)
    /\ (forall blocks,
          concat blocks = base ->
          concat (view_over v <$> blocks) = view_elems v).
Proof.
  intros B A Args R v func.
  destruct (unview_spec v func) as [H1 H2].
  destruct (unview v func) as [base body]. simpl in *.
  split; [done|]. split; [done|].
  intros blocks Hb. unfold view_elems.
  by rewrite <- view_over_concat, Hb, H1.
Qed.

(** The unit test of [par::impl::unview]: a join of four vectors, doubled. *)
Example unview_join_transform :
  view_elems (view_transform (view_join (view_all [[0; 1; 2]; [3; 4; 5];
                                                    [6; 7; 8]; [9]]))
                             (fun i => 2 * i))
  = [0; 2; 4; 6; 8; 10; 12; 14; 16; 18].
Proof. reflexivity. Qed.

(** ** [par::fold] *)

Section Fold.
Context {A R : Type}.
Variable init : R.
Variable func : R -> A -> R.
Variable result_func : R -> R -> R.

Hypothesis result_func_assoc :
  forall x y z,
    result_func x (result_func y z) = result_func (result_func x y) z.
Hypothesis result_func_init : forall x, result_func x init = x.
Hypothesis func_result_func :
  forall x a, func x a = result_func x (func init a).

Lemma fold_left_from x l :
  fold_left func l x = result_func x (fold_left func l init).
Proof.
  revert x. induction l as [|a l IH]; intros x; simpl.
  - by rewrite result_func_init.
  - rewrite (IH (func x a)), (IH (func init a)).
    by rewrite (func_result_func x a), result_func_assoc.
Qed.

Lemma parallel_reduce_fold {B} (over : list B -> list A)
    (body : list B -> R -> R) base result :
  (forall s1 s2, over (s1 ++ s2) = over s1 ++ over s2) ->
  (forall subrange value,
     body subrange value = fold_left func (over subrange) value) ->
  parallel_reduce init body result_func base result ->
  result = fold_left func (over base) init.
Proof.
  intros Happ Hbody.
  induction 1 as [|range sub value _ IH|l r x y _ IHl _ IHr].
  - assert (over [] = []) as ->; [|done].
    pose proof (Happ [] []) as H. simpl in H.
    apply (f_equal length) in H. rewrite length_app in H.
    destruct (over []); [done|simpl in H; lia].
  - by rewrite Hbody, IH, Happ, fold_left_app.
  - rewrite IHl, IHr, Happ, fold_left_app.
    symmetry. apply fold_left_from.
Qed.

Lemma fold_outcome {B} (range : View B A) result :
  fold range init func result_func result
  <-> result = fold_left func (view_elems range) init.
Proof.
  unfold fold, fold_range.
  destruct (unview_spec (Args := R) range
              (fun subrange init => fold_left func subrange init)) as [H1 H2].
  destruct (unview range _) as [base body]. simpl in *. subst base.
  split.
  - intros Hr. unfold view_elems.
    by apply (parallel_reduce_fold (view_over range) body);
      [apply view_over_app| |].
  - intros ->. unfold view_elems. rewrite <- H2.
    rewrite <- (app_nil_l (view_base range)) at 1.
    apply (reduce_run init body result_func [] (view_base range) init).
    constructor.
Qed.

End Fold.

(** X15.  When [result_func] is associative, [init] is neutral on its right
    and [func x a] is [result_func x (func init a)], [par::fold] has one
    outcome under every schedule: the sequential left fold of [func] over the
    elements of the range from [init]. *)
Theorem fold_is_sequential_fold :
  forall (B A R : Type) (range : View B A) (init : R) (func : R -> A -> R)
         (result_func : R -> R -> R),
    (forall x y z,
       result_func x (result_func y z) = result_func (result_func x y) z) ->
    (forall x, result_func x init = x) ->
    (forall x a, func x a = result_func x (func init a)) ->
    forall result,
      fold range init func result_func result
      <-> result = fold_left func (view_elems range) init.
Proof.
  intros B A R range init func result_func Hassoc Hinit Hfunc result.
  by apply fold_outcome.
Qed.

Lemma fold_is_sequential_fold_witness :
  fold (view_join (view_all [[0; 1; 2]; [3; 4; 5]; [6; 7; 8]; [9]]))
       0 Nat.add Nat.add 45.
Proof.
  apply (fold_is_sequential_fold _ _ _
           (view_join (view_all [[0; 1; 2]; [3; 4; 5]; [6; 7; 8]; [9]]))
           0 Nat.add Nat.add).
  - intros. lia.
  - intros. lia.
  - intros. lia.
  - reflexivity.
Defined.

(** With an [init] that is not neutral the result depends on how the range
    is cut: every body that is split off starts from [init] again. *)
Example fold_init_not_neutral :
  fold (view_all [1; 2]) 1 Nat.add Nat.add 4
  /\ fold (view_all [1; 2]) 1 Nat.add Nat.add 5.
Proof.
  unfold fold, fold_range. simpl.
  set (f := fun (subrange : list nat) (init : nat) =>
              fold_left Nat.add subrange init).
  split.
  - change (parallel_reduce 1 f Nat.add ([] ++ [1; 2]) (f [1; 2] 1)).
    apply reduce_run. constructor.
  - change (parallel_reduce 1 f Nat.add ([1] ++ [2]) (f [1] 1 + f [2] 1)).
    apply reduce_join.
    + change (parallel_reduce 1 f Nat.add ([] ++ [1]) (f [1] 1)).
      apply reduce_run. constructor.
    + change (parallel_reduce 1 f Nat.add ([] ++ [2]) (f [2] 1)).
      apply reduce_run. constructor.
Qed.

(** ** [par::unstable_copy_if] *)

Section UnstableCopyIf.
Context {A P : Type}.
Implicit Types (pred : P -> bool) (proj : A -> P)
               (pending : list (list (list A))).

Lemma concat_take_chunks (l : list A) n k :
  concat ((fun i => take n (drop (i * n) l)) <$> seq 0 k) = take (k * n) l.
Proof.
  induction k as [|k IH]; [done|].
  rewrite seq_S, fmap_app, concat_app, IH. simpl. rewrite app_nil_r.
  rewrite take_take_drop. f_equal. lia.
Qed.

Lemma concat_chunk (l : list A) n : 0 < n -> concat (chunk n l) = l.
Proof.
  intros Hn. unfold chunk. rewrite concat_take_chunks.
  apply firstn_all2.
  destruct (decide (length l <= divide_up (length l) n * n)); [done|].
  assert (divide_up (length l) n * n < length l) as Hlt by lia.
  apply (divide_up_spec _ _ _ Hn) in Hlt. lia.
Qed.

Lemma concat_filter (keep : A -> Prop) `{!forall x, Decision (keep x)}
    (ls : list (list A)) :
  concat (filter keep <$> ls) = filter keep (concat ls).
Proof.
  induction ls as [|l ls IH]; [done|].
  rewrite fmap_cons. simpl. by rewrite filter_app, IH.
Qed.

Lemma buffers_concat pred proj (subrange : list A) :
  concat (buffers pred proj subrange)
  = filter (fun x => pred (proj x) = true) subrange.
Proof.
  unfold buffers. rewrite concat_filter, concat_chunk; [done|].
  unfold BufferCap. lia.
Qed.

Lemma pending_insert pending t buffer rest :
  pending !! t = Some (buffer :: rest) ->
  concat (concat pending)
  ≡ₚ buffer ++ concat (concat (<[t := rest]> pending)).
Proof.
  intros Ht. pose proof (lookup_lt_Some _ _ _ Ht) as Hlt.
  rewrite <- (take_drop_middle _ _ _ Ht) at 1.
  rewrite insert_take_drop by done.
  rewrite !concat_app. simpl. rewrite !concat_app.
  rewrite !(app_assoc _ _ (concat (concat (drop (S t) pending)))).
  apply Permutation_app_tail.
  rewrite app_assoc.
  rewrite (Permutation_app_comm (concat (concat (take t pending))) buffer).
  by rewrite <- app_assoc.
Qed.

Lemma flushes_Permutation order pending (out : list A) :
  let res := flushes order pending out in
  res.1 ++ concat (concat res.2) ≡ₚ out ++ concat (concat pending).
Proof.
  revert pending out. induction order as [|t order IH]; intros pending out;
    [done|].
  cbn [flushes].
  destruct (pending !! t) as [[|buffer rest]|] eqn:Ht; [apply IH| |apply IH].
  etrans; [apply IH|].
  rewrite (pending_insert pending t buffer rest Ht).
  by rewrite <- app_assoc.
Qed.

End UnstableCopyIf.

(** X16.  When every run of the loop body has flushed its buffers,
    [par::unstable_copy_if] has written a permutation of the elements of the
    range whose projection satisfies the predicate, and the iterator it
    returns is past as many elements; the blocks and the order of the flushes
    only change the order of the output. *)
Theorem unstable_copy_if_permutation :
  forall (A P : Type) (range : list A) (blocks : list (list A))
         (order : list nat) (pred : P -> bool) (proj : A -> P),
    concat blocks = range ->
    all_flushed blocks order pred proj ->
    let '(out, index) := unstable_copy_if blocks order pred proj in
    out ≡ₚ filter (fun x => pred (proj x) = true) range
    /\ index = length (filter (fun x => pred (proj x) = true) range).
Proof.
  intros A P range blocks order pred proj Hb Hdone. unfold unstable_copy_if.
  unfold all_flushed in Hdone.
  pose proof (flushes_Permutation order (buffers pred proj <$> blocks) [])
    as Hp.
  destruct (flushes _ _ _) as [out pending]. simpl in *.
  assert (concat (concat pending) = []) as Hnil.
  { clear Hp. induction pending as [|q pending IH]; [done|].
    apply Forall_cons in Hdone as [-> Hdone]. simpl. by apply IH. }
  rewrite Hnil, app_nil_r in Hp.
  assert (concat (concat (buffers pred proj <$> blocks))
          = filter (fun x => pred (proj x) = true) range) as Hall.
  { rewrite <- Hb. clear. induction blocks as [|b blocks IH]; [done|].
    rewrite fmap_cons. simpl.
    by rewrite concat_app, buffers_concat, filter_app, IH. }
  rewrite Hall in Hp. split; [done|]. by rewrite Hp.
Qed.

Lemma unstable_copy_if_permutation_witness :
  let '(out, index) :=
    unstable_copy_if [[0; 1; 2; 3; 4]; [5; 6; 7; 8; 9]] [1; 0] Nat.even id in
  out ≡ₚ filter (fun x => Nat.even (id x) = true)
                [0; 1; 2; 3; 4; 5; 6; 7; 8; 9]
  /\ index = length (filter (fun x => Nat.even (id x) = true)
                            [0; 1; 2; 3; 4; 5; 6; 7; 8; 9]).
Proof.
  apply (unstable_copy_if_permutation nat nat [0; 1; 2; 3; 4; 5; 6; 7; 8; 9]
           [[0; 1; 2; 3; 4]; [5; 6; 7; 8; 9]] [1; 0] Nat.even id).
  - reflexivity.
  - unfold all_flushed. vm_compute. repeat constructor.
Defined.

(** The unit test of [par::unstable_copy_if], with the second block flushed
    first. *)
Example unstable_copy_if_test :
  unstable_copy_if [[0; 1; 2; 3; 4]; [5; 6; 7; 8; 9]] [1; 0] Nat.even id
  = ([6; 8; 0; 2; 4], 5).
Proof. vm_compute. reflexivity. Qed.

(** ** Sets of types *)

Section MetaSet.
Context {T : Type} `{EqDecision T}.
Implicit Types (t u : T) (ts us : list T).

Lemma contains_v_fold t us acc :
  fold_left (fun acc u => acc || bool_decide (t = u)) us acc
  = acc || bool_decide (t ∈ us).
Proof.
  revert acc. induction us as [|u us IH]; intros acc; cbn [fold_left].
  - rewrite bool_decide_eq_false_2 by apply not_elem_of_nil.
    by rewrite orb_false_r.
  - rewrite IH, <- orb_assoc. f_equal.
    apply eq_true_iff_eq.
    rewrite orb_true_iff, !bool_decide_eq_true, elem_of_cons. done.
Qed.

Lemma contains_v_spec t us : meta.contains_v t us = true <-> t ∈ us.
Proof.
  unfold meta.contains_v. rewrite contains_v_fold. simpl.
  apply bool_decide_eq_true.
Qed.

Lemma contains_v_false t us : meta.contains_v t us = false <-> t ∉ us.
Proof.
  rewrite <- contains_v_spec. by destruct (meta.contains_v t us).
Qed.

Lemma all_unique_v_spec ts : meta.all_unique_v ts = true <-> NoDup ts.
Proof.
  induction ts as [|t ts IH]; simpl.
  - split; [constructor|done].
  - rewrite andb_true_iff, negb_true_iff, contains_v_false, IH, NoDup_cons.
    done.
Qed.

(** The union appends to [Ts...] the types of [Us...] that are new, each
    once, in the order of [Us...]. *)
Lemma union_spec ts us :
  exists new,
    meta.union ts us = ts ++ new
    /\ (NoDup ts -> NoDup (ts ++ new))
    /\ (forall x, x ∈ new <-> x ∈ us /\ x ∉ ts).
Proof.
  revert ts. induction us as [|u us IH]; intros ts; simpl.
  - exists []. split; [by rewrite app_nil_r|]. split; [by rewrite app_nil_r|].
    intros x. split; [by intros ?%elem_of_nil|by intros [?%elem_of_nil _]].
  - destruct (meta.contains_v u ts) eqn:Hu.
    + apply contains_v_spec in Hu.
      destruct (IH ts) as (new & Heq & Hnd & Hin).
      exists new. split; [done|]. split; [done|].
      intros x. rewrite Hin, elem_of_cons. split; [by intros []; auto|].
      intros [[->|Hx] Hnot]; done.
    + apply contains_v_false in Hu.
      destruct (IH (ts ++ [u])) as (new & Heq & Hnd & Hin).
      exists (u :: new). rewrite Heq, <- app_assoc. split; [done|]. split.
      * intros Hts.
        change (ts ++ u :: new) with (ts ++ [u] ++ new).
        rewrite app_assoc. apply Hnd.
        apply NoDup_app. split; [done|]. split; [|apply NoDup_singleton].
        intros x Hx Hxu%list_elem_of_singleton. by subst.
      * intros x. rewrite !elem_of_cons, Hin, elem_of_app,
          list_elem_of_singleton.
        split.
        -- intros [->|[Hx Hnot]]; [by auto|]. split; [by auto|]. tauto.
        -- intros [[->|Hx] Hnot]; [by left|].
           destruct (decide (x = u)) as [->|Hne]; [by left|].
           right. split; [done|]. tauto.
Qed.

Lemma elem_of_union ts us x :
  x ∈ meta.union ts us <-> x ∈ ts \/ x ∈ us.
Proof.
  destruct (union_spec ts us) as (new & -> & _ & Hin).
  rewrite elem_of_app, Hin.
  destruct (decide (x ∈ ts)); tauto.
Qed.

Lemma includes_spec ts us :
  meta.includes ts us = true <-> forall u, u ∈ us -> u ∈ ts.
Proof.
  unfold meta.includes. rewrite bool_decide_eq_true.
  destruct (union_spec ts us) as (new & -> & _ & Hin). split.
  - intros Heq u Hu. destruct (decide (u ∈ ts)) as [|Hnot]; [done|].
    assert (u ∈ new) as Hnew by (by apply Hin).
    rewrite <- (app_nil_r ts) in Heq at 1.
    apply app_inv_head in Heq. rewrite <- Heq in Hnew.
    by apply elem_of_nil in Hnew.
  - intros Hsub. destruct new as [|x new]; [by rewrite app_nil_r|].
    exfalso. destruct (proj1 (Hin x) ltac:(by left)) as [Hx Hnot].
    by apply Hnot, Hsub.
Qed.

(** Moving a type of a set to its front. *)
Lemma union_singleton u ts :
  NoDup ts -> u ∈ ts ->
  meta.union [u] ts = u :: filter (fun t => t <> u) ts.
Proof.
  intros Hnd Hu.
  assert (forall (ts acc : list T),
            NoDup ts -> (forall x, x ∈ ts -> x ∈ acc -> x = u) ->
            u ∈ acc ->
            meta.union acc ts = acc ++ filter (fun t => t <> u) ts) as Hgen.
  { clear. induction ts as [|t ts IH]; intros acc Hnd Hdisj Hu; simpl.
    - by rewrite app_nil_r.
    - apply NoDup_cons in Hnd as [Ht Hnd].
      destruct (meta.contains_v t acc) eqn:Hc.
      + apply contains_v_spec in Hc.
        assert (t = u) as -> by (apply Hdisj; [by left|done]).
        rewrite filter_cons_False by (by intros ?).
        apply IH; [done| |done].
        intros x Hx Hacc. apply Hdisj; [by right|done].
      + apply contains_v_false in Hc.
        assert (t <> u) as Hne by (by intros ->).
        rewrite filter_cons_True by done.
        rewrite IH; [by rewrite <- app_assoc|done| |].
        * intros x Hx [Hacc|Hxt%list_elem_of_singleton]%elem_of_app.
          -- apply Hdisj; [by right|done].
          -- by subst.
        * apply elem_of_app. by left. }
  rewrite (Hgen ts [u] Hnd); [done| |by left].
  intros x _ Hx%list_elem_of_singleton. done.
Qed.

Lemma filter_ext_elem (P Q : T -> Prop) `{!forall x, Decision (P x),
    !forall x, Decision (Q x)} ts :
  (forall t, t ∈ ts -> P t <-> Q t) -> filter P ts = filter Q ts.
Proof.
  induction ts as [|t ts IH]; intros Hext; [done|].
  rewrite !filter_cons.
  rewrite IH by (intros x Hx; apply Hext; by right).
  pose proof (Hext t ltac:(by left)) as Ht.
  destruct (decide (P t)), (decide (Q t)); tauto || done.
Qed.

Lemma filter_filter_and (P Q : T -> Prop) `{!forall x, Decision (P x),
    !forall x, Decision (Q x)} ts :
  filter P (filter Q ts) = filter (fun t => P t /\ Q t) ts.
Proof.
  induction ts as [|t ts IH]; [done|].
  rewrite !(filter_cons _ t).
  destruct (decide (Q t)) as [HQ|HQ].
  - rewrite filter_cons, IH.
    destruct (decide (P t)), (decide (P t /\ Q t)); tauto || done.
  - rewrite IH. destruct (decide (P t /\ Q t)); tauto || done.
Qed.

Lemma minus_spec ts us :
  NoDup ts -> meta.minus ts us = filter (fun t => t ∉ us) ts.
Proof.
  revert ts. induction us as [|u us IH]; intros ts Hnd; simpl.
  - induction ts as [|t ts IHts]; [done|].
    apply NoDup_cons in Hnd as [_ Hnd].
    rewrite filter_cons_True by apply not_elem_of_nil. by rewrite <- IHts.
  - destruct (meta.contains_v u ts) eqn:Hu.
    + apply contains_v_spec in Hu. rewrite union_singleton by done.
      rewrite IH by (by apply NoDup_filter).
      rewrite filter_filter_and. apply list_filter_iff.
      intros t. rewrite not_elem_of_cons. tauto.
    + apply contains_v_false in Hu. rewrite IH by done.
      apply filter_ext_elem. intros t Ht. rewrite not_elem_of_cons.
      split; [|tauto]. intros Hnot. split; [|done]. by intros ->.
Qed.

Lemma index_of_v_None t us : t ∉ us -> meta.index_of_v t us = None.
Proof.
  destruct us as [|u us]; [done|]. intros Hnot%contains_v_false.
  cbn [meta.index_of_v]. by rewrite Hnot.
Qed.

(** The constraint of [index_of_v] rejects nothing that the recursion would
    find. *)
Lemma index_of_v_cons t u us :
  meta.index_of_v t (u :: us)
  = if bool_decide (t = u) then Some 0 else S <$> meta.index_of_v t us.
Proof.
  cbn [meta.index_of_v].
  destruct (meta.contains_v t (u :: us)) eqn:Hc; [done|]. simpl.
  apply contains_v_false, not_elem_of_cons in Hc as [Hne Hnot].
  rewrite bool_decide_eq_false_2 by done.
  by rewrite index_of_v_None.
Qed.

Lemma index_of_v_spec t us i :
  meta.index_of_v t us = Some i
  <-> us !! i = Some t /\ forall j, j < i -> us !! j <> Some t.
Proof.
  revert i. induction us as [|u us IH]; intros i.
  - simpl. split; [done|]. by intros [? _].
  - rewrite index_of_v_cons. destruct (bool_decide (t = u)) eqn:Htu.
    + apply bool_decide_eq_true in Htu as ->. split.
      * intros [= <-]. split; [done|]. intros j Hj. lia.
      * intros [Hi Hmin]. destruct i as [|i]; [done|].
        exfalso. by apply (Hmin 0); [lia|].
    + apply bool_decide_eq_false in Htu. split.
      * intros Hi. destruct (meta.index_of_v t us) as [k|] eqn:Hk; [|done].
        simpl in Hi. injection Hi as <-.
        destruct (proj1 (IH k) eq_refl) as [Hk' Hmin]. split; [done|].
        intros [|j] Hj; simpl; [congruence|]. apply Hmin. lia.
      * intros [Hi Hmin]. destruct i as [|i]; simpl in Hi; [congruence|].
        assert (meta.index_of_v t us = Some i) as ->; [|done].
        apply IH. split; [done|]. intros j Hj. apply (Hmin (S j)). lia.
Qed.

End MetaSet.

(** X17.  The union [Set | Set] of [meta::Set] over distinct elements has
    distinct elements, contains what either operand contains, begins with the
    elements of the left operand in their order, and includes both
    operands. *)
Theorem meta_union_spec :
  forall (T : Type) (EqT : EqDecision T) (ts us : list T),
    meta.all_unique_v ts = true ->
    let result := meta.union ts us in
    meta.all_unique_v result = true
    /\ (forall x, meta.contains result x = true
                  <-> meta.contains ts x = true \/ meta.contains us x = true)
    /\ take (meta.size ts) result = ts
    /\ meta.includes result ts = true
    /\ meta.includes result us = true.
Proof.
  intros T EqT ts us Hts%all_unique_v_spec result. subst result.
  split; [|split; [|split; [|split]]].
  - apply all_unique_v_spec.
    destruct (union_spec ts us) as (new & -> & Hnd & _). by apply Hnd.
  - intros x. unfold meta.contains. rewrite !contains_v_spec.
    apply elem_of_union.
  - destruct (union_spec ts us) as (new & -> & _ & _).
    unfold meta.size. by rewrite take_app_length.
  - apply includes_spec. intros u Hu. apply elem_of_union. by left.
  - apply includes_spec. intros u Hu. apply elem_of_union. by right.
Qed.

Lemma meta_union_spec_witness :
  meta.all_unique_v (meta.union [1; 2; 3] [3; 4; 1; 5]) = true
  /\ take 3 (meta.union [1; 2; 3] [3; 4; 1; 5]) = [1; 2; 3].
Proof.
  pose proof (meta_union_spec nat _ [1; 2; 3] [3; 4; 1; 5] eq_refl)
    as (H1 & _ & H3 & _).
  split; [exact H1|exact H3].
Defined.

(** X18.  [Set::includes], which the source decides by comparing the set
    with its union with the other set, holds exactly when every element of
    the other set is an element of the set. *)
Theorem meta_includes_subset :
  forall (T : Type) (EqT : EqDecision T) (ts us : list T),
    meta.includes ts us = true
    <-> forall u, meta.contains us u = true -> meta.contains ts u = true.
Proof.
  intros T EqT ts us. rewrite includes_spec. unfold meta.contains.
  split; intros H u; specialize (H u); by rewrite !contains_v_spec in *.
Qed.

(** X19.  The difference [Set - Set] of [meta::Set] over distinct elements
    keeps, in their order, the elements of the left operand that the right
    operand does not contain, and its elements are distinct. *)
Theorem meta_minus_spec :
  forall (T : Type) (EqT : EqDecision T) (ts us : list T),
    meta.all_unique_v ts = true ->
    meta.minus ts us = filter (fun t => meta.contains us t = false) ts
    /\ meta.all_unique_v (meta.minus ts us) = true.
Proof.
  intros T EqT ts us Hts%all_unique_v_spec.
  rewrite minus_spec by done. split.
  - apply list_filter_iff. intros t. unfold meta.contains.
    by rewrite contains_v_false.
  - apply all_unique_v_spec. by apply NoDup_filter.
Qed.

Lemma meta_minus_spec_witness :
  meta.minus [1; 2; 3; 4] [3; 1; 7]
  = filter (fun t => meta.contains [3; 1; 7] t = false) [1; 2; 3; 4].
Proof.
  apply (meta_minus_spec nat _ [1; 2; 3; 4] [3; 1; 7]).
  vm_compute. reflexivity.
Defined.

(** X20.  [index_of_v] is the index of the first occurrence of the element
    in the list; its [requires] clause fails ([None]) exactly when
    [contains_v] is false. *)
Theorem meta_index_of_v_spec :
  forall (T : Type) (EqT : EqDecision T) (t : T) (us : list T),
    (forall i,
       meta.index_of_v t us = Some i
       <-> us !! i = Some t /\ forall j, j < i -> us !! j <> Some t)
    /\ (meta.index_of_v t us = None <-> meta.contains_v t us = false).
Proof.
  intros T EqT t us. split; [intros i; apply index_of_v_spec|].
  rewrite contains_v_false. split.
  - intros Hnone Hin.
    induction us as [|u us IH]; [by apply elem_of_nil in Hin|].
    rewrite index_of_v_cons in Hnone.
    destruct (bool_decide (t = u)) eqn:Htu; [done|].
    apply bool_decide_eq_false in Htu.
    apply elem_of_cons in Hin as [?|Hin]; [done|].
    apply IH; [|done]. by destruct (meta.index_of_v t us).
  - apply index_of_v_None.
Qed.

(** ** [unindent] *)

Section Unindent.
Implicit Types (text line cur result : list ascii) (ls : list (list ascii)).
Local Arguments Ascii.eqb : simpl never.

Lemma break_line_index text :
  let k := default (length text) (index_where (Ascii.eqb newline) text) in
  break_line text = (take k text, drop (k + 1) text) /\ k <= length text.
Proof.
  induction text as [|c text [IH Hk]]; [done|]. simpl.
  rewrite (Ascii.eqb_sym newline c).
  destruct (Ascii.eqb c newline); simpl; [split; [done|lia]|].
  rewrite IH. destruct (index_where _ text); simpl in *; (split; [done|lia]).
Qed.

Lemma lines_from_break cur text :
  text <> [] ->
  lines_from cur text
  = (cur ++ (break_line text).1) :: lines_from [] (break_line text).2.
Proof.
  revert cur. induction text as [|c text IH]; intros cur Hne; [done|].
  simpl. destruct (Ascii.eqb c newline).
  - simpl. by rewrite app_nil_r.
  - destruct text as [|c' text'].
    + simpl. destruct (cur ++ [c]) eqn:Hc; [|done].
      by apply app_eq_nil in Hc as [_ ?].
    + rewrite IH by done. destruct (break_line (c' :: text')) as [l r].
      simpl. by rewrite <- app_assoc.
Qed.

Lemma break_line_length text :
  text <> [] -> length (break_line text).2 < length text.
Proof.
  intros Hne. destruct (break_line_index text) as [-> Hk]. simpl.
  rewrite length_drop. destruct text; [done|]. simpl. lia.
Qed.

(** One round of the loop takes the line at the front of what is left of the
    text. *)
Lemma unindent_loop_lines fuel text result indent start :
  length text - start < fuel ->
  unindent_loop fuel text result indent start
  = Some (result ++ unlines (unindent_lines indent (lines (drop start text)))).
Proof.
  revert result indent start.
  induction fuel as [|fuel IH]; intros result indent start Hfuel; [lia|].
  cbn [unindent_loop].
  destruct (start <? length text) eqn:Hlt.
  - apply Nat.ltb_lt in Hlt.
    set (rest := drop start text).
    assert (rest <> []) as Hne.
    { intros Hnil. apply (f_equal length) in Hnil. subst rest.
      rewrite length_drop in Hnil. simpl in Hnil. lia. }
    destruct (break_line_index rest) as [Hbreak Hk].
    set (k := default (length rest)
                      (index_where (Ascii.eqb newline) rest)) in *.
    assert (default (length text) (string_find text newline start)
            = start + k) as Hend.
    { unfold string_find. fold rest. subst k.
      destruct (index_where _ rest); simpl; [done|].
      subst rest. rewrite length_drop. lia. }
    rewrite Hend.
    replace (start + k - start) with k by lia.
    assert (substr text start k = (break_line rest).1) as Hline
      by (by rewrite Hbreak).
    assert (drop (start + k + 1) text = (break_line rest).2) as Hrest.
    { rewrite Hbreak. simpl. subst rest. rewrite drop_drop. f_equal. lia. }
    rewrite IH.
    2:{ assert (length rest = length text - start) as Hl
          by (subst rest; by rewrite length_drop).
        lia. }
    unfold lines at 2. fold rest.
    rewrite (lines_from_break [] rest Hne). simpl app.
    rewrite Hrest, Hline. cbn [unindent_lines]. unfold unlines.
    rewrite fmap_cons. cbn [concat].
    f_equal. unfold unindent_line, next_indent, substr_from.
    set (line := (break_line rest).1).
    destruct (find_first_not_of_blank line) as [li|] eqn:Hli.
    + destruct indent; rewrite <- !app_assoc; reflexivity.
    + destruct indent; rewrite <- !app_assoc; reflexivity.
  - apply Nat.ltb_ge in Hlt. rewrite drop_ge by done.
    simpl. by rewrite app_nil_r.
Qed.

Lemma unindent_lines_eq text :
  unindent text = Some (unlines (unindent_lines None (lines text))).
Proof.
  unfold unindent. rewrite unindent_loop_lines by lia. by rewrite drop_0.
Qed.


Lemma index_where_Some P line i :
  index_where P line = Some i ->
  Forall (fun x => P x = false) (take i line)
  /\ exists x, line !! i = Some x /\ P x = true.
Proof.
  revert i. induction line as [|x line IH]; intros i; [done|]. simpl.
  destruct (P x) eqn:Hx.
  - intros [= <-]. split; [constructor|]. by exists x.
  - destruct (index_where P line) as [k|]; [|done]. simpl. intros [= <-].
    destruct (IH k eq_refl) as [Hall Hex]. split; [|done].
    simpl. by constructor.
Qed.

Lemma index_where_drop P line i k :
  index_where P line = Some i -> k <= i ->
  index_where P (drop k line) = Some (i - k).
Proof.
  revert i k. induction line as [|x line IH]; intros i k; [done|]. simpl.
  destruct k as [|k].
  - intros Hi _. simpl. rewrite Nat.sub_0_r. exact Hi.
  - destruct (P x); [intros [= <-]; lia|].
    destruct (index_where P line) as [j|] eqn:Hj; [|done]. simpl.
    intros [= <-] Hk. apply (IH j k eq_refl). lia.
Qed.

Lemma not_elem_of_drop (x : ascii) k line : x ∉ line -> x ∉ drop k line.
Proof.
  intros Hnot Hin. apply Hnot.
  rewrite <- (take_drop k line). apply elem_of_app. by right.
Qed.

Lemma unindent_line_unindented indent line :
  unindented line (unindent_line indent line).
Proof.
  unfold unindented, unindent_line, blank.
  destruct (find_first_not_of_blank line) as [li|] eqn:Hli.
  - right. split; [done|].
    set (k := npos_min indent li).
    assert (k <= li) as Hk by (subst k; destruct indent; simpl; lia).
    exists (take k line). split; [by rewrite take_drop|].
    apply index_where_Some in Hli as [Hall _].
    replace k with (k `min` li) by lia. rewrite <- take_take.
    apply Forall_take. eapply Forall_impl; [exact Hall|].
    intros x Hx. simpl in Hx. by apply negb_false_iff in Hx.
  - by left.
Qed.

Lemma lines_from_app cur line rest :
  newline ∉ line ->
  lines_from cur (line ++ newline :: rest)
  = (cur ++ line) :: lines_from [] rest.
Proof.
  revert cur. induction line as [|c line IH]; intros cur Hnot; simpl.
  - by rewrite app_nil_r.
  - apply not_elem_of_cons in Hnot as [Hc Hnot].
    destruct (Ascii.eqb c newline) eqn:Heq.
    + apply Ascii.eqb_eq in Heq. by subst.
    + rewrite IH by done. by rewrite <- app_assoc.
Qed.

Lemma lines_unlines ls :
  Forall (fun line => newline ∉ line) ls -> lines (unlines ls) = ls.
Proof.
  induction 1 as [|line ls Hline _ IH]; [done|].
  unfold lines, unlines in *. rewrite fmap_cons. cbn [concat].
  rewrite <- app_assoc. simpl.
  rewrite lines_from_app by done. by rewrite IH.
Qed.

Lemma lines_from_no_newline cur text :
  newline ∉ cur ->
  Forall (fun line => newline ∉ line) (lines_from cur text).
Proof.
  revert cur. induction text as [|c text IH]; intros cur Hcur; simpl.
  - destruct cur; [constructor|]. by repeat constructor.
  - destruct (Ascii.eqb c newline) eqn:Heq.
    + constructor; [done|]. apply IH, not_elem_of_nil.
    + apply IH. intros [Hin|Hin%list_elem_of_singleton]%elem_of_app; [done|].
      subst. by rewrite Ascii.eqb_refl in Heq.
Qed.

Lemma unindent_lines_no_newline indent ls :
  Forall (fun line => newline ∉ line) ls ->
  Forall (fun line => newline ∉ line) (unindent_lines indent ls).
Proof.
  intros Hls. revert indent. induction Hls as [|line ls Hline _ IH];
    intros indent; [constructor|].
  cbn [unindent_lines]. constructor; [|apply IH].
  unfold unindent_line. destruct (find_first_not_of_blank line);
    [by apply not_elem_of_drop|apply not_elem_of_nil].
Qed.

Lemma unindent_lines_unindented indent ls :
  Forall2 unindented ls (unindent_lines indent ls).
Proof.
  revert indent. induction ls as [|line ls IH]; intros indent; [constructor|].
  cbn [unindent_lines]. constructor; [apply unindent_line_unindented|apply IH].
Qed.

(** A second pass changes nothing. *)
Lemma unindent_line_Some_0 indent line :
  unindent_line (Some 0) (unindent_line indent line)
  = unindent_line indent line.
Proof.
  unfold unindent_line at 2 3.
  destruct (find_first_not_of_blank line) as [li|] eqn:Hli; [|done].
  set (k := npos_min indent li).
  assert (k <= li) as Hk by (subst k; destruct indent; simpl; lia).
  unfold unindent_line, find_first_not_of_blank in *.
  by rewrite (index_where_drop _ _ _ _ Hli Hk).
Qed.

Lemma unindent_lines_Some_0 i ls :
  unindent_lines (Some 0) (unindent_lines (Some i) ls)
  = unindent_lines (Some i) ls.
Proof.
  induction ls as [|line ls IH]; [done|].
  cbn [unindent_lines next_indent]. by rewrite unindent_line_Some_0, IH.
Qed.

Lemma unindent_lines_idem ls :
  unindent_lines None (unindent_lines None ls) = unindent_lines None ls.
Proof.
  induction ls as [|line ls IH]; [done|].
  cbn [unindent_lines next_indent].
  destruct (find_first_not_of_blank line) as [li|] eqn:Hli.
  - assert (find_first_not_of_blank (unindent_line (Some li) line) = Some 0)
      as H0.
    { unfold unindent_line. rewrite Hli. simpl npos_min. rewrite Nat.min_id.
      unfold find_first_not_of_blank in *.
      rewrite (index_where_drop _ _ _ _ Hli (Nat.le_refl li)).
      f_equal. lia. }
    rewrite H0.
    by rewrite unindent_line_Some_0, unindent_lines_Some_0.
  - assert (unindent_line None line = []) as ->
      by (unfold unindent_line; by rewrite Hli).
    change (find_first_not_of_blank []) with (@None nat).
    by rewrite IH.
Qed.

End Unindent.

(** X21.  [unindent] returns for every text, and line by line the result is
    the text without some of its leading blanks and tabs: a line of blanks
    and tabs only becomes empty, and any other line loses blanks and tabs at
    its front and no other character.  The result has as many lines as the
    text. *)
Theorem unindent_removes_leading_blanks :
  forall text : list ascii,
    exists result,
      unindent text = Some result
      /\ Forall2 unindented (lines text) (lines result).
Proof.
  intros text. eexists. split; [apply unindent_lines_eq|].
  rewrite lines_unlines.
  - apply unindent_lines_unindented.
  - apply unindent_lines_no_newline, lines_from_no_newline, not_elem_of_nil.
Qed.

(** X22.  [unindent] is idempotent: a text that has been unindented is
    unindented into itself. *)
Theorem unindent_idempotent :
  forall text : list ascii, unindent text ≫= unindent = unindent text.
Proof.
  intros text. rewrite unindent_lines_eq. simpl.
  rewrite unindent_lines_eq. f_equal. f_equal.
  rewrite lines_unlines.
  - apply unindent_lines_idem.
  - apply unindent_lines_no_newline, lines_from_no_newline, not_elem_of_nil.
Qed.

(** Three lines indented by two, four and one blanks, and an empty line:
    the first line loses its two blanks, the third two of its four, the last
    its one. *)
Example unindent_script :
  unindent [space; space; "a"; newline;
            newline;
            space; space; space; space; "b"; newline;
            space; "c"]%char
  = Some ["a"; newline;
          newline;
          space; space; "b"; newline;
          "c"; newline]%char.
Proof. vm_compute. reflexivity. Qed.

(** ** The tree view *)

Section TreeViewProofs.
Import TreeView.
Implicit Types (node parent : TreeNode) (nodes : list TreeNode)
               (e : list nat) (st : State).

(** Induction over a tree: a property of the children gives the property of
    the node. *)
Lemma TreeNode_forall_ind (P : TreeNode -> Prop) :
  (forall r nm, P (mkTreeNode r nm None)) ->
  (forall r nm cs, Forall P cs -> P (mkTreeNode r nm (Some cs))) ->
  forall node, P node.
Proof.
  intros Hleaf Hnode. fix IH 1. intros [r nm [cs|]]; [|apply Hleaf].
  apply Hnode. induction cs as [|c cs IHcs]; constructor; [apply IH|done].
Qed.

Lemma elem_of_flat_map {A B} (f : A -> list B) (l : list A) (y : B) :
  y ∈ flat_map f l <-> exists x, x ∈ l /\ y ∈ f x.
Proof.
  rewrite list_elem_of_In, in_flat_map. split.
  - intros (x & Hx & Hy). exists x. by rewrite !list_elem_of_In.
  - intros (x & Hx & Hy). exists x. by rewrite <- !list_elem_of_In.
Qed.

Lemma flattenVisibleNode_eq e depth node :
  flattenVisibleNode e depth node
  = (depth, node)
    :: match children node with
       | Some cs =>
           if set_has e node then flattenVisibleTree e (S depth) cs else []
       | None => []
       end.
Proof. by destruct node as [r nm [cs|]]. Qed.

Lemma all_nodes_of_eq node :
  all_nodes_of node
  = node :: match children node with
            | Some cs => all_nodes cs
            | None => []
            end.
Proof. by destruct node as [r nm [cs|]]. Qed.

Lemma elem_of_flattenVisibleNode e depth node d n :
  (d, n) ∈ flattenVisibleNode e depth node
  <-> (d = depth /\ n = node)
      \/ exists cs, children node = Some cs /\ ref node ∈ e
                    /\ (d, n) ∈ flattenVisibleTree e (S depth) cs.
Proof.
  rewrite flattenVisibleNode_eq, elem_of_cons. unfold set_has.
  split.
  - intros [[= -> ->]|Hin]; [by left|right].
    destruct (children node) as [cs|]; [|by apply elem_of_nil in Hin].
    case_bool_decide; [|by apply elem_of_nil in Hin]. by exists cs.
  - intros [[-> ->]|(cs & -> & He & Hin)]; [by left|right].
    by rewrite bool_decide_eq_true_2.
Qed.

(** The children of a row of an expanded node have rows, one level
    deeper. *)
Lemma flattenVisibleNode_child e q :
  forall depth d parent cs node,
    (d, parent) ∈ flattenVisibleNode e depth q ->
    children parent = Some cs -> ref parent ∈ e -> node ∈ cs ->
    (S d, node) ∈ flattenVisibleNode e depth q.
Proof.
  induction q as [r nm|r nm qs IH] using TreeNode_forall_ind;
    intros depth d parent cs node Hp Hcs He Hnode.
  - apply elem_of_flattenVisibleNode in Hp as [[-> ->]|(? & [=] & _)].
    done.
  - apply elem_of_flattenVisibleNode.
    apply elem_of_flattenVisibleNode in Hp as [[-> ->]|(? & [= <-] & Hr & Hp)].
    + right. exists cs. split; [done|]. split; [done|].
      apply elem_of_flat_map. exists node. split; [done|].
      rewrite flattenVisibleNode_eq. by left.
    + right. exists qs. split; [done|]. split; [done|].
      apply elem_of_flat_map in Hp as (q & Hq & Hp).
      apply elem_of_flat_map. exists q. split; [done|].
      rewrite Forall_forall in IH. by eapply IH.
Qed.

Lemma shown_flattenVisibleTree e nodes depth d node :
  shown e nodes d node -> (depth + d, node) ∈ flattenVisibleTree e depth nodes.
Proof.
  induction 1 as [node Hin|d parent cs node _ IH Hcs He Hin].
  - apply elem_of_flat_map. exists node. split; [done|].
    rewrite flattenVisibleNode_eq, Nat.add_0_r. by left.
  - apply elem_of_flat_map in IH as (q & Hq & Hp).
    apply elem_of_flat_map. exists q. split; [done|].
    replace (depth + S d) with (S (depth + d)) by lia.
    by eapply flattenVisibleNode_child.
Qed.

(** What is shown below a shown, expanded node is shown. *)
Lemma shown_lift e nodes depth parent cs d node :
  shown e nodes depth parent ->
  children parent = Some cs -> ref parent ∈ e ->
  shown e cs d node ->
  shown e nodes (S depth + d) node.
Proof.
  intros Hp Hcs He. induction 1 as [node Hin|d p ps node _ IH Hps Hpe Hin].
  - rewrite Nat.add_0_r. by eapply shown_child.
  - replace (S depth + S d) with (S (S depth + d)) by lia.
    by eapply shown_child.
Qed.

Lemma flattenVisibleNode_shown e q :
  forall depth d node,
    (d, node) ∈ flattenVisibleNode e depth q ->
    exists k, d = depth + k /\ shown e [q] k node.
Proof.
  induction q as [r nm|r nm qs IH] using TreeNode_forall_ind;
    intros depth d node Hin.
  - apply elem_of_flattenVisibleNode in Hin as [[-> ->]|(? & [=] & _)].
    exists 0. split; [lia|]. apply shown_root. by left.
  - apply elem_of_flattenVisibleNode in Hin as [[-> ->]|(? & [= <-] & Hr & Hin)].
    + exists 0. split; [lia|]. apply shown_root. by left.
    + apply elem_of_flat_map in Hin as (q & Hq & Hin).
      rewrite Forall_forall in IH.
      destruct (IH q Hq _ _ _ Hin) as (k & -> & Hk).
      exists (S k). split; [lia|].
      apply (shown_lift e _ 0 (mkTreeNode r nm (Some qs)) qs k node);
        [apply shown_root; by left|done|done|].
      clear -Hq Hk. induction Hk as [node Hin|d p ps node _ IH Hps Hpe Hin].
      * apply list_elem_of_singleton in Hin as ->. by apply shown_root.
      * by eapply shown_child.
Qed.

Lemma flattenVisibleTree_shown e nodes d node :
  (d, node) ∈ flattenVisibleTree e 0 nodes -> shown e nodes d node.
Proof.
  intros (q & Hq & Hin)%elem_of_flat_map.
  apply flattenVisibleNode_shown in Hin as (k & -> & Hk). simpl.
  clear -Hq Hk. induction Hk as [node Hin|d p ps node _ IH Hps Hpe Hin].
  - apply list_elem_of_singleton in Hin as ->. by apply shown_root.
  - by eapply shown_child.
Qed.

(** *** Rows and nodes *)

Lemma flat_map_sublist {A B} (f g : A -> list B) (l : list A) :
  Forall (fun x => f x `sublist_of` g x) l ->
  flat_map f l `sublist_of` flat_map g l.
Proof.
  induction 1 as [|x l Hx _ IH]; [done|]. simpl. by apply sublist_app.
Qed.

Lemma sublist_flat_map {A B} (f : A -> list B) (l : list A) (x : A) :
  x ∈ l -> f x `sublist_of` flat_map f l.
Proof.
  induction 1 as [x l|x y l _ IH]; simpl.
  - by apply sublist_inserts_r.
  - by apply sublist_inserts_l.
Qed.

Lemma fmap_flat_map {A B C} (f : A -> list B) (g : B -> C) (l : list A) :
  g <$> flat_map f l = flat_map (fun x => g <$> f x) l.
Proof.
  induction l as [|x l IH]; [done|]. simpl. by rewrite fmap_app, IH.
Qed.

(** The rows are some of the nodes, in the order of the nodes. *)
Lemma flattenVisibleNode_sublist e q :
  forall depth,
    (snd <$> flattenVisibleNode e depth q) `sublist_of` all_nodes_of q.
Proof.
  induction q as [r nm|r nm qs IH] using TreeNode_forall_ind; intros depth.
  - done.
  - cbn [flattenVisibleNode all_nodes_of]. rewrite fmap_cons.
    apply sublist_skip. case_bool_decide; [|apply sublist_nil_l].
    rewrite fmap_flat_map. apply flat_map_sublist.
    eapply Forall_impl; [exact IH|]. intros q Hq. apply Hq.
Qed.

Lemma flattenVisibleTree_sublist e depth nodes :
  (snd <$> flattenVisibleTree e depth nodes) `sublist_of` all_nodes nodes.
Proof.
  unfold flattenVisibleTree, all_nodes. rewrite fmap_flat_map.
  apply flat_map_sublist, Forall_forall. intros q _.
  apply flattenVisibleNode_sublist.
Qed.

Lemma all_nodes_of_sublist q :
  forall a, a ∈ all_nodes_of q -> all_nodes_of a `sublist_of` all_nodes_of q.
Proof.
  induction q as [r nm|r nm qs IH] using TreeNode_forall_ind; intros a Ha.
  - apply list_elem_of_singleton in Ha as ->. done.
  - cbn [all_nodes_of] in Ha. apply elem_of_cons in Ha as [->|Ha]; [done|].
    apply elem_of_flat_map in Ha as (q & Hq & Ha).
    rewrite Forall_forall in IH.
    etrans; [by apply (IH q Hq)|].
    cbn [all_nodes_of]. apply sublist_cons.
    by apply sublist_flat_map.
Qed.

Lemma all_nodes_sublist nodes a :
  a ∈ all_nodes nodes -> all_nodes_of a `sublist_of` all_nodes nodes.
Proof.
  intros (q & Hq & Ha)%elem_of_flat_map.
  etrans; [by apply all_nodes_of_sublist|]. by apply sublist_flat_map.
Qed.

(** In a tree of different objects a node is none of the nodes below it. *)
Lemma distinct_nodes_below nodes a cs node :
  distinct_nodes nodes ->
  a ∈ all_nodes nodes -> children a = Some cs -> node ∈ all_nodes cs ->
  ref a <> ref node.
Proof.
  intros Hd Ha Hcs Hnode.
  pose proof (all_nodes_sublist nodes a Ha) as Hsub.
  rewrite all_nodes_of_eq, Hcs in Hsub.
  apply (fmap_sublist ref) in Hsub.
  pose proof (sublist_NoDup _ _ Hd Hsub) as Hnd.
  rewrite fmap_cons in Hnd. apply NoDup_cons in Hnd as [Hnot _].
  intros Heq. apply Hnot. rewrite Heq. by apply list_elem_of_fmap_2.
Qed.

Lemma shown_all_nodes e nodes d node :
  shown e nodes d node -> node ∈ all_nodes nodes.
Proof.
  intros Hs. apply (shown_flattenVisibleTree e nodes 0) in Hs.
  eapply elem_of_sublist; [|apply (flattenVisibleTree_sublist e 0)].
  apply list_elem_of_fmap. by exists (0 + d, node).
Qed.

Lemma all_nodes_child nodes parent cs node :
  parent ∈ all_nodes nodes -> children parent = Some cs ->
  node ∈ all_nodes cs -> node ∈ all_nodes nodes.
Proof.
  intros Hp Hcs Hnode.
  eapply elem_of_sublist; [|by apply all_nodes_sublist].
  rewrite all_nodes_of_eq, Hcs. by right.
Qed.

Lemma elem_of_all_nodes_self nodes node : node ∈ nodes -> node ∈ all_nodes nodes.
Proof.
  intros Hin. apply elem_of_flat_map. exists node. split; [done|].
  rewrite all_nodes_of_eq. by left.
Qed.

(** A row stays when the expansion of the nodes above it stays. *)
Lemma shown_agree e e' nodes d node :
  shown e nodes d node ->
  (forall a cs,
     a ∈ all_nodes nodes -> children a = Some cs -> node ∈ all_nodes cs ->
     ref a ∈ e -> ref a ∈ e') ->
  shown e' nodes d node.
Proof.
  induction 1 as [node Hin|d p ps node Hp IH Hps Hpe Hin]; intros Hagree.
  - by apply shown_root.
  - pose proof (shown_all_nodes _ _ _ _ Hp) as Hpall.
    pose proof (elem_of_all_nodes_self ps node Hin) as Hnode.
    eapply shown_child; [|done| |done].
    + apply IH. intros a cs Ha Hcs Hpin. apply (Hagree a cs Ha Hcs).
      by eapply all_nodes_child.
    + by apply (Hagree p ps).
Qed.

(** Expanding or collapsing a node keeps its row. *)
Lemma shown_toggle e e' nodes d node :
  distinct_nodes nodes ->
  (forall r, r <> ref node -> r ∈ e -> r ∈ e') ->
  shown e nodes d node -> shown e' nodes d node.
Proof.
  intros Hd Hee Hs. apply (shown_agree e e' nodes d node Hs).
  intros a cs Ha Hcs Hnode He. apply Hee; [|done].
  by eapply distinct_nodes_below.
Qed.

(** *** The set of expanded nodes *)

Lemma elem_of_set_add s node r :
  r ∈ set_add s node <-> r ∈ s \/ r = ref node.
Proof.
  unfold set_add, set_has. case_bool_decide as Hin.
  - split; [by left|]. by intros [?| ->].
  - rewrite elem_of_app, list_elem_of_singleton. done.
Qed.

Lemma elem_of_set_delete s node r :
  r ∈ set_delete s node <-> r ∈ s /\ r <> ref node.
Proof. unfold set_delete. rewrite list_elem_of_filter. tauto. Qed.

Lemma elem_of_toggleNode s node r :
  r <> ref node -> r ∈ s -> r ∈ toggleNode node s.
Proof.
  intros Hne Hin. unfold toggleNode. destruct (set_has s node).
  - by apply elem_of_set_delete.
  - apply elem_of_set_add. by left.
Qed.

(** *** The selection *)

Lemma selection_visible_shown nodes e node :
  node ∈ (snd <$> flattenVisibleTree e 0 nodes)
  <-> exists d, shown e nodes d node.
Proof.
  rewrite list_elem_of_fmap. split.
  - intros ([d n] & -> & Hin). exists d. by apply flattenVisibleTree_shown.
  - intros (d & Hs). exists (d, node). split; [done|].
    by apply (shown_flattenVisibleTree e nodes 0).
Qed.

Lemma findIndex_bounds visible (o : option TreeNode) :
  (-1 <= findIndex visible o < Z.of_nat (length visible))%Z.
Proof.
  induction visible as [|[d n] visible IH]; simpl; [lia|].
  case_bool_decide; [lia|].
  destruct (Z.ltb_spec (findIndex visible o) 0); lia.
Qed.

Lemma findIndex_lookup visible k d node :
  NoDup (ref <$> (snd <$> visible)) ->
  visible !! k = Some (d, node) ->
  findIndex visible (Some node) = Z.of_nat k.
Proof.
  revert k. induction visible as [|[d0 n0] visible IH]; intros k Hnd Hk;
    [done|].
  rewrite !fmap_cons in Hnd. apply NoDup_cons in Hnd as [Hnot Hnd].
  destruct k as [|k]; simpl in *.
  - injection Hk as -> ->. by rewrite bool_decide_eq_true_2.
  - rewrite bool_decide_eq_false_2.
    + rewrite (IH k Hnd Hk).
      destruct (Z.ltb_spec (Z.of_nat k) 0); lia.
    + intros [= Heq]. apply Hnot. rewrite Heq.
      apply list_elem_of_fmap_2, list_elem_of_fmap.
      exists (d, node). split; [done|]. by eapply list_elem_of_lookup_2.
Qed.

Lemma visibleNodes_NoDup nodes st :
  distinct_nodes nodes -> NoDup (ref <$> (snd <$> visibleNodes nodes st)).
Proof.
  intros Hd. eapply sublist_NoDup; [exact Hd|].
  apply fmap_sublist, flattenVisibleTree_sublist.
Qed.

Lemma visibleNodes_first nodes st node :
  nodes !! 0 = Some node -> visibleNodes nodes st !! 0 = Some (0, node).
Proof.
  destruct nodes as [|q nodes]; [done|]. intros [= ->].
  unfold visibleNodes, flattenVisibleTree. simpl.
  by rewrite flattenVisibleNode_eq.
Qed.

Lemma at_index_rem {A} (array : list A) (a : Z) :
  array <> [] ->
  (-1 <= a)%Z -> (a = (-1)%Z -> length array = 1) ->
  exists k x,
    at_index array (js_rem a (Z.of_nat (length array))) = Some x
    /\ array !! k = Some x
    /\ Z.of_nat k = Z.rem a (Z.of_nat (length array)).
Proof.
  intros Hne Ha Hm1. unfold js_rem, at_index.
  assert (0 < length array) as Hlen by (destruct array; [done|simpl; lia]).
  destruct (Z.eqb_spec (Z.of_nat (length array)) 0) as [|_]; [lia|].
  assert (0 <= Z.rem a (Z.of_nat (length array)) < Z.of_nat (length array))%Z
    as Hr.
  { destruct (decide (a = -1)%Z) as [->|].
    - rewrite Hm1 by done.
      replace (Z.rem (-1) (Z.of_nat 1)) with 0%Z by reflexivity. lia.
    - apply Z.rem_bound_pos; lia. }
  destruct (Z.leb_spec 0 (Z.rem a (Z.of_nat (length array)))) as [_|]; [|lia].
  destruct (lookup_lt_is_Some_2 array
              (Z.to_nat (Z.rem a (Z.of_nat (length array))))) as [x Hx];
    [lia|].
  exists (Z.to_nat (Z.rem a (Z.of_nat (length array)))), x.
  split; [done|]. split; [done|]. lia.
Qed.

Lemma at_index_elem_of {A} (array : list A) (index : option Z) (x : A) :
  at_index array index = Some x -> x ∈ array.
Proof.
  unfold at_index. destruct index as [i|]; [|done].
  destruct (0 <=? i)%Z; [|done]. apply list_elem_of_lookup_2.
Qed.

Lemma visibleNodes_nonempty nodes st : nodes <> [] -> visibleNodes nodes st <> [].
Proof.
  destruct nodes as [|q nodes]; [done|]. intros _ Hnil.
  pose proof (visibleNodes_first (q :: nodes) st q eq_refl) as H0.
  by rewrite Hnil in H0.
Qed.

Lemma handleKeyDown_Ok nodes st key :
  nodes <> [] -> exists st', handleKeyDown nodes st key = Ok st'.
Proof.
  intros Hne. pose proof (visibleNodes_nonempty nodes st Hne) as Hvis.
  assert (exists n,
            match selectedNode st with Some n => Some n | None => nodes !! 0 end
            = Some n) as [n Hn].
  { destruct (selectedNode st) as [n|]; [by exists n|].
    destruct nodes as [|q nodes]; [done|]. by exists q. }
  assert (0 < length (visibleNodes nodes st)) as Hlen
    by (destruct (visibleNodes nodes st); [done|simpl; lia]).
  unfold handleKeyDown. rewrite Hn.
  destruct key.
  - pose proof (findIndex_bounds (visibleNodes nodes st) (Some n)) as Hb.
    destruct (at_index_rem (visibleNodes nodes st)
                (findIndex (visibleNodes nodes st) (Some n) + 1) Hvis)
      as (k & [d x] & -> & _); [lia|lia|]. eauto.
  - pose proof (findIndex_bounds (visibleNodes nodes st) (Some n)) as Hb.
    destruct (at_index_rem (visibleNodes nodes st)
                (findIndex (visibleNodes nodes st) (Some n) - 1
                 + Z.of_nat (length (visibleNodes nodes st))) Hvis)
      as (k & [d x] & -> & _); [lia|lia|]. eauto.
  - destruct (children n); eauto.
  - destruct (children n); eauto.
  - destruct (children n); [|eauto]. destruct (set_has _ _); eauto.
  - eauto.
Qed.

Lemma selection_visible_toggle nodes st e' node :
  distinct_nodes nodes ->
  (forall r, r <> ref node -> r ∈ expandedNodes st -> r ∈ e') ->
  node ∈ (snd <$> visibleNodes nodes st) ->
  selection_visible nodes (mkState e' (Some node)).
Proof.
  intros Hd Hee Hin. unfold selection_visible, visibleNodes in *. simpl.
  apply selection_visible_shown in Hin as (d & Hs).
  apply selection_visible_shown. exists d. by eapply shown_toggle.
Qed.

Lemma handleKeyDown_selection nodes st key st' :
  distinct_nodes nodes -> selection_visible nodes st ->
  handleKeyDown nodes st key = Ok st' -> selection_visible nodes st'.
Proof.
  intros Hd Hsel. unfold handleKeyDown.
  assert (forall e', selectedNode st = None ->
                     selection_visible nodes (mkState e' (selectedNode st)))
    as Hnone.
  { intros e' Hn. unfold selection_visible. simpl. by rewrite Hn. }
  assert (forall e' n,
            match selectedNode st with Some n => Some n | None => nodes !! 0 end
            = Some n ->
            (forall r, r <> ref n -> r ∈ expandedNodes st -> r ∈ e') ->
            selection_visible nodes (mkState e' (selectedNode st)))
    as Hkeep.
  { intros e' n Hn Hee. destruct (selectedNode st) as [m|] eqn:Hm.
    - injection Hn as ->.
      apply (selection_visible_toggle nodes st e' n); [done|done|].
      unfold selection_visible in Hsel. by rewrite Hm in Hsel.
    - by apply Hnone. }
  destruct key.
  - destruct (at_index _ _) as [[d n]|] eqn:Hat; [|done]. intros [= <-].
    apply at_index_elem_of in Hat. unfold selection_visible. simpl.
    apply list_elem_of_fmap. by exists (d, n).
  - destruct (at_index _ _) as [[d n]|] eqn:Hat; [|done]. intros [= <-].
    apply at_index_elem_of in Hat. unfold selection_visible. simpl.
    apply list_elem_of_fmap. by exists (d, n).
  - destruct (match selectedNode st with Some n => Some n | None => _ end)
      as [n|] eqn:Hn; [|done].
    destruct (children n); intros [= <-]; [|done].
    apply (Hkeep _ n eq_refl). intros r _ Hr. apply elem_of_set_add. by left.
  - destruct (match selectedNode st with Some n => Some n | None => _ end)
      as [n|] eqn:Hn; [|done].
    destruct (children n); intros [= <-]; [|done].
    apply (Hkeep _ n eq_refl). intros r Hne Hr. by apply elem_of_set_delete.
  - destruct (match selectedNode st with Some n => Some n | None => _ end)
      as [n|] eqn:Hn; [|done].
    destruct (children n); [|by intros [= <-]].
    destruct (set_has _ _); intros [= <-]; apply (Hkeep _ n eq_refl).
    + intros r Hne Hr. by apply elem_of_set_delete.
    + intros r _ Hr. apply elem_of_set_add. by left.
  - by intros [= <-].
Qed.

Lemma handleKeyDown_Throw nodes st key :
  nodes = [] -> selectedNode st = None -> key <> OtherKey ->
  handleKeyDown nodes st key = Throw st.
Proof.
  intros -> Hsel Hkey. unfold handleKeyDown. rewrite Hsel.
  by destruct key.
Qed.

Lemma handleClick_selection nodes st d node :
  distinct_nodes nodes ->
  (d, node) ∈ visibleNodes nodes st ->
  selection_visible nodes (handleClick st node).
Proof.
  intros Hd Hin. unfold handleClick.
  apply (selection_visible_toggle nodes st); [done| |].
  - intros r Hne Hr. by apply elem_of_toggleNode.
  - apply list_elem_of_fmap. by exists (d, node).
Qed.

(** *** The arrow keys *)

Lemma handleKeyDown_ArrowDown nodes st k d node :
  distinct_nodes nodes ->
  selectedNode st = Some node ->
  visibleNodes nodes st !! k = Some (d, node) ->
  exists d' next,
    visibleNodes nodes st !! ((k + 1) mod length (visibleNodes nodes st))
    = Some (d', next)
    /\ handleKeyDown nodes st ArrowDown
       = Ok (mkState (expandedNodes st) (Some next)).
Proof.
  intros Hd Hsel Hk. unfold handleKeyDown. rewrite Hsel.
  rewrite (findIndex_lookup _ k d node (visibleNodes_NoDup nodes st Hd) Hk).
  pose proof (lookup_lt_Some _ _ _ Hk) as Hlt.
  destruct (at_index_rem (visibleNodes nodes st) (Z.of_nat k + 1))
    as (j & [d' next] & -> & Hj & Hjk); [by intros Hnil; rewrite Hnil in Hk|lia|lia|].
  exists d', next. split; [|done].
  rewrite Z.rem_mod_nonneg in Hjk by lia.
  replace ((k + 1) mod length (visibleNodes nodes st)) with j; [done|].
  apply Nat2Z.inj. rewrite Hjk, Nat2Z.inj_mod. f_equal. lia.
Qed.

Lemma handleKeyDown_ArrowUp nodes st k d node :
  distinct_nodes nodes ->
  selectedNode st = Some node ->
  visibleNodes nodes st !! k = Some (d, node) ->
  exists d' prev,
    visibleNodes nodes st
      !! ((k + length (visibleNodes nodes st) - 1)
          mod length (visibleNodes nodes st))
    = Some (d', prev)
    /\ handleKeyDown nodes st ArrowUp
       = Ok (mkState (expandedNodes st) (Some prev)).
Proof.
  intros Hd Hsel Hk. unfold handleKeyDown. rewrite Hsel.
  rewrite (findIndex_lookup _ k d node (visibleNodes_NoDup nodes st Hd) Hk).
  pose proof (lookup_lt_Some _ _ _ Hk) as Hlt.
  destruct (at_index_rem (visibleNodes nodes st)
              (Z.of_nat k - 1 + Z.of_nat (length (visibleNodes nodes st))))
    as (j & [d' prev] & -> & Hj & Hjk); [by intros Hnil; rewrite Hnil in Hk|lia|lia|].
  exists d', prev. split; [|done].
  rewrite Z.rem_mod_nonneg in Hjk by lia.
  replace ((k + length (visibleNodes nodes st) - 1)
           mod length (visibleNodes nodes st)) with j; [done|].
  apply Nat2Z.inj. rewrite Hjk, Nat2Z.inj_mod. f_equal. lia.
Qed.

Lemma mod_next_prev k len :
  k < len -> ((k + 1) mod len + len - 1) mod len = k.
Proof.
  intros Hlt. destruct (decide (k + 1 = len)) as [Heq|Hne].
  - rewrite Heq, Nat.Div0.mod_same. simpl. rewrite Nat.mod_small; lia.
  - rewrite (Nat.mod_small (k + 1)) by lia.
    replace (k + 1 + len - 1) with (k + 1 * len) by lia.
    rewrite Nat.Div0.mod_add. apply Nat.mod_small. lia.
Qed.

Lemma mod_prev_next k len :
  k < len -> ((k + len - 1) mod len + 1) mod len = k.
Proof.
  intros Hlt. destruct k as [|k].
  - simpl. rewrite (Nat.mod_small (len - 1)) by lia.
    replace (len - 1 + 1) with len by lia. apply Nat.Div0.mod_same.
  - replace (S k + len - 1) with (k + 1 * len) by lia.
    rewrite Nat.Div0.mod_add, (Nat.mod_small k) by lia.
    rewrite Nat.mod_small; lia.
Qed.

Lemma arrow_keys_round_trip nodes st k d node :
  distinct_nodes nodes ->
  selectedNode st = Some node ->
  visibleNodes nodes st !! k = Some (d, node) ->
  let len := length (visibleNodes nodes st) in
  (exists d' next,
     visibleNodes nodes st !! ((k + 1) mod len) = Some (d', next)
     /\ handleKeyDown nodes st ArrowDown
        = Ok (mkState (expandedNodes st) (Some next))
     /\ handleKeyDown nodes (mkState (expandedNodes st) (Some next)) ArrowUp
        = Ok st)
  /\ (exists d' prev,
        visibleNodes nodes st !! ((k + len - 1) mod len) = Some (d', prev)
        /\ handleKeyDown nodes st ArrowUp
           = Ok (mkState (expandedNodes st) (Some prev))
        /\ handleKeyDown nodes (mkState (expandedNodes st) (Some prev))
             ArrowDown
           = Ok st).
Proof.
  intros Hd Hsel Hk len.
  pose proof (lookup_lt_Some _ _ _ Hk) as Hlt. fold len in Hlt.
  assert (st = mkState (expandedNodes st) (Some node)) as Hst
    by (destruct st; simpl in *; by subst).
  split.
  - destruct (handleKeyDown_ArrowDown nodes st k d node Hd Hsel Hk)
      as (d' & next & Hnext & Hdown).
    exists d', next. split; [done|]. split; [done|].
    destruct (handleKeyDown_ArrowUp nodes
                (mkState (expandedNodes st) (Some next))
                ((k + 1) mod len) d' next Hd eq_refl Hnext)
      as (d'' & prev & Hprev & Hup).
    change (visibleNodes nodes (mkState (expandedNodes st) (Some next)))
      with (visibleNodes nodes st) in Hprev.
    fold len in Hprev. rewrite mod_next_prev in Hprev by done.
    rewrite Hk in Hprev. injection Hprev as <- <-.
    rewrite Hup. simpl. by rewrite <- Hst.
  - destruct (handleKeyDown_ArrowUp nodes st k d node Hd Hsel Hk)
      as (d' & prev & Hprev & Hup).
    exists d', prev. split; [done|]. split; [done|].
    destruct (handleKeyDown_ArrowDown nodes
                (mkState (expandedNodes st) (Some prev))
                ((k + len - 1) mod len) d' prev Hd eq_refl Hprev)
      as (d'' & next & Hnext & Hdown).
    change (visibleNodes nodes (mkState (expandedNodes st) (Some prev)))
      with (visibleNodes nodes st) in Hnext.
    fold len in Hnext. rewrite mod_prev_next in Hnext by done.
    rewrite Hk in Hnext. injection Hnext as <- <-.
    rewrite Hdown. simpl. by rewrite <- Hst.
Qed.

End TreeViewProofs.

(** X23.  [flattenVisibleTree] lists exactly the rows of the tree view: the
    roots at depth 0, and the children of every row whose node is expanded
    and has children, one level deeper than that row.  The rows come in the
    order of the nodes of the tree, every node before its children. *)
Theorem flattenVisibleTree_rows :
  forall (expandedNodes : list nat) (nodes : list TreeView.TreeNode),
    (forall depth node,
       (depth, node) ∈ TreeView.flattenVisibleTree expandedNodes 0 nodes
       <-> TreeView.shown expandedNodes nodes depth node)
    /\ (snd <$> TreeView.flattenVisibleTree expandedNodes 0 nodes)
         `sublist_of` TreeView.all_nodes nodes.
Proof.
  intros e nodes. split; [|apply flattenVisibleTree_sublist].
  intros depth node. split; [apply flattenVisibleTree_shown|].
  apply (shown_flattenVisibleTree e nodes 0).
Qed.

(** X24.  In a tree of different objects the tree view keeps the selected
    node on the screen: when the selected node has a row, it has one again
    after any key that [handleKeyDown] handles and after a click on any
    row. *)
Theorem TreeView_selection_stays_visible :
  forall (nodes : list TreeView.TreeNode) (st : TreeView.State),
    TreeView.distinct_nodes nodes ->
    TreeView.selection_visible nodes st ->
    (forall key st',
       TreeView.handleKeyDown nodes st key = Ok st' ->
       TreeView.selection_visible nodes st')
    /\ (forall depth node,
          (depth, node) ∈ TreeView.visibleNodes nodes st ->
          TreeView.selection_visible nodes (TreeView.handleClick st node)).
Proof.
  intros nodes st Hd Hsel. split.
  - intros key st'. by apply handleKeyDown_selection.
  - intros depth node. by apply handleClick_selection.
Qed.

(** X25.  [handleKeyDown] returns on every key when the tree has a node; on
    an empty tree with nothing selected every key it handles (the four
    arrows and Enter) throws a [TypeError], and the state is left as it
    was. *)
Theorem handleKeyDown_throws_on_empty_tree :
  forall (nodes : list TreeView.TreeNode) (st : TreeView.State)
         (key : TreeView.Key),
    (nodes <> [] -> exists st', TreeView.handleKeyDown nodes st key = Ok st')
    /\ (nodes = [] -> TreeView.selectedNode st = None ->
        key <> TreeView.OtherKey ->
        TreeView.handleKeyDown nodes st key = Throw st).
Proof.
  intros nodes st key. split.
  - apply handleKeyDown_Ok.
  - apply handleKeyDown_Throw.
Qed.

(** X26.  When the selected node is row [k] of a tree of different objects,
    [ArrowDown] selects row [k + 1], or the first row after the last one, and
    [ArrowUp] selects row [k - 1], or the last row before the first one;
    either key followed by the other leads back to the state before. *)
Theorem TreeView_arrow_keys_round_trip :
  forall (nodes : list TreeView.TreeNode) (st : TreeView.State)
         (k depth : nat) (node : TreeView.TreeNode),
    TreeView.distinct_nodes nodes ->
    TreeView.selectedNode st = Some node ->
    TreeView.visibleNodes nodes st !! k = Some (depth, node) ->
    let visibleNodes := TreeView.visibleNodes nodes st in
    let len := length visibleNodes in
    let select n := TreeView.mkState (TreeView.expandedNodes st) (Some n) in
    (exists d next,
       visibleNodes !! ((k + 1) mod len) = Some (d, next)
       /\ TreeView.handleKeyDown nodes st TreeView.ArrowDown
          = Ok (select next)
       /\ TreeView.handleKeyDown nodes (select next) TreeView.ArrowUp
          = Ok st)
    /\ (exists d prev,
          visibleNodes !! ((k + len - 1) mod len) = Some (d, prev)
          /\ TreeView.handleKeyDown nodes st TreeView.ArrowUp
             = Ok (select prev)
          /\ TreeView.handleKeyDown nodes (select prev) TreeView.ArrowDown
             = Ok st).
Proof.
  intros nodes st k depth node Hd Hsel Hk. cbv zeta.
  exact (arrow_keys_round_trip nodes st k depth node Hd Hsel Hk).
Qed.

Lemma TreeView_selection_stays_visible_witness :
  (forall key st',
     TreeView.handleKeyDown tree_example
       (TreeView.mkState [1] (Some tree_child_1_1)) key = Ok st' ->
     TreeView.selection_visible tree_example st')
  /\ (forall depth node,
        (depth, node)
        ∈ TreeView.visibleNodes tree_example
            (TreeView.mkState [1] (Some tree_child_1_1)) ->
        TreeView.selection_visible tree_example
          (TreeView.handleClick
             (TreeView.mkState [1] (Some tree_child_1_1)) node)).
Proof.
  apply (TreeView_selection_stays_visible tree_example
           (TreeView.mkState [1] (Some tree_child_1_1))).
  - unfold TreeView.distinct_nodes.
    apply (bool_decide_eq_true_1 (NoDup _)). vm_compute. reflexivity.
  - unfold TreeView.selection_visible. simpl. right. right. left.
Defined.

Lemma TreeView_arrow_keys_round_trip_witness :
  let st := TreeView.mkState [1] (Some tree_child_1_1) in
  let visibleNodes := TreeView.visibleNodes tree_example st in
  let len := length visibleNodes in
  let select n := TreeView.mkState (TreeView.expandedNodes st) (Some n) in
  (exists d next,
     visibleNodes !! ((2 + 1) mod len) = Some (d, next)
     /\ TreeView.handleKeyDown tree_example st TreeView.ArrowDown
        = Ok (select next)
     /\ TreeView.handleKeyDown tree_example (select next) TreeView.ArrowUp
        = Ok st)
  /\ (exists d prev,
        visibleNodes !! ((2 + len - 1) mod len) = Some (d, prev)
        /\ TreeView.handleKeyDown tree_example st TreeView.ArrowUp
           = Ok (select prev)
        /\ TreeView.handleKeyDown tree_example (select prev)
             TreeView.ArrowDown
           = Ok st).
Proof.
  apply (TreeView_arrow_keys_round_trip tree_example
           (TreeView.mkState [1] (Some tree_child_1_1)) 2 1 tree_child_1_1).
  - unfold TreeView.distinct_nodes.
    apply (bool_decide_eq_true_1 (NoDup _)). vm_compute. reflexivity.
  - reflexivity.
  - reflexivity.
Defined.

(** The rows of the example with the second root expanded, and the arrow
    keys from the state in which nothing is selected: the first node stands
    for the selection, so [ArrowDown] selects the second row and [ArrowUp]
    the last one. *)
Example TreeView_example :
  let st := TreeView.mkState [1] None in
  (TreeView.ref ∘ snd <$> TreeView.visibleNodes tree_example st)
  = [14; 1; 2; 3]
  /\ (TreeView.ref <$> TreeView.all_nodes tree_example) = [14; 1; 2; 3; 4]
  /\ TreeView.handleKeyDown tree_example st TreeView.ArrowDown
     = Ok (TreeView.mkState [1] (tree_example !! 1))
  /\ TreeView.handleKeyDown tree_example st TreeView.ArrowUp
     = Ok (TreeView.mkState [1] (Some tree_child_1_2))
  /\ TreeView.handleKeyDown [] TreeView.initialState TreeView.ArrowDown
     = Throw TreeView.initialState.
Proof. repeat split. Qed.
